(** * A model of [advanced-vector/vector.h]

    [RawMemory<T>] owns a block of raw slots, [Vector<T>] keeps a live prefix
    of such a block.  The model keeps what the C++ code keeps:

    - a heap of blocks, each a list of slots that are either raw ([None]) or
      hold a live element ([Some x]); a buffer address is the number of its
      block, [0] is [nullptr];
    - objects ([RawMemory], [Vector]) in a store, addressed by their own
      number, so that [this != &rhs] is a comparison of two numbers;
    - C++ exceptions and contract violations (a failed [assert], a read of a
      raw slot, an access outside a block) as two distinct outcomes.

    A [size_t] is a [nat].  The one product the code computes on a number a
    caller chooses, [n * sizeof(T)] in [Allocate], is computed modulo
    [SIZE_MAX + 1] as in the source; [size_ + 1] and [size_ * 2] count live
    elements of a block and are written without the wrap.  [operator new]
    returns a block or throws [std::bad_alloc], as the environment decides. *)

From stdpp Require Import base numbers option list gmap.

(** ** The element type [T] *)

(** The special member functions of [T] the container calls. *)
Inductive special :=
  | CopyCtor | MoveCtor | ValueCtor | ArgsCtor | CopyAssign | MoveAssign.

(** What the container needs to know of [T] and of the environment it runs
    in: [sizeof(T)], the two traits the [if constexpr] tests read, the state
    a move leaves its source in, the value of [T()], which calls throw, and
    which requests [operator new] serves.  [W] is whatever the program keeps
    outside its objects (a counter of copies made, say); [attempt k x w]
    tells whether call [k] producing the value [x] completes, and the next
    [W]; [allocates size w] tells whether [operator new(size)] returns a
    block ([false]: it throws [std::bad_alloc]). *)
Class Element (T W : Type) := {
  sizeof : positive;
  is_nothrow_move_constructible : bool;
  is_copy_constructible : bool;
  moved_from : T → T;
  value_init : T;
  attempt : special → T → W → bool * W;
  allocates : N → W → bool
}.

(** [SIZE_MAX], and the product of two [size_t]. *)
Definition SIZE_MAX : N := 2 ^ 64 - 1.
Definition size_t_mul (a b : N) : N := (a * b) mod (SIZE_MAX + 1).

(** ** Outcomes and the monad of effectful code *)

Inductive outcome (S A : Type) :=
  | Ret (a : A) (s : S)    (* normal return *)
  | Throw (s : S)          (* an exception propagates *)
  | Abort.                 (* contract violation: assert or undefined behaviour *)
Arguments Ret {S A} a s.
Arguments Throw {S A} s.
Arguments Abort {S A}.

Definition M (S A : Type) : Type := S → outcome S A.

Definition ret {S A} (a : A) : M S A := λ s, Ret a s.
Definition bind {S A B} (m : M S A) (f : A → M S B) : M S B :=
  λ s, match m s with
       | Ret a s' => f a s'
       | Throw s' => Throw s'
       | Abort => Abort
       end.
Definition throw {S A} : M S A := λ s, Throw s.
Definition abort {S A} : M S A := λ _, Abort.
Definition get {S} : M S S := λ s, Ret s s.
Definition put {S} (s : S) : M S unit := λ _, Ret tt s.

(** [try { m } catch (...) { h }] *)
Definition try_catch {S A} (m : M S A) (h : M S A) : M S A :=
  λ s, match m s with
       | Throw s' => h s'
       | r => r
       end.

(** The destructor of a local runs when an exception leaves its scope. *)
Definition unwinding {S A} (dtor : M S unit) (m : M S A) : M S A :=
  try_catch m (bind dtor (λ _, throw)).

Definition assert {S} (b : bool) : M S unit := if b then ret tt else abort.

#[global] Instance M_ret {S} : MRet (M S) := λ A, @ret S A.
#[global] Instance M_bind {S} : MBind (M S) := λ A B f m, @bind S A B m f.

(** ** Raw memory: the heap *)

Record ptr := Ptr { blk : nat; off : nat }.

Definition nullptr : ptr := Ptr 0 0.
Definition ptr_add (p : ptr) (n : nat) : ptr := Ptr (blk p) (off p + n).
Infix "+ₚ" := ptr_add (at level 50, left associativity).

Definition ptr_eqb (p q : ptr) : bool :=
  (blk p =? blk q) && (off p =? off q).
(** [p <= q] and [p < q] on addresses of one block. *)
Definition ptr_leb (p q : ptr) : bool :=
  (blk p =? blk q) && (off p <=? off q).
Definition ptr_ltb (p q : ptr) : bool :=
  (blk p =? blk q) && (off p <? off q).

Section Heap.
Context {T W : Type} {E : Element T W}.

Record Memory := mkMemory {
  heap : gmap nat (list (option T));
  brk : nat;           (* the next address [operator new] hands out *)
  world : W
}.

Definition set_heap (h : gmap nat (list (option T))) (m : Memory) : Memory :=
  mkMemory h (brk m) (world m).

(** The slot at [p]: [None] when [p] is no address of a block. *)
Definition slot (m : Memory) (p : ptr) : option (option T) :=
  heap m !! blk p ≫= λ l, l !! off p.

Definition peek (p : ptr) : M Memory (option T) :=
  λ m, match slot m p with
       | Some c => Ret c m
       | None => Abort
       end.

Definition poke (p : ptr) (c : option T) : M Memory unit :=
  λ m, match heap m !! blk p with
       | Some l =>
           if decide (off p < length l)
           then Ret tt (set_heap (<[blk p := <[off p := c]> l]> (heap m)) m)
           else Abort
       | None => Abort
       end.

(** Reading the live object at [p]. *)
Definition load (p : ptr) : M Memory T :=
  c ← peek p;
  match c with
  | Some x => ret x
  | None => abort
  end.

(** [operator new(size)]: a block of [size] bytes, which has room for
    [size / sizeof(T)] objects of type [T], or [std::bad_alloc]. *)
Definition operator_new (size : N) : M Memory nat :=
  λ m, if allocates size (world m)
       then Ret (brk m)
                (mkMemory (<[brk m := replicate (N.to_nat (size / N.pos sizeof)) None]> (heap m))
                          (S (brk m)) (world m))
       else Throw m.

Definition operator_delete (buf : nat) : M Memory unit :=
  λ m, if decide (buf = 0) then Ret tt m
       else match heap m !! buf with
            | Some _ => Ret tt (set_heap (delete buf (heap m)) m)
            | None => Abort
            end.

(** *** Calls into [T] *)

(** A move constructor declared [noexcept] does not throw. *)
Definition may_throw (k : special) : bool :=
  match k with
  | MoveCtor => negb is_nothrow_move_constructible
  | _ => true
  end.

Definition call (k : special) (x : T) : M Memory unit :=
  λ m, if may_throw k
       then let '(ok, w) := attempt k x (world m) in
            if ok then Ret tt (mkMemory (heap m) (brk m) w)
            else Throw (mkMemory (heap m) (brk m) w)
       else Ret tt m.

(** [new (p) T(...)], the constructor being of kind [k] and making [x]. *)
Definition construct_at (p : ptr) (k : special) (x : T) : M Memory unit :=
  _ ← peek p;
  call k x;;
  poke p (Some x).

(** Copy construction at [dst] from the object at [src]. *)
Definition copy_construct (dst src : ptr) : M Memory unit :=
  x ← load src;
  construct_at dst CopyCtor x.

(** Move construction at [dst] from the object at [src]. *)
Definition move_construct (dst src : ptr) : M Memory unit :=
  x ← load src;
  construct_at dst MoveCtor x;;
  poke src (Some (moved_from x)).

(** Assignment of [x] to the object at [dst]. *)
Definition assign_value (dst : ptr) (k : special) (x : T) : M Memory unit :=
  _ ← load dst;
  call k x;;
  poke dst (Some x).

(** Copy assignment between two objects. *)
Definition copy_assign (dst src : ptr) : M Memory unit :=
  x ← load src;
  assign_value dst CopyAssign x.

(** Move assignment between two objects. *)
Definition move_assign (dst src : ptr) : M Memory unit :=
  x ← load src;
  assign_value dst MoveAssign x;;
  poke src (Some (moved_from x)).

Definition destroy_at (p : ptr) : M Memory unit :=
  _ ← load p;
  poke p None.

(** The arguments [args...] of [Emplace], [EmplaceBack] and [PushBack],
    forwarded to the constructor of [T], which reads them when it runs:
    arguments none of which is an element of a vector, of which the
    constructor, of kind [k], makes the value [x]; or one reference to the
    element at [src], a [const T&] for the copy constructor or a [T&&] for
    the move constructor. *)
Inductive arguments :=
  | values (k : special) (x : T)
  | lvalue (src : ptr)
  | rvalue (src : ptr).

(** [new (p) T(std::forward<Args>(args)...)] *)
Definition construct (p : ptr) (args : arguments) : M Memory unit :=
  match args with
  | values k x => construct_at p k x
  | lvalue src => copy_construct p src
  | rvalue src => move_construct p src
  end.

(** The object a parameter [const T& value] or [T&& value] is bound to: one
    that is no element of a vector (a local, a temporary), of value [x], or
    the element at [src]. *)
Inductive reference :=
  | outside (x : T)
  | element (src : ptr).

Definition copy_of (value : reference) : arguments :=
  match value with
  | outside x => values CopyCtor x
  | element src => lvalue src
  end.

Definition move_of (value : reference) : arguments :=
  match value with
  | outside x => values MoveCtor x
  | element src => rvalue src
  end.

(** The arguments that leave an element of a vector moved from. *)
Definition moves_element (args : arguments) : bool :=
  match args with
  | rvalue _ => true
  | _ => false
  end.

(** *** The algorithms of [<memory>] and [<algorithm>] *)

Fixpoint destroy_n (first : ptr) (n : nat) : M Memory unit :=
  match n with
  | 0 => ret tt
  | S n' => destroy_at first;; destroy_n (first +ₚ 1) n'
  end.

(** The [uninitialized_*] algorithms destroy what they have built when a
    constructor throws; [k] counts the elements built so far. *)
Fixpoint uninitialized_copy_from (k n : nat) (first d_first : ptr) : M Memory unit :=
  match n with
  | 0 => ret tt
  | S n' =>
      try_catch (copy_construct (d_first +ₚ k) (first +ₚ k))
                (destroy_n d_first k;; throw);;
      uninitialized_copy_from (S k) n' first d_first
  end.
Definition uninitialized_copy_n (first : ptr) (n : nat) (d_first : ptr) : M Memory unit :=
  uninitialized_copy_from 0 n first d_first.

Fixpoint uninitialized_move_from (k n : nat) (first d_first : ptr) : M Memory unit :=
  match n with
  | 0 => ret tt
  | S n' =>
      try_catch (move_construct (d_first +ₚ k) (first +ₚ k))
                (destroy_n d_first k;; throw);;
      uninitialized_move_from (S k) n' first d_first
  end.
Definition uninitialized_move_n (first : ptr) (n : nat) (d_first : ptr) : M Memory unit :=
  uninitialized_move_from 0 n first d_first.

Fixpoint uninitialized_value_construct_from (k n : nat) (first : ptr) : M Memory unit :=
  match n with
  | 0 => ret tt
  | S n' =>
      try_catch (construct_at (first +ₚ k) ValueCtor value_init)
                (destroy_n first k;; throw);;
      uninitialized_value_construct_from (S k) n' first
  end.
Definition uninitialized_value_construct_n (first : ptr) (n : nat) : M Memory unit :=
  uninitialized_value_construct_from 0 n first.

(** [last - first], both in one block. *)
Definition distance (first last : ptr) : M Memory nat :=
  assert (ptr_leb first last);;
  ret (off last - off first).

(** [std::copy]: assigns front to back. *)
Fixpoint copy_from (k n : nat) (first d_first : ptr) : M Memory unit :=
  match n with
  | 0 => ret tt
  | S n' =>
      copy_assign (d_first +ₚ k) (first +ₚ k);;
      copy_from (S k) n' first d_first
  end.
Definition std_copy (first last d_first : ptr) : M Memory unit :=
  n ← distance first last;
  copy_from 0 n first d_first.

(** [std::move] on ranges: move-assigns front to back. *)
Fixpoint move_from (k n : nat) (first d_first : ptr) : M Memory unit :=
  match n with
  | 0 => ret tt
  | S n' =>
      move_assign (d_first +ₚ k) (first +ₚ k);;
      move_from (S k) n' first d_first
  end.
Definition std_move (first last d_first : ptr) : M Memory unit :=
  n ← distance first last;
  move_from 0 n first d_first.

(** [std::move_backward]: move-assigns back to front, the range ending at
    [d_last]. *)
Fixpoint move_backward_n (n : nat) (first d_first : ptr) : M Memory unit :=
  match n with
  | 0 => ret tt
  | S n' =>
      move_assign (d_first +ₚ n') (first +ₚ n');;
      move_backward_n n' first d_first
  end.
Definition std_move_backward (first last d_last : ptr) : M Memory unit :=
  n ← distance first last;
  assert (n <=? off d_last);;
  move_backward_n n first (Ptr (blk d_last) (off d_last - n)).

End Heap.

Arguments Memory T W : clear implicits.
Arguments arguments T : clear implicits.
Arguments reference T : clear implicits.

(** ** Objects *)

(** The objects of one class, each at its own address, and the memory they
    share. *)
Record Store (T W O : Type) := mkStore {
  mem : Memory T W;
  objs : gmap nat O
}.
Arguments mkStore {T W O} mem objs.
Arguments mem {T W O} s.
Arguments objs {T W O} s.

Section Objects.
Context {T W O : Type}.

(** Code that works on memory alone, run in a store. *)
Definition lift {A} (m : M (Memory T W) A) : M (Store T W O) A :=
  λ s, match m (mem s) with
       | Ret a m' => Ret a (mkStore m' (objs s))
       | Throw m' => Throw (mkStore m' (objs s))
       | Abort => Abort
       end.

(** Reading and writing the fields of the object at [this]. *)
Definition get_obj (this : nat) : M (Store T W O) O :=
  λ s, match objs s !! this with
       | Some o => Ret o s
       | None => Abort
       end.

Definition set_obj (this : nat) (o : O) : M (Store T W O) unit :=
  λ s, match objs s !! this with
       | Some _ => Ret tt (mkStore (mem s) (<[this := o]> (objs s)))
       | None => Abort
       end.

(** The lifetime of the object at [this] starts, ends. *)
Definition new_obj (this : nat) (o : O) : M (Store T W O) unit :=
  λ s, match objs s !! this with
       | Some _ => Abort
       | None => Ret tt (mkStore (mem s) (<[this := o]> (objs s)))
       end.

Definition del_obj (this : nat) : M (Store T W O) unit :=
  λ s, match objs s !! this with
       | Some _ => Ret tt (mkStore (mem s) (delete this (objs s)))
       | None => Abort
       end.
End Objects.

(** ** [class RawMemory] *)

Module RawMemory.

Record t := mk { buffer_ : nat; capacity_ : nat }.

(** [T* buffer_ = nullptr; size_t capacity_ = 0;] *)
Definition empty : t := mk 0 0.

Definition GetAddress (r : t) : ptr := Ptr (buffer_ r) 0.
Definition Capacity (r : t) : nat := capacity_ r.

Section WithElement.
Context {T W : Type} {E : Element T W}.

Definition Allocate (n : nat) : M (Memory T W) nat :=
  if decide (n ≠ 0) then operator_new (size_t_mul (N.of_nat n) (N.pos sizeof)) else ret 0.

Definition Deallocate (buf : nat) : M (Memory T W) unit :=
  operator_delete buf.

(** The fields [RawMemory(size_t capacity)] makes, and what [~RawMemory()]
    does with the fields of the object it ends: the two are used below
    for every [RawMemory] that is a member or a local. *)
Definition init (capacity : nat) : M (Memory T W) t :=
  buf ← Allocate capacity;
  ret (mk buf capacity).

Definition fini (r : t) : M (Memory T W) unit :=
  Deallocate (buffer_ r).

(** [operator+], [operator[]] *)
Definition add {S} (r : t) (offset : nat) : M S ptr :=
  assert (offset <=? capacity_ r);;
  ret (Ptr (buffer_ r) offset).

Definition at_ {S} (r : t) (index : nat) : M S ptr :=
  assert (index <? capacity_ r);;
  ret (Ptr (buffer_ r) index).

(** The member functions, on [RawMemory] objects of their own. *)
Definition ctor_default (this : nat) : M (Store T W t) unit :=
  new_obj this empty.

Definition ctor (this : nat) (capacity : nat) : M (Store T W t) unit :=
  r ← lift (init capacity);
  new_obj this r.

Definition move_ctor (this other : nat) : M (Store T W t) unit :=
  o ← get_obj other;
  new_obj this (mk (buffer_ o) (capacity_ o));;
  set_obj other (mk 0 (capacity_ o));;
  set_obj other (mk 0 0).

Definition dtor (this : nat) : M (Store T W t) unit :=
  r ← get_obj this;
  lift (fini r);;
  del_obj this.

Definition Swap (this other : nat) : M (Store T W t) unit :=
  a ← get_obj this;
  b ← get_obj other;
  (* std::swap(buffer_, other.buffer_) *)
  set_obj this (mk (buffer_ b) (capacity_ a));;
  b ← get_obj other;
  set_obj other (mk (buffer_ a) (capacity_ b));;
  (* std::swap(capacity_, other.capacity_) *)
  a' ← get_obj this;
  b' ← get_obj other;
  set_obj this (mk (buffer_ a') (capacity_ b'));;
  b' ← get_obj other;
  set_obj other (mk (buffer_ b') (capacity_ a')).

End WithElement.

(** *** [operator=(RawMemory&&)]

    The body of the move assignment is kept as the statements it is made
    of, with the types the class declares: whether it can be instantiated
    is a question of these types. *)

(** [T* buffer_; size_t capacity_;] and the class itself. *)
Inductive type := pointer_to_T | size_t | class_RawMemory.

#[global] Instance type_eq_dec : EqDecision type.
Proof. solve_decision. Defined.

Inductive member := member_buffer_ | member_capacity_.

Definition declared_type (f : member) : type :=
  match f with
  | member_buffer_ => pointer_to_T
  | member_capacity_ => size_t
  end.

Inductive statement :=
  | destructor_call (object : member)   (* object.~RawMemory(); *)
  | assign_zero (f : member)            (* f = 0; *)
  | call_Swap.                          (* Swap(rhs); *)

(** [if (this != &rhs) { buffer_.~RawMemory(); capacity_ = 0; Swap(rhs); }] *)
Definition move_assign_body : list statement :=
  [destructor_call member_buffer_; assign_zero member_capacity_; call_Swap].

(** [object.~RawMemory()] calls the destructor of the class on an object of
    the class.  On an object of another type the call is ill-formed: the
    name after [~] has to denote the type of the object, and [RawMemory]
    is neither [T*] nor [size_t]. *)
Definition well_formed (st : statement) : bool :=
  match st with
  | destructor_call object => bool_decide (declared_type object = class_RawMemory)
  | assign_zero _ | call_Swap => true
  end.

(** A member function of a class template can be instantiated when each of
    its statements is well formed. *)
Definition instantiable (body : list statement) : bool :=
  forallb well_formed body.

End RawMemory.

(** ** [class Vector] *)

Module Vector.

Record t := mk { data_ : RawMemory.t; size_ : nat }.

(** [RawMemory<T> data_; size_t size_ = 0;] *)
Definition empty : t := mk RawMemory.empty 0.

Section WithElement.
Context {T W : Type} {E : Element T W}.

Abbreviation St := (Store T W t).

(** [if constexpr (std::is_nothrow_move_constructible_v<T> ||
    !std::is_copy_constructible_v<T>)] *)
Definition relocate_by_move : bool :=
  is_nothrow_move_constructible || negb is_copy_constructible.

(** *** Observers *)

Definition Size (this : nat) : M St nat :=
  v ← get_obj this;
  ret (size_ v).

Definition Capacity (this : nat) : M St nat :=
  v ← get_obj this;
  ret (RawMemory.Capacity (data_ v)).

Definition begin (this : nat) : M St ptr :=
  v ← get_obj this;
  ret (RawMemory.GetAddress (data_ v)).

Definition end_ (this : nat) : M St ptr :=
  v ← get_obj this;
  ret (RawMemory.GetAddress (data_ v) +ₚ size_ v).

Definition cbegin (this : nat) : M St ptr := begin this.
Definition cend (this : nat) : M St ptr := end_ this.

(** [operator[]]: the address of the element, to read or assign through. *)
Definition at_ (this : nat) (index : nat) : M St ptr :=
  v ← get_obj this;
  assert (index <? size_ v);;
  RawMemory.at_ (data_ v) index.

(** *** Construction, destruction, assignment *)

Definition ctor_default (this : nat) : M St unit :=
  new_obj this empty.

Definition ctor_size (this : nat) (size : nat) : M St unit :=
  data ← lift (RawMemory.init size);
  unwinding (lift (RawMemory.fini data))
    (lift (uninitialized_value_construct_n (RawMemory.GetAddress data) size));;
  new_obj this (mk data size).

(** The fields the copy constructor makes from those of [other]. *)
Definition copy_init (other : t) : M (Memory T W) t :=
  data ← RawMemory.init (size_ other);
  unwinding (RawMemory.fini data)
    (uninitialized_copy_n (RawMemory.GetAddress (data_ other)) (size_ other)
                          (RawMemory.GetAddress data));;
  ret (mk data (size_ other)).

Definition ctor_copy (this other : nat) : M St unit :=
  o ← get_obj other;
  v ← lift (copy_init o);
  new_obj this v.

(** What the destructor does with the fields of the object it ends:
    the body, then the destructor of the member [data_]. *)
Definition fini (v : t) : M (Memory T W) unit :=
  destroy_n (RawMemory.GetAddress (data_ v)) (size_ v);;
  RawMemory.fini (data_ v).

Definition dtor (this : nat) : M St unit :=
  v ← get_obj this;
  lift (fini v);;
  del_obj this.

Definition Swap (this other : nat) : M St unit :=
  (* data_.Swap(other.data_) *)
  a ← get_obj this;
  b ← get_obj other;
  set_obj this (mk (data_ b) (size_ a));;
  b ← get_obj other;
  set_obj other (mk (data_ a) (size_ b));;
  (* std::swap(size_, other.size_) *)
  a ← get_obj this;
  b ← get_obj other;
  set_obj this (mk (data_ a) (size_ b));;
  b ← get_obj other;
  set_obj other (mk (data_ b) (size_ a)).

Definition copy_assign (this rhs : nat) : M St unit :=
  if decide (this ≠ rhs) then
    v ← get_obj this;
    r ← get_obj rhs;
    let src := RawMemory.GetAddress (data_ r) in
    let dst := RawMemory.GetAddress (data_ v) in
    if decide (RawMemory.Capacity (data_ v) < size_ r) then
      rhs_copy ← lift (copy_init r);
      (* Swap(rhs_copy), then the end of the scope of [rhs_copy] *)
      set_obj this rhs_copy;;
      lift (fini v)
    else
      (if decide (size_ r < size_ v) then
         lift (std_copy src (src +ₚ size_ r) dst);;
         lift (destroy_n (dst +ₚ size_ r) (size_ v - size_ r))
       else
         lift (std_copy src (src +ₚ size_ v) dst);;
         lift (uninitialized_copy_n (src +ₚ size_ v) (size_ r - size_ v)
                                    (dst +ₚ size_ v)));;
      set_obj this (mk (data_ v) (size_ r))
  else ret tt.

Definition ctor_move (this other : nat) : M St unit :=
  new_obj this empty;;
  Swap this other.

Definition move_assign (this rhs : nat) : M St unit :=
  if decide (this ≠ rhs) then Swap this rhs else ret tt.

(** *** Capacity *)

Definition CreateCopy (this : nat) (capacity : nat) : M St RawMemory.t :=
  v ← get_obj this;
  data ← lift (RawMemory.init capacity);
  unwinding (lift (RawMemory.fini data))
    (if relocate_by_move
     then lift (uninitialized_move_n (RawMemory.GetAddress (data_ v)) (size_ v)
                                     (RawMemory.GetAddress data))
     else lift (uninitialized_copy_n (RawMemory.GetAddress (data_ v)) (size_ v)
                                     (RawMemory.GetAddress data)));;
  ret data.

Definition Reserve (this : nat) (capacity : nat) : M St unit :=
  v ← get_obj this;
  if decide (capacity ≤ RawMemory.Capacity (data_ v)) then ret tt
  else
    data ← CreateCopy this capacity;
    (* data_.Swap(data) *)
    set_obj this (mk data (size_ v));;
    let data := data_ v in
    lift (destroy_n (RawMemory.GetAddress data) (size_ v));;
    lift (RawMemory.fini data).

(** *** Insertion and removal *)

Definition Emplace (this : nat) (pos : ptr) (args : arguments T) : M St ptr :=
  v ← get_obj this;
  let begin := RawMemory.GetAddress (data_ v) in
  let end_ := begin +ₚ size_ v in
  assert (ptr_leb begin pos && ptr_leb pos end_);;
  let shift := off pos - off begin in
  it_element ←
    (if decide (size_ v = RawMemory.Capacity (data_ v)) then
       data ← lift (RawMemory.init (if decide (size_ v = 0) then 1 else size_ v * 2));
       it_element ←
         unwinding (lift (RawMemory.fini data))
           (it_element ← RawMemory.add data shift;
            lift (construct it_element args);;
            (if relocate_by_move then
               lift (uninitialized_move_n begin shift (RawMemory.GetAddress data));;
               lift (uninitialized_move_n (begin +ₚ shift) (size_ v - shift)
                       (RawMemory.GetAddress data +ₚ shift +ₚ 1))
             else
               try_catch
                 (lift (uninitialized_copy_n begin shift (RawMemory.GetAddress data));;
                  lift (uninitialized_copy_n (begin +ₚ shift) (size_ v - shift)
                          (RawMemory.GetAddress data +ₚ shift +ₚ 1)))
                 (lift (destroy_n (RawMemory.GetAddress data +ₚ shift) 1);;
                  throw));;
            lift (destroy_n begin (size_ v));;
            ret it_element);
       (* data_.Swap(data), then the end of the scope of [data] *)
       set_obj this (mk data (size_ v));;
       lift (RawMemory.fini (data_ v));;
       ret it_element
     else
       (if decide (size_ v ≠ 0) then
          p ← RawMemory.add (data_ v) (size_ v);
          lift (move_construct p (begin +ₚ (size_ v - 1)));;
          try_catch
            (lift (std_move_backward (begin +ₚ shift) end_ (end_ +ₚ 1)))
            (lift (destroy_n end_ 1);; throw);;
          lift (destroy_at (begin +ₚ shift))
        else ret tt);;
       it_element ← RawMemory.add (data_ v) shift;
       lift (construct it_element args);;
       ret it_element);
  (* ++size_ *)
  v ← get_obj this;
  set_obj this (mk (data_ v) (S (size_ v)));;
  ret it_element.

Definition PopBack (this : nat) : M St unit :=
  v ← get_obj this;
  if decide (0 < size_ v) then
    lift (destroy_at (RawMemory.GetAddress (data_ v) +ₚ (size_ v - 1)));;
    set_obj this (mk (data_ v) (size_ v - 1))
  else ret tt.

Definition Erase (this : nat) (pos : ptr) : M St ptr :=
  b ← begin this;
  e ← end_ this;
  assert (ptr_leb b pos && ptr_ltb pos e);;
  let shift := off pos - off b in
  lift (std_move (b +ₚ shift +ₚ 1) e (b +ₚ shift));;
  PopBack this;;
  b ← begin this;
  ret (b +ₚ shift).

(** [Insert(pos, const T&)], [Insert(pos, T&&)] *)
Definition Insert_copy (this : nat) (pos : ptr) (value : reference T) : M St ptr :=
  Emplace this pos (copy_of value).

Definition Insert_move (this : nat) (pos : ptr) (value : reference T) : M St ptr :=
  Emplace this pos (move_of value).

Definition EmplaceBack (this : nat) (args : arguments T) : M St ptr :=
  e ← end_ this;
  Emplace this e args.

(** [PushBack(Type&& value)] forwards [value]: an lvalue is copied, an
    rvalue is moved from. *)
Definition PushBack (this : nat) (value : arguments T) : M St unit :=
  _ ← EmplaceBack this value;
  ret tt.

Definition Resize (this : nat) (count : nat) : M St unit :=
  v ← get_obj this;
  (if decide (size_ v < count) then
     Reserve this count;;
     v' ← get_obj this;
     lift (uninitialized_value_construct_n
             (RawMemory.GetAddress (data_ v') +ₚ size_ v') (count - size_ v'))
   else
     lift (destroy_n (RawMemory.GetAddress (data_ v) +ₚ count) (size_ v - count)));;
  v' ← get_obj this;
  set_obj this (mk (data_ v') count).

End WithElement.
End Vector.

(** ** What a caller observes *)

Section Observers.
Context {T W : Type}.

(** The first [n] slots of a block, when all of them are live. *)
Fixpoint read_n (l : list (option T)) (n : nat) {struct n} : option (list T) :=
  match n with
  | 0 => Some []
  | S n' =>
      match l with
      | Some x :: l' => cons x <$> read_n l' n'
      | _ => None
      end
  end.

Definition block (m : Memory T W) (buf : nat) : list (option T) :=
  default [] (heap m !! buf).

(** The sequence of elements of a vector with fields [v]. *)
Definition contents (m : Memory T W) (v : Vector.t) : option (list T) :=
  read_n (block m (RawMemory.buffer_ (Vector.data_ v))) (Vector.size_ v).

Definition size_of (s : Store T W Vector.t) (this : nat) : option nat :=
  Vector.size_ <$> objs s !! this.
Definition capacity_of (s : Store T W Vector.t) (this : nat) : option nat :=
  (λ v, RawMemory.capacity_ (Vector.data_ v)) <$> objs s !! this.
Definition elements (s : Store T W Vector.t) (this : nat) : option (list T) :=
  objs s !! this ≫= contents (mem s).

(** The state an operation leaves, on return or with the exception. *)
Definition after {S A} (o : outcome S A) : option S :=
  match o with
  | Ret _ s => Some s
  | Throw s => Some s
  | Abort => None
  end.

Definition returns {S A} (o : outcome S A) : bool :=
  match o with Ret _ _ => true | _ => false end.
Definition throws {S A} (o : outcome S A) : bool :=
  match o with Throw _ => true | _ => false end.

(** No object, no block. *)
Definition start {O} (w : W) : Store T W O :=
  mkStore (mkMemory ∅ 1 w) ∅.
End Observers.

(** ** Programs: the calls a caller makes *)

Section Programs.
Context {T W : Type} {E : Element T W}.

(** [v[index] = x], the assignment of [T] being of kind [k]. *)
Definition assign_at (this index : nat) (k : special) (x : T) : M (Store T W Vector.t) unit :=
  p ← Vector.at_ this index;
  lift (assign_value p k x).

(** One call of the public interface of [Vector]. *)
Inductive request :=
  | new_default (this : nat)
  | new_sized (this size : nat)
  | new_copy (this other : nat)
  | new_move (this other : nat)
  | delete_ (this : nat)
  | assign_copy (this rhs : nat)
  | assign_move (this rhs : nat)
  | swap (this other : nat)
  | emplace (this : nat) (pos : ptr) (args : arguments T)
  | insert_copy (this : nat) (pos : ptr) (value : reference T)
  | insert_move (this : nat) (pos : ptr) (value : reference T)
  | erase (this : nat) (pos : ptr)
  | emplace_back (this : nat) (args : arguments T)
  | push_back (this : nat) (value : arguments T)
  | pop_back (this : nat)
  | reserve (this capacity : nat)
  | resize (this count : nat)
  | assign_elem (this index : nat) (k : special) (x : T)
  | read_size (this : nat)
  | read_capacity (this : nat)
  | read_begin (this : nat)
  | read_end (this : nat)
  | read_at (this index : nat).

Definition perform (c : request) : M (Store T W Vector.t) unit :=
  match c with
  | new_default this => Vector.ctor_default this
  | new_sized this size => Vector.ctor_size this size
  | new_copy this other => Vector.ctor_copy this other
  | new_move this other => Vector.ctor_move this other
  | delete_ this => Vector.dtor this
  | assign_copy this rhs => Vector.copy_assign this rhs
  | assign_move this rhs => Vector.move_assign this rhs
  | swap this other => Vector.Swap this other
  | emplace this pos args => _ ← Vector.Emplace this pos args; mret tt
  | insert_copy this pos value => _ ← Vector.Insert_copy this pos value; mret tt
  | insert_move this pos value => _ ← Vector.Insert_move this pos value; mret tt
  | erase this pos => _ ← Vector.Erase this pos; mret tt
  | emplace_back this args => _ ← Vector.EmplaceBack this args; mret tt
  | push_back this value => Vector.PushBack this value
  | pop_back this => Vector.PopBack this
  | reserve this capacity => Vector.Reserve this capacity
  | resize this count => Vector.Resize this count
  | assign_elem this index k x => assign_at this index k x
  | read_size this => _ ← Vector.Size this; mret tt
  | read_capacity this => _ ← Vector.Capacity this; mret tt
  | read_begin this => _ ← Vector.begin this; mret tt
  | read_end this => _ ← Vector.end_ this; mret tt
  | read_at this index => p ← Vector.at_ this index; _ ← lift (load p); mret tt
  end.

(** The calls that add one element. *)
Definition inserts (c : request) : option nat :=
  match c with
  | emplace this _ _ | insert_copy this _ _ | insert_move this _ _
  | emplace_back this _ | push_back this _ => Some this
  | _ => None
  end.

(** The arguments an inserting call forwards to the constructor. *)
Definition forwards (c : request) : option (arguments T) :=
  match c with
  | emplace _ _ args | emplace_back _ args | push_back _ args => Some args
  | insert_copy _ _ value => Some (copy_of value)
  | insert_move _ _ value => Some (move_of value)
  | _ => None
  end.

(** The calls that move from a vector, swap two, or end one. *)
Definition move_swap_or_destruction (c : request) : bool :=
  match c with
  | new_move _ _ | assign_move _ _ | swap _ _ | delete_ _ => true
  | _ => false
  end.

(** The calls that change one vector and take no other object of the heap
    by a mutable reference: the vector they change. *)
Definition mutates (c : request) : option nat :=
  match c with
  | assign_copy this _ | erase this _ | pop_back this | reserve this _
  | resize this _ | assign_elem this _ _ _ => Some this
  | emplace this _ _ | insert_copy this _ _ | insert_move this _ _
  | emplace_back this _ | push_back this _ =>
      match forwards c with
      | Some args => if moves_element args then None else Some this
      | None => None
      end
  | _ => None
  end.

(** A state a program can be in: calls one after the other, each returning
    or throwing. *)
Inductive reachable : Store T W Vector.t → Prop :=
  | reachable_start w : reachable (start w)
  | reachable_step s c s' :
      reachable s → after (perform c s) = Some s' → reachable s'.

(** The states a sequence of calls leads through. *)
Inductive performs : list request → relation (Store T W Vector.t) :=
  | performs_nil s : performs [] s s
  | performs_cons c cs s s1 s2 :
      after (perform c s) = Some s1 → performs cs s1 s2 → performs (c :: cs) s s2.

(** Running a list of calls, as long as no contract is violated. *)
Fixpoint run (cs : list request) (s : Store T W Vector.t) : option (Store T W Vector.t) :=
  match cs with
  | [] => Some s
  | c :: cs => after (perform c s) ≫= run cs
  end.
End Programs.

Arguments request T : clear implicits.

(** ** Element types *)

(** An [operator new] that serves every request of at most [PTRDIFF_MAX]
    bytes, and no larger one. *)
Definition plenty {W} (size : N) (w : W) : bool := (size <=? 2 ^ 63 - 1)%N.

(** [int]: a move is a copy, nothing throws. *)
#[global] Instance int_element : Element Z unit := {|
  sizeof := 4;
  is_nothrow_move_constructible := true;
  is_copy_constructible := true;
  moved_from := λ x, x;
  value_init := 0%Z;
  attempt := λ _ _ w, (true, w);
  allocates := plenty
|}.

(** [std::unique_ptr<int>], a pointer standing for what it points to: no copy
    constructor, and a move leaves the source null ([None]). *)
#[global] Instance unique_ptr_element : Element (option Z) unit := {|
  sizeof := 8;
  is_nothrow_move_constructible := true;
  is_copy_constructible := false;
  moved_from := λ _, None;
  value_init := None;
  attempt := λ _ _ w, (true, w);
  allocates := plenty
|}.

(** A type whose move assignment throws once [W] assignments have been
    made. *)
#[global] Instance throwing_assign_element : Element nat nat := {|
  sizeof := 4;
  is_nothrow_move_constructible := true;
  is_copy_constructible := true;
  moved_from := λ x, x;
  value_init := 0;
  attempt := λ k _ w,
    match k with
    | MoveAssign => match w with 0 => (false, 0) | S w' => (true, w') end
    | _ => (true, w)
    end;
  allocates := plenty
|}.

(** A type whose copy constructor throws once [W] copies have been made; its
    move constructor is not [noexcept]. *)
#[global] Instance throwing_copy_element : Element nat nat := {|
  sizeof := 4;
  is_nothrow_move_constructible := false;
  is_copy_constructible := true;
  moved_from := λ x, x;
  value_init := 0;
  attempt := λ k _ w,
    match k with
    | CopyCtor => match w with 0 => (false, 0) | S w' => (true, w') end
    | _ => (true, w)
    end;
  allocates := plenty
|}.


(** A type whose value-initialisation throws once [W] objects have been
    made. *)
#[global] Instance throwing_value_element : Element nat nat := {|
  sizeof := 4;
  is_nothrow_move_constructible := true;
  is_copy_constructible := true;
  moved_from := λ x, x;
  value_init := 0;
  attempt := λ k _ w,
    match k with
    | ValueCtor => match w with 0 => (false, 0) | S w' => (true, w') end
    | _ => (true, w)
    end;
  allocates := plenty
|}.

(** ** The vectors of the examples *)

(** A run on a [Vector<int>]: three appends, an insertion, a removal. *)
Definition int_run : list (request Z) :=
  [new_default 1; push_back 1 (values CopyCtor 1%Z); push_back 1 (values CopyCtor 2%Z);
   push_back 1 (values CopyCtor 3%Z); insert_copy 1 (Ptr 3 1) (outside 9%Z); erase 1 (Ptr 3 0)].

(** The state a list of calls leads to from the start. *)
Definition state_after {T W} {E : Element T W} (w : W) (cs : list (request T)) :
    Store T W Vector.t :=
  default (start w) (run cs (start w)).

(** A [Vector<int>] without elements, as the default constructor leaves it. *)
Definition int_empty : Store Z unit Vector.t :=
  state_after tt [new_default 1].

(** A [Vector<int>] holding [1; 2] at capacity 2. *)
Definition int_full : Store Z unit Vector.t :=
  state_after tt [new_default 1; push_back 1 (values CopyCtor 1%Z); push_back 1 (values CopyCtor 2%Z)].

(** Two vectors: [1; 2] at address 1, an empty one at address 2. *)
Definition int_pair : Store Z unit Vector.t :=
  state_after tt [new_default 1; push_back 1 (values CopyCtor 1%Z); push_back 1 (values CopyCtor 2%Z);
                  new_default 2].

(** A [Vector<int>] holding [1; 9; 2; 3] at capacity 4, in block 3. *)
Definition int_four : Store Z unit Vector.t :=
  state_after tt [new_default 1; push_back 1 (values CopyCtor 1%Z); push_back 1 (values CopyCtor 2%Z);
                  push_back 1 (values CopyCtor 3%Z); insert_copy 1 (Ptr 3 1) (outside 9%Z)].

(** Scenario 6 of the specification: two elements whose copy constructor
    throws at the third copy. *)
Definition throwing_pair : Store nat nat Vector.t :=
  state_after (E:=throwing_copy_element) 2
    [new_default 1; push_back 1 (values ArgsCtor 1); push_back 1 (values ArgsCtor 2)].

(** The same two elements, with three more copies to succeed. *)
Definition copying_pair : Store nat nat Vector.t :=
  state_after (E:=throwing_copy_element) 4
    [new_default 1; push_back 1 (values ArgsCtor 1); push_back 1 (values ArgsCtor 2)].

(** Three elements, at capacity 4 in block 3, of the type whose move
    assignment throws: [w] more assignments succeed. *)
Definition assigning_three (w : nat) : Store nat nat Vector.t :=
  state_after (E:=throwing_assign_element) w
    [new_default 1; push_back 1 (values ArgsCtor 1); push_back 1 (values ArgsCtor 2);
     push_back 1 (values ArgsCtor 3)].

(** A [Vector<std::unique_ptr<int>>] holding one pointer at capacity 2, and
    one holding three at capacity 4. *)
Definition ptr_one : Store (option Z) unit Vector.t :=
  state_after tt [new_default 1; reserve 1 2; push_back 1 (values MoveCtor (Some 1%Z))].

Definition ptr_three : Store (option Z) unit Vector.t :=
  state_after tt [new_default 1; push_back 1 (values MoveCtor (Some 1%Z));
                  push_back 1 (values MoveCtor (Some 2%Z)); push_back 1 (values MoveCtor (Some 3%Z))].

(** A [Vector<int>] holding [1; 2] at capacity 4, in block 1. *)
Definition int_roomy : Store Z unit Vector.t :=
  state_after tt [new_default 1; reserve 1 4; push_back 1 (values CopyCtor 1%Z);
                  push_back 1 (values CopyCtor 2%Z)].

(** Two vectors of the type whose copy constructor throws, [1; 2] at address
    1 and an empty one at address 2; one more copy succeeds. *)
Definition throwing_two : Store nat nat Vector.t :=
  state_after (E:=throwing_copy_element) 2
    [new_default 1; push_back 1 (values ArgsCtor 1); push_back 1 (values ArgsCtor 2); new_default 2].

(** Two [RawMemory<int>] objects, of capacities 2 and 3. *)
Definition raw_pair : Store Z unit RawMemory.t :=
  default (start tt) (after ((RawMemory.ctor 1 2;; RawMemory.ctor 2 3) (start tt))).

(** * The vocabulary of the specification *)

(** [post o Q E]: if the operation returns, [Q] holds of the result and the
    state; if it throws, [E] holds of the state. *)
Definition post {S A} (o : outcome S A) (Q : A → S → Prop) (E : S → Prop) : Prop :=
  match o with
  | Ret a s => Q a s
  | Throw s => E s
  | Abort => True
  end.

(** [total o Q E]: as [post], and no contract is violated. *)
Definition total {S A} (o : outcome S A) (Q : A → S → Prop) (E : S → Prop) : Prop :=
  match o with
  | Ret a s => Q a s
  | Throw s => E s
  | Abort => False
  end.

Section Vocabulary.
Context {T W : Type}.

(** A relation between the states before and after, kept by every outcome. *)
Definition preserves {S A} (R : relation S) (m : M S A) : Prop :=
  ∀ s, post (m s) (λ _ s', R s s') (R s).

(** Code that does not throw. *)
Definition nothrow {S A} (m : M S A) : Prop :=
  ∀ s, post (m s) (λ _ _, True) (λ _, False).

(** When the code throws, the state it leaves is related to the state
    before. *)
Definition on_throw {S A} (R : relation S) (m : M S A) : Prop :=
  ∀ s, post (m s) (λ _ _, True) (R s).

(** [frame b0 own m m']: no block is given back its address, and the blocks
    below [b0] other than [own] are in [m'] what they were in [m]. *)
Definition frame (b0 own : nat) (m m' : Memory T W) : Prop :=
  brk m ≤ brk m' ∧
  (b0 ≤ brk m → ∀ a, a < b0 → a ≠ own → heap m' !! a = heap m !! a).

(** An address the code may write through. *)
Definition writable (b0 own : nat) (p : ptr) : Prop :=
  blk p = own ∨ b0 ≤ blk p.

(** The objects keep their fields, the memory is framed. *)
Definition frameS {O} (b0 own : nat) (s s' : Store T W O) : Prop :=
  objs s' = objs s ∧ frame b0 own (mem s) (mem s').

Definition buffer (v : Vector.t) : nat := RawMemory.buffer_ (Vector.data_ v).
Definition capacity (v : Vector.t) : nat := RawMemory.capacity_ (Vector.data_ v).

(** What an operation on the vector at [this], of fields [v], may do:
    write its block and blocks it allocates, leave the other vectors their
    fields, and give [this] fields that keep [size_ <= capacity_], no
    smaller capacity, and the same block or a new one. *)
Definition effect (this : nat) (v : Vector.t) (s s' : Store T W Vector.t) : Prop :=
  frame (brk (mem s)) (buffer v) (mem s) (mem s') ∧
  (∀ id, id ≠ this → objs s' !! id = objs s !! id) ∧
  ∃ v', objs s' !! this = Some v' ∧
        (Vector.size_ v ≤ capacity v → Vector.size_ v' ≤ capacity v') ∧
        capacity v ≤ capacity v' ∧
        (buffer v' = buffer v ∨ brk (mem s) ≤ buffer v' < brk (mem s')).

(** What an operation on the vector at [this], of fields [v], does to the
    fields of the vectors. *)
Definition field_effect (this : nat) (v : Vector.t) (s s' : Store T W Vector.t) : Prop :=
  (∀ id, id ≠ this → objs s' !! id = objs s !! id) ∧
  ∃ v', objs s' !! this = Some v' ∧
        (Vector.size_ v ≤ capacity v → Vector.size_ v' ≤ capacity v') ∧
        capacity v ≤ capacity v'.

(** The objects have the fields they had. *)
Definition same_objs {O} (s s' : Store T W O) : Prop := objs s' = objs s.

(** [size_ <= capacity_] in every vector. *)
Definition sizes_ok (s : Store T W Vector.t) : Prop :=
  ∀ id v, objs s !! id = Some v → Vector.size_ v ≤ capacity v.

(** Every vector of [s] is in [s'] with no smaller capacity. *)
Definition capacity_kept (s s' : Store T W Vector.t) : Prop :=
  ∀ id v, objs s !! id = Some v →
    ∃ v', objs s' !! id = Some v' ∧ capacity v ≤ capacity v'.

(** What every call keeps. *)
Definition kept (c : request T) (s s' : Store T W Vector.t) : Prop :=
  (sizes_ok s → sizes_ok s') ∧
  (move_swap_or_destruction c = false → capacity_kept s s').

(** The block of a vector that holds [l] at capacity [n]: the live elements,
    then raw slots. *)
Definition slots_of (l : list T) (n : nat) : list (option T) :=
  (Some <$> l) ++ replicate (n - length l) None.

(** [owns m v l]: in the memory [m], [v] are the fields of a vector that
    holds the elements [l]. *)
Definition owns (m : Memory T W) (v : Vector.t) (l : list T) : Prop :=
  length l = Vector.size_ v ∧
  Vector.size_ v ≤ capacity v ∧
  buffer v < brk m ∧
  if decide (capacity v = 0) then buffer v = 0
  else buffer v ≠ 0 ∧ heap m !! buffer v = Some (slots_of l (capacity v)).

(** A call into [T] that does not throw: a [noexcept] move constructor, or
    one that completes whatever the value and the state of [W]. *)
Definition cannot_throw {E : Element T W} (k : special) : Prop :=
  may_throw k = false ∨ ∀ x w, (attempt k x w).1 = true.

(** [n * sizeof(T)] is a [size_t]: the product in [Allocate] does not
    wrap. *)
Definition fits {E : Element T W} (n : nat) : Prop :=
  (N.of_nat n * N.pos sizeof ≤ SIZE_MAX)%N.

(** The number of objects of type [T] the block has room for that
    [Allocate(n)] asks [operator new] for. *)
Definition room {E : Element T W} (n : nat) : nat :=
  N.to_nat (size_t_mul (N.of_nat n) (N.pos sizeof) / N.pos sizeof).

(** [Allocate(n)] gets what it asks for, whatever the state of [W]: it asks
    for nothing, or [operator new] serves the request for [n] objects. *)
Definition served {E : Element T W} (n : nat) : Prop :=
  n = 0 ∨ ∀ w, allocates (N.of_nat n * N.pos sizeof) w = true.

(** [Allocate(n)] returns a block of [n] slots. *)
Definition can_allocate {E : Element T W} (n : nat) : Prop :=
  fits n ∧ served n.

(** The blocks of [m] are blocks of [m']: none has been given back. *)
Definition alive (m m' : Memory T W) : Prop :=
  ∀ a, is_Some (heap m !! a) → is_Some (heap m' !! a).

(** Call [k] does not throw; or it may, and [X] holds of every memory that
    keeps the blocks of [m]: of whatever the code leaves behind when the
    exception propagates. *)
Definition excuses {E : Element T W} (X : Memory T W → Prop) (k : special)
    (m : Memory T W) : Prop :=
  cannot_throw k ∨ ∀ m', alive m m' → X m'.

(** The constructor that carries an element into a new block. *)
Definition relocation {E : Element T W} : special :=
  if Vector.relocate_by_move then MoveCtor else CopyCtor.

(** What a run of move assignments toward the front leaves in the last
    slot it read. *)
Fixpoint left_behind {E : Element T W} (a : T) (xs : list T) : T :=
  match xs with
  | [] => a
  | x :: xs => left_behind (moved_from x) xs
  end.

(** What a run of move assignments toward the back leaves in the first
    slot it read; [z] is what was there when nothing moves. *)
Definition vacated {E : Element T W} (xs : list T) (z : T) : T :=
  match xs with
  | [] => z
  | x :: _ => moved_from x
  end.

(** The elements of a vector whose last element has been moved from. *)
Definition last_moved_from {E : Element T W} (l : list T) : list T :=
  alter moved_from (length l - 1) l.

(** The vector at [id] is to a caller what it was. *)
Definition unchanged (id : nat) (s s' : Store T W Vector.t) : Prop :=
  size_of s' id = size_of s id ∧
  capacity_of s' id = capacity_of s id ∧
  elements s' id = elements s id.

(** The vector at [a] shares no storage in use with the vector at [b]. *)
Definition apart (a b : nat) (s : Store T W Vector.t) : Prop :=
  a ≠ b ∧
  ∃ va, objs s !! a = Some va ∧ buffer va < brk (mem s) ∧
        ∀ vb, objs s !! b = Some vb →
              buffer vb < brk (mem s) ∧
              (buffer va ≠ buffer vb ∨ Vector.size_ va = 0).

(** The calls that move the elements of the vector at [this], of fields [v],
    to a new block: [Reserve], and an insertion or an append when the size
    equals the capacity (one that is not asked to move from an element). *)
Definition reallocates (c : request T) (this : nat) (v : Vector.t) : Prop :=
  (∃ n, c = reserve this n) ∨
  (inserts c = Some this ∧ mutates c = Some this ∧ Vector.size_ v = capacity v).

(** A memory with the given blocks and next address. *)
Definition has_heap (h : gmap nat (list (option T))) (b : nat) (m : Memory T W) : Prop :=
  heap m = h ∧ brk m = b.

(** [Emplace] inserts as [insert] is meant to: into a full vector, when the
    larger block can be had and the elements go to it without an exception;
    or into a vector with a free slot whose last element a move leaves as it
    is, when the moves do not throw.  (The other case is that of
    [last_moved_from].) *)
Definition inserts_well {E : Element T W} (v : Vector.t) (l : list T) : Prop :=
  (Vector.size_ v = capacity v ∧ can_allocate (1 `max` (2 * length l)) ∧
   cannot_throw relocation) ∨
  (Vector.size_ v < capacity v ∧ last_moved_from l = l ∧
   cannot_throw MoveCtor ∧ cannot_throw MoveAssign).

(** No address that had no block has one: nothing was allocated that was not
    given back. *)
Definition no_new_blocks (m m' : Memory T W) : Prop :=
  ∀ a, heap m !! a = None → heap m' !! a = None.

Definition no_new_blocksS {O} (s s' : Store T W O) : Prop :=
  no_new_blocks (mem s) (mem s').

(** Every block has an address below the next one [operator new] hands
    out. *)
Definition fresh (m : Memory T W) : Prop :=
  ∀ a, brk m ≤ a → heap m !! a = None.

(** While a local [RawMemory] lives, its block is the one new block. *)
Definition given_back {O} (data : RawMemory.t) (s0 s1 : Store T W O) : Prop :=
  (∀ a, a ≠ RawMemory.buffer_ data → heap (mem s0) !! a = None → heap (mem s1) !! a = None) ∧
  (RawMemory.buffer_ data = 0 → no_new_blocksS s0 s1).

(** The invariant of [RawMemory]: [capacity_ == 0] exactly when [buffer_] is
    null. *)
Definition raw_ok (r : RawMemory.t) : Prop :=
  RawMemory.capacity_ r = 0 ↔ RawMemory.buffer_ r = 0.
End Vocabulary.

(** * Rules *)


Section PostRules.
Context {S : Type}.
Implicit Types s : S.

Lemma total_post {A} (o : outcome S A) Q E : total o Q E → post o Q E.
Proof. by destruct o. Qed.

Lemma post_mono {A} (o : outcome S A) (Q Q' : A → S → Prop) (E E' : S → Prop) :
  post o Q E → (∀ a s, Q a s → Q' a s) → (∀ s, E s → E' s) → post o Q' E'.
Proof. destruct o; simpl; auto. Qed.

Lemma total_mono {A} (o : outcome S A) (Q Q' : A → S → Prop) (E E' : S → Prop) :
  total o Q E → (∀ a s, Q a s → Q' a s) → (∀ s, E s → E' s) → total o Q' E'.
Proof. destruct o; simpl; auto. Qed.

Lemma post_and {A} (o : outcome S A) (Q Q' : A → S → Prop) (E E' : S → Prop) :
  post o Q E → post o Q' E' →
  post o (λ a s, Q a s ∧ Q' a s) (λ s, E s ∧ E' s).
Proof. destruct o; simpl; auto. Qed.

Lemma post_bind {A B} (m : M S A) (f : A → M S B) s Q E :
  post (m s) (λ a s1, post (f a s1) Q E) E → post ((m ≫= f) s) Q E.
Proof. unfold mbind, M_bind, bind. by destruct (m s). Qed.

Lemma total_bind {A B} (m : M S A) (f : A → M S B) s Q E :
  total (m s) (λ a s1, total (f a s1) Q E) E → total ((m ≫= f) s) Q E.
Proof. unfold mbind, M_bind, bind. by destruct (m s). Qed.

Lemma post_try_catch {A} (m h : M S A) s Q E :
  post (m s) Q (λ s1, post (h s1) Q E) → post (try_catch m h s) Q E.
Proof. unfold try_catch. by destruct (m s). Qed.

Lemma total_try_catch {A} (m h : M S A) s Q E :
  total (m s) Q (λ s1, total (h s1) Q E) → total (try_catch m h s) Q E.
Proof. unfold try_catch. by destruct (m s). Qed.

Lemma post_unwinding {A} (d : M S unit) (m : M S A) s Q E :
  post (m s) Q (λ s1, post (d s1) (λ _ s2, E s2) E) → post (unwinding d m s) Q E.
Proof.
  intros H. apply post_try_catch. eapply post_mono; [exact H|done|].
  intros s1 H1. by apply post_bind.
Qed.

Lemma total_unwinding {A} (d : M S unit) (m : M S A) s Q E :
  total (m s) Q (λ s1, total (d s1) (λ _ s2, E s2) E) → total (unwinding d m s) Q E.
Proof.
  intros H. apply total_try_catch. eapply total_mono; [exact H|done|].
  intros s1 H1. by apply total_bind.
Qed.

Lemma post_assert (b : bool) s (Q : unit → S → Prop) E :
  (b = true → Q tt s) → post (assert b s) Q E.
Proof. destruct b; simpl; auto. Qed.

Lemma total_assert (b : bool) s (Q : unit → S → Prop) E :
  b = true → Q tt s → total (assert b s) Q E.
Proof. intros ->. done. Qed.


Section Preserves.
Context (R : relation S) `{!PreOrder R}.

Lemma preserves_ret {A} (a : A) : preserves R (mret a).
Proof. intros s. simpl. reflexivity. Qed.

Lemma preserves_throw {A} : preserves R (@throw S A).
Proof. intros s. simpl. reflexivity. Qed.

Lemma preserves_abort {A} : preserves R (@abort S A).
Proof. intros s. done. Qed.

Lemma preserves_assert b : preserves R (assert b).
Proof. intros s. destruct b; simpl; [reflexivity|done]. Qed.

Lemma preserves_bind {A B} (m : M S A) (f : A → M S B) :
  preserves R m → (∀ a, preserves R (f a)) → preserves R (m ≫= f).
Proof.
  intros Hm Hf s. apply post_bind.
  eapply post_mono; [apply Hm| |done].
  intros a s1 H1. simpl.
  eapply post_mono; [apply Hf| |]; simpl; intros; by transitivity s1.
Qed.

Lemma preserves_try_catch {A} (m h : M S A) :
  preserves R m → preserves R h → preserves R (try_catch m h).
Proof.
  intros Hm Hh s. apply post_try_catch.
  eapply post_mono; [apply Hm|done|].
  intros s1 H1. simpl.
  eapply post_mono; [apply Hh| |]; simpl; intros; by transitivity s1.
Qed.
End Preserves.

Lemma nothrow_ret {A} (a : A) : nothrow (mret a : M S A).
Proof. done. Qed.

Lemma nothrow_abort {A} : nothrow (@abort S A).
Proof. done. Qed.

Lemma nothrow_assert b : nothrow (assert b : M S unit).
Proof. intros s. by destruct b. Qed.

Lemma nothrow_bind {A B} (m : M S A) (f : A → M S B) :
  nothrow m → (∀ a, nothrow (f a)) → nothrow (m ≫= f).
Proof.
  intros Hm Hf s. apply post_bind.
  eapply post_mono; [apply Hm| |done]. intros a s1 _. apply Hf.
Qed.
End PostRules.

(** * Which blocks the code writes *)

Section Frame.
Context {T W : Type} {E : Element T W}.
Implicit Types m : Memory T W.
Implicit Types p first d_first dst src : ptr.


#[global] Instance frame_preorder b0 own : PreOrder (frame (T:=T) (W:=W) b0 own).
Proof.
  split.
  - intros m. split; [lia|done].
  - intros m1 m2 m3 [H1 H1'] [H2 H2']. split; [lia|].
    intros Hb a Ha Hown. rewrite H2' by (done || lia). by apply H1'.
Qed.

Lemma frame_brk b0 own m m' : frame b0 own m m' → brk m ≤ brk m'.
Proof. by intros [? _]. Qed.


Lemma writable_add b0 own p n : writable b0 own p → writable b0 own (p +ₚ n).
Proof. done. Qed.

Section Rules.
Context (b0 own : nat).
Local Abbreviation keeps := (preserves (frame (T:=T) (W:=W) b0 own)).

Lemma frame_peek p : keeps (peek p).
Proof. intros m. unfold peek. destruct (slot m p); simpl; [reflexivity|done]. Qed.

Lemma frame_load p : keeps (load p).
Proof.
  apply preserves_bind; [apply _|apply frame_peek|].
  intros [x|]; [apply preserves_ret|apply preserves_abort]; apply _.
Qed.

Lemma frame_poke p c : writable b0 own p → keeps (poke p c).
Proof.
  intros Hw m. unfold poke. destruct (heap m !! blk p) as [l|] eqn:Hl; [|done].
  case_decide; [|done]. simpl. split; [done|].
  intros Hb a Ha Hown. apply lookup_insert_ne. destruct Hw; lia.
Qed.

Lemma frame_call k x : keeps (call k x).
Proof.
  intros m. unfold call. destruct (may_throw k); [|simpl; reflexivity].
  destruct (attempt k x (world m)) as [[] w]; simpl; by split.
Qed.

Lemma frame_operator_new n : keeps (operator_new n).
Proof.
  intros m. unfold operator_new. destruct (allocates n (world m)); simpl; [|reflexivity].
  split; simpl; [lia|]. intros Hb a Ha Hown.
  apply lookup_insert_ne. lia.
Qed.

Lemma frame_operator_delete buf :
  buf = 0 ∨ buf = own ∨ b0 ≤ buf → keeps (operator_delete buf).
Proof.
  intros Hw m. unfold operator_delete. case_decide; [simpl; reflexivity|].
  destruct (heap m !! buf); [|done]. simpl. split; [done|].
  intros Hb a Ha Hown. apply lookup_delete_ne. lia.
Qed.

Lemma frame_construct_at p k x : writable b0 own p → keeps (construct_at p k x).
Proof.
  intros Hw. apply preserves_bind; [apply _|apply frame_peek|intros _].
  apply preserves_bind; [apply _|apply frame_call|intros _].
  by apply frame_poke.
Qed.

Lemma frame_copy_construct dst src :
  writable b0 own dst → keeps (copy_construct dst src).
Proof.
  intros Hw. apply preserves_bind; [apply _|apply frame_load|intros x].
  by apply frame_construct_at.
Qed.

Lemma frame_move_construct dst src :
  writable b0 own dst → writable b0 own src → keeps (move_construct dst src).
Proof.
  intros Hd Hs. apply preserves_bind; [apply _|apply frame_load|intros x].
  apply preserves_bind; [apply _|by apply frame_construct_at|intros _].
  by apply frame_poke.
Qed.

Lemma frame_construct p args :
  writable b0 own p → moves_element args = false → keeps (construct p args).
Proof.
  intros Hw Hm. destruct args as [k x|src|src]; simpl in *; [|  |done].
  - by apply frame_construct_at.
  - by apply frame_copy_construct.
Qed.

Lemma frame_assign_value dst k x : writable b0 own dst → keeps (assign_value dst k x).
Proof.
  intros Hw. apply preserves_bind; [apply _|apply frame_load|intros _].
  apply preserves_bind; [apply _|apply frame_call|intros _].
  by apply frame_poke.
Qed.

Lemma frame_copy_assign dst src : writable b0 own dst → keeps (copy_assign dst src).
Proof.
  intros Hw. apply preserves_bind; [apply _|apply frame_load|intros x].
  by apply frame_assign_value.
Qed.

Lemma frame_move_assign dst src :
  writable b0 own dst → writable b0 own src → keeps (move_assign dst src).
Proof.
  intros Hd Hs. apply preserves_bind; [apply _|apply frame_load|intros x].
  apply preserves_bind; [apply _|by apply frame_assign_value|intros _].
  by apply frame_poke.
Qed.

Lemma frame_destroy_at p : writable b0 own p → keeps (destroy_at p).
Proof.
  intros Hw. apply preserves_bind; [apply _|apply frame_load|intros _].
  by apply frame_poke.
Qed.

Lemma frame_destroy_n p n : writable b0 own p → keeps (destroy_n p n).
Proof.
  revert p. induction n as [|n IH]; intros p Hw; simpl.
  - apply preserves_ret, _.
  - apply preserves_bind; [apply _|by apply frame_destroy_at|intros _].
    by apply IH.
Qed.

(** The handler of the [uninitialized_*] algorithms. *)
Lemma frame_rollback {A} p k : writable b0 own p → keeps (destroy_n p k;; @throw _ A).
Proof.
  intros Hw. apply preserves_bind; [apply _|by apply frame_destroy_n|intros _].
  apply preserves_throw, _.
Qed.

Lemma frame_uninitialized_copy_from k n first d_first :
  writable b0 own d_first → keeps (uninitialized_copy_from k n first d_first).
Proof.
  intros Hw. revert k. induction n as [|n IH]; intros k; simpl.
  - apply preserves_ret, _.
  - apply preserves_bind; [apply _| |intros _; apply IH].
    apply preserves_try_catch; [apply _| |by apply frame_rollback].
    by apply frame_copy_construct.
Qed.

Lemma frame_uninitialized_copy_n first n d_first :
  writable b0 own d_first → keeps (uninitialized_copy_n first n d_first).
Proof. apply frame_uninitialized_copy_from. Qed.

Lemma frame_uninitialized_move_from k n first d_first :
  writable b0 own d_first → writable b0 own first →
  keeps (uninitialized_move_from k n first d_first).
Proof.
  intros Hd Hs. revert k. induction n as [|n IH]; intros k; simpl.
  - apply preserves_ret, _.
  - apply preserves_bind; [apply _| |intros _; apply IH].
    apply preserves_try_catch; [apply _| |by apply frame_rollback].
    by apply frame_move_construct.
Qed.

Lemma frame_uninitialized_move_n first n d_first :
  writable b0 own d_first → writable b0 own first →
  keeps (uninitialized_move_n first n d_first).
Proof. apply frame_uninitialized_move_from. Qed.

Lemma frame_uninitialized_value_construct_from k n first :
  writable b0 own first → keeps (uninitialized_value_construct_from k n first).
Proof.
  intros Hw. revert k. induction n as [|n IH]; intros k; simpl.
  - apply preserves_ret, _.
  - apply preserves_bind; [apply _| |intros _; apply IH].
    apply preserves_try_catch; [apply _| |by apply frame_rollback].
    by apply frame_construct_at.
Qed.

Lemma frame_uninitialized_value_construct_n first n :
  writable b0 own first → keeps (uninitialized_value_construct_n first n).
Proof. apply frame_uninitialized_value_construct_from. Qed.

Lemma frame_distance first last : keeps (distance first last).
Proof.
  apply preserves_bind; [apply _|apply preserves_assert, _|intros _].
  apply preserves_ret, _.
Qed.

Lemma frame_copy_from k n first d_first :
  writable b0 own d_first → keeps (copy_from k n first d_first).
Proof.
  intros Hw. revert k. induction n as [|n IH]; intros k; simpl.
  - apply preserves_ret, _.
  - apply preserves_bind; [apply _|by apply frame_copy_assign|intros _; apply IH].
Qed.

Lemma frame_std_copy first last d_first :
  writable b0 own d_first → keeps (std_copy first last d_first).
Proof.
  intros Hw. apply preserves_bind; [apply _|apply frame_distance|intros n].
  by apply frame_copy_from.
Qed.

Lemma frame_move_from k n first d_first :
  writable b0 own d_first → writable b0 own first →
  keeps (move_from k n first d_first).
Proof.
  intros Hd Hs. revert k. induction n as [|n IH]; intros k; simpl.
  - apply preserves_ret, _.
  - apply preserves_bind; [apply _|by apply frame_move_assign|intros _; apply IH].
Qed.

Lemma frame_std_move first last d_first :
  writable b0 own d_first → writable b0 own first →
  keeps (std_move first last d_first).
Proof.
  intros Hd Hs. apply preserves_bind; [apply _|apply frame_distance|intros n].
  by apply frame_move_from.
Qed.

Lemma frame_move_backward_n n first d_first :
  writable b0 own d_first → writable b0 own first →
  keeps (move_backward_n n first d_first).
Proof.
  intros Hd Hs. induction n as [|n IH]; simpl.
  - apply preserves_ret, _.
  - apply preserves_bind; [apply _|by apply frame_move_assign|intros _; apply IH].
Qed.

Lemma frame_std_move_backward first last d_last :
  writable b0 own d_last → writable b0 own first →
  keeps (std_move_backward first last d_last).
Proof.
  intros Hd Hs. apply preserves_bind; [apply _|apply frame_distance|intros n].
  apply preserves_bind; [apply _|apply preserves_assert, _|intros _].
  by apply frame_move_backward_n.
Qed.
End Rules.
End Frame.

(** * Rules for objects *)

Section StoreRules.
Context {T W O : Type}.
Implicit Types s : Store T W O.

Lemma post_lift {A} (mm : M (Memory T W) A) s (Q : A → Store T W O → Prop) E :
  post (mm (mem s)) (λ a m', Q a (mkStore m' (objs s)))
                    (λ m', E (mkStore m' (objs s))) →
  post (lift mm s) Q E.
Proof. unfold lift. by destruct (mm (mem s)). Qed.

Lemma total_lift {A} (mm : M (Memory T W) A) s (Q : A → Store T W O → Prop) E :
  total (mm (mem s)) (λ a m', Q a (mkStore m' (objs s)))
                     (λ m', E (mkStore m' (objs s))) →
  total (lift mm s) Q E.
Proof. unfold lift. by destruct (mm (mem s)). Qed.

Lemma post_lift_keeps {A} (R : relation (Memory T W)) (mm : M (Memory T W) A) s
    (Q : A → Store T W O → Prop) E :
  preserves R mm →
  (∀ a m', R (mem s) m' → Q a (mkStore m' (objs s))) →
  (∀ m', R (mem s) m' → E (mkStore m' (objs s))) →
  post (lift mm s) Q E.
Proof.
  intros Hmm HQ HE. apply post_lift.
  eapply post_mono; [apply Hmm|..]; simpl; auto.
Qed.

Lemma nothrow_lift {A} (mm : M (Memory T W) A) :
  nothrow mm → nothrow (lift mm : M (Store T W O) A).
Proof.
  intros Hmm s. apply post_lift. eapply post_mono; [apply Hmm|..]; done.
Qed.

Lemma store_eta (st : Store T W O) : mkStore (mem st) (objs st) = st.
Proof. by destruct st. Qed.

Lemma get_obj_eq this s o : objs s !! this = Some o → get_obj this s = Ret o s.
Proof. unfold get_obj. by intros ->. Qed.

Lemma set_obj_eq this s o o' :
  objs s !! this = Some o →
  set_obj this o' s = Ret tt (mkStore (mem s) (<[this := o']> (objs s))).
Proof. unfold set_obj. by intros ->. Qed.

Lemma new_obj_eq this s o :
  objs s !! this = None →
  new_obj this o s = Ret tt (mkStore (mem s) (<[this := o]> (objs s))).
Proof. unfold new_obj. by intros ->. Qed.

Lemma del_obj_eq this s o :
  objs s !! this = Some o →
  del_obj this s = Ret tt (mkStore (mem s) (delete this (objs s))).
Proof. unfold del_obj. by intros ->. Qed.

Lemma post_get_obj this s (Q : O → Store T W O → Prop) E :
  (∀ o, objs s !! this = Some o → Q o s) → post (get_obj this s) Q E.
Proof. unfold get_obj. destruct (objs s !! this); simpl; auto. Qed.

Lemma post_set_obj this o' s (Q : unit → Store T W O → Prop) E :
  (is_Some (objs s !! this) → Q tt (mkStore (mem s) (<[this := o']> (objs s)))) →
  post (set_obj this o' s) Q E.
Proof. unfold set_obj. destruct (objs s !! this); simpl; auto. Qed.

Lemma post_new_obj this o' s (Q : unit → Store T W O → Prop) E :
  (objs s !! this = None → Q tt (mkStore (mem s) (<[this := o']> (objs s)))) →
  post (new_obj this o' s) Q E.
Proof. unfold new_obj. destruct (objs s !! this); simpl; auto. Qed.

Lemma post_del_obj this s (Q : unit → Store T W O → Prop) E :
  (is_Some (objs s !! this) → Q tt (mkStore (mem s) (delete this (objs s)))) →
  post (del_obj this s) Q E.
Proof. unfold del_obj. destruct (objs s !! this); simpl; auto. Qed.

Lemma nothrow_get_obj this : nothrow (get_obj this : M (Store T W O) O).
Proof. intros s. by apply post_get_obj. Qed.
Lemma nothrow_set_obj this o : nothrow (set_obj this o : M (Store T W O) unit).
Proof. intros s. by apply post_set_obj. Qed.
Lemma nothrow_new_obj this o : nothrow (new_obj this o : M (Store T W O) unit).
Proof. intros s. by apply post_new_obj. Qed.
Lemma nothrow_del_obj this : nothrow (del_obj this : M (Store T W O) unit).
Proof. intros s. by apply post_del_obj. Qed.
End StoreRules.

Section RawMemoryRules.
Context {T W : Type} {E : Element T W}.
Implicit Types m : Memory T W.

Lemma init_zero m : RawMemory.init 0 m = Ret RawMemory.empty m.
Proof. done. Qed.

(** A product that fits is the product, and a block of that many bytes has
    room for [n] objects. *)
Lemma fits_bytes n :
  fits n → size_t_mul (N.of_nat n) (N.pos sizeof) = (N.of_nat n * N.pos sizeof)%N.
Proof.
  unfold fits, size_t_mul, SIZE_MAX. intros Hn. apply N.mod_small. lia.
Qed.

Lemma fits_slots n :
  fits n → N.to_nat (size_t_mul (N.of_nat n) (N.pos sizeof) / N.pos sizeof) = n.
Proof.
  intros Hn. rewrite fits_bytes by done. rewrite N.div_mul by done. lia.
Qed.

Lemma fits_le n n' : n ≤ n' → fits n' → fits n.
Proof. unfold fits. nia. Qed.

(** [Allocate(n)], case by case: [operator new] serves the request or throws
    [std::bad_alloc]. *)
Lemma init_pos n m :
  n ≠ 0 → fits n → allocates (N.of_nat n * N.pos sizeof) (world m) = true →
  RawMemory.init n m =
    Ret (RawMemory.mk (brk m) n)
        (mkMemory (<[brk m := replicate n None]> (heap m)) (S (brk m)) (world m)).
Proof.
  intros Hn Hf Ha. unfold RawMemory.init, RawMemory.Allocate.
  case_decide; [|done]. unfold mbind, M_bind, bind, operator_new.
  rewrite fits_slots, fits_bytes, Ha by done. done.
Qed.

Lemma init_throws n m :
  n ≠ 0 → allocates (size_t_mul (N.of_nat n) (N.pos sizeof)) (world m) = false →
  RawMemory.init n m = Throw m.
Proof.
  intros Hn Ha. unfold RawMemory.init, RawMemory.Allocate.
  case_decide; [|done]. unfold mbind, M_bind, bind, operator_new. by rewrite Ha.
Qed.

Lemma init_returns n m r m' :
  n ≠ 0 → RawMemory.init n m = Ret r m' →
  r = RawMemory.mk (brk m) n ∧
  m' = mkMemory (<[brk m := replicate
          (N.to_nat (size_t_mul (N.of_nat n) (N.pos sizeof) / N.pos sizeof)) None]> (heap m))
         (S (brk m)) (world m).
Proof.
  intros Hn. unfold RawMemory.init, RawMemory.Allocate.
  case_decide; [|done]. unfold mbind, M_bind, bind, operator_new.
  destruct (allocates _ _); [|done]. simpl. by intros [= <- <-].
Qed.

(** Every outcome of [Allocate]. *)
Lemma init_total n m :
  total (RawMemory.init n m)
    (λ r m', if decide (n = 0) then r = RawMemory.empty ∧ m' = m
             else allocates (size_t_mul (N.of_nat n) (N.pos sizeof)) (world m) = true ∧
                  r = RawMemory.mk (brk m) n ∧
                  m' = mkMemory (<[brk m := replicate (room n) None]> (heap m))
                                (S (brk m)) (world m))
    (λ m', m' = m ∧ n ≠ 0 ∧
           allocates (size_t_mul (N.of_nat n) (N.pos sizeof)) (world m) = false).
Proof.
  unfold RawMemory.init, RawMemory.Allocate.
  destruct (decide (n = 0)) as [->|Hn]; [done|].
  case_decide; [|done]. unfold mbind, M_bind, bind, operator_new.
  by destruct (allocates _ _).
Qed.

Lemma total_init n m (Q : RawMemory.t → Memory T W → Prop) (E' : Memory T W → Prop) :
  n ≠ 0 → fits n → served n ∨ E' m →
  Q (RawMemory.mk (brk m) n)
    (mkMemory (<[brk m := replicate n None]> (heap m)) (S (brk m)) (world m)) →
  total (RawMemory.init n m) Q E'.
Proof.
  intros Hn Hf Hs HQ.
  destruct (allocates (N.of_nat n * N.pos sizeof) (world m)) eqn:Ha.
  - by rewrite init_pos.
  - rewrite init_throws by (by rewrite ?fits_bytes). simpl.
    destruct Hs as [[?|Hs]|]; [done| |done]. specialize (Hs (world m)). congruence.
Qed.

(** What every caller of the constructor relies on. *)
Lemma post_init n m b0 own :
  b0 ≤ brk m →
  post (RawMemory.init n m)
    (λ r m', RawMemory.capacity_ r = n ∧ frame b0 own m m' ∧
             (n = 0 → RawMemory.buffer_ r = 0) ∧
             (n ≠ 0 → b0 ≤ RawMemory.buffer_ r < brk m'))
    (λ m', m' = m).
Proof.
  intros Hb. destruct (decide (n = 0)) as [->|Hn].
  - rewrite init_zero. simpl. split_and!; done.
  - destruct (RawMemory.init n m) as [r m'| |] eqn:Hi; simpl; [| |done].
    + apply init_returns in Hi as [-> ->]; [|done]. simpl. split_and!; try done; [|lia].
      split; simpl; [lia|]. intros _ a Ha Hown. apply lookup_insert_ne. lia.
    + revert Hi. unfold RawMemory.init, RawMemory.Allocate.
      case_decide; [|done]. unfold mbind, M_bind, bind, operator_new.
      destruct (allocates _ _); [done|]. by intros [= <-].
Qed.

Lemma frame_fini b0 own r :
  RawMemory.buffer_ r = 0 ∨ RawMemory.buffer_ r = own ∨ b0 ≤ RawMemory.buffer_ r →
  preserves (frame (T:=T) (W:=W) b0 own) (RawMemory.fini r).
Proof. apply frame_operator_delete. Qed.

Lemma post_add {S} r offset (s : S) (Q : ptr → S → Prop) E' :
  (offset ≤ RawMemory.capacity_ r → Q (Ptr (RawMemory.buffer_ r) offset) s) →
  post (RawMemory.add r offset s) Q E'.
Proof.
  intros HQ. apply post_bind, post_assert. intros Hb%Nat.leb_le. simpl. auto.
Qed.

Lemma post_at_ {S} r index (s : S) (Q : ptr → S → Prop) E' :
  (index < RawMemory.capacity_ r → Q (Ptr (RawMemory.buffer_ r) index) s) →
  post (RawMemory.at_ r index s) Q E'.
Proof.
  intros HQ. apply post_bind, post_assert. intros Hb%Nat.ltb_lt. simpl. auto.
Qed.
End RawMemoryRules.

(** * What a member function of [Vector] may change *)

Section StoreFrame.
Context {T W O : Type}.
Implicit Types s : Store T W O.


#[global] Instance frameS_preorder b0 own : PreOrder (frameS (T:=T) (W:=W) (O:=O) b0 own).
Proof.
  split.
  - intros s. split; [done|reflexivity].
  - intros s1 s2 s3 [H1 F1] [H2 F2]. split; [congruence|by etrans].
Qed.

Lemma frameS_lift {A} b0 own (mm : M (Memory T W) A) :
  preserves (frame b0 own) mm → preserves (frameS (O:=O) b0 own) (lift mm).
Proof.
  intros Hmm s. eapply post_lift_keeps; [exact Hmm|..]; simpl; by intros; split.
Qed.

Lemma frameS_get_obj b0 own this :
  preserves (frameS (T:=T) (W:=W) (O:=O) b0 own) (get_obj this).
Proof. intros s. apply post_get_obj. intros. reflexivity. Qed.

Lemma frameS_brk b0 own s s' : frameS b0 own s s' → brk (mem s) ≤ brk (mem s').
Proof. by intros [_ [? _]]. Qed.
End StoreFrame.

Lemma preserves_unwinding {S A} (R : relation S) `{!PreOrder R} (d : M S unit) (m : M S A) :
  preserves R d → preserves R m → preserves R (unwinding d m).
Proof.
  intros Hd Hm. apply preserves_try_catch; [apply _|done|].
  apply preserves_bind; [apply _|done|]. intros _. apply preserves_throw, _.
Qed.

Lemma preserves_add {S} (R : relation S) `{!PreOrder R} r offset :
  preserves R (RawMemory.add r offset).
Proof.
  apply preserves_bind; [apply _|apply preserves_assert, _|intros _].
  apply preserves_ret, _.
Qed.

Lemma preserves_at_ {S} (R : relation S) `{!PreOrder R} r index :
  preserves R (RawMemory.at_ r index).
Proof.
  apply preserves_bind; [apply _|apply preserves_assert, _|intros _].
  apply preserves_ret, _.
Qed.

Lemma preserves_add_bind {S B} (R : relation S) `{!PreOrder R} r offset
    (f : ptr → M S B) :
  preserves R (f (Ptr (RawMemory.buffer_ r) offset)) →
  preserves R (RawMemory.add r offset ≫= f).
Proof.
  intros Hf s. apply post_bind, post_add. intros _. apply Hf.
Qed.

Lemma preserves_at_bind {S B} (R : relation S) `{!PreOrder R} r index
    (f : ptr → M S B) :
  preserves R (f (Ptr (RawMemory.buffer_ r) index)) →
  preserves R (RawMemory.at_ r index ≫= f).
Proof.
  intros Hf s. apply post_bind, post_at_. intros _. apply Hf.
Qed.

Lemma post_seq {S A B} (m : M S A) (f : A → M S B) s Qm Q E :
  post (m s) Qm E → (∀ a s1, Qm a s1 → post (f a s1) Q E) → post ((m ≫= f) s) Q E.
Proof. intros Hm Hf. apply post_bind. eapply post_mono; [exact Hm|..]; auto. Qed.

Lemma post_keeps {S A} (R : relation S) (m : M S A) s (Q : A → S → Prop) E :
  preserves R m → (∀ a s', R s s' → Q a s') → (∀ s', R s s' → E s') → post (m s) Q E.
Proof. intros Hm HQ HE. eapply post_mono; [apply Hm|..]; auto. Qed.

Ltac lookups :=
  simpl;
  repeat (rewrite lookup_insert_eq || rewrite lookup_insert_ne by done);
  try done.

(** Syntax-directed proof of [preserves]: the side conditions left are the
    [writable] ones. *)
Ltac keeps_step :=
  lazymatch goal with
  | |- preserves _ (RawMemory.add _ _ ≫= _) => apply preserves_add_bind; [apply _|]
  | |- preserves _ (RawMemory.at_ _ _ ≫= _) => apply preserves_at_bind; [apply _|]
  | |- preserves _ (_ ≫= _) => apply preserves_bind; [apply _| |intros ?]
  | |- preserves _ (mret _) => apply preserves_ret, _
  | |- preserves _ (ret _) => apply preserves_ret, _
  | |- preserves _ throw => apply preserves_throw, _
  | |- preserves _ abort => apply preserves_abort
  | |- preserves _ (assert _) => apply preserves_assert, _
  | |- preserves _ (try_catch _ _) => apply preserves_try_catch; [apply _| |]
  | |- preserves _ (unwinding _ _) => apply preserves_unwinding; [apply _| |]
  | |- preserves _ (RawMemory.add _ _) => apply preserves_add, _
  | |- preserves _ (RawMemory.at_ _ _) => apply preserves_at_, _
  | |- preserves _ (get_obj _) => apply frameS_get_obj
  | |- preserves _ (lift _) => apply frameS_lift
  | |- preserves _ (if ?b then _ else _) => destruct b
  | |- preserves _ (load _) => apply frame_load
  | |- preserves _ (peek _) => apply frame_peek
  | |- preserves _ (poke _ _) => apply frame_poke
  | |- preserves _ (construct_at _ _ _) => apply frame_construct_at
  | |- preserves _ (construct _ _) =>
      apply frame_construct; [|first [assumption|reflexivity]]
  | |- preserves _ (move_construct _ _) => apply frame_move_construct
  | |- preserves _ (destroy_at _) => apply frame_destroy_at
  | |- preserves _ (destroy_n _ _) => apply frame_destroy_n
  | |- preserves _ (uninitialized_copy_n _ _ _) => apply frame_uninitialized_copy_n
  | |- preserves _ (uninitialized_move_n _ _ _) => apply frame_uninitialized_move_n
  | |- preserves _ (uninitialized_value_construct_n _ _) =>
      apply frame_uninitialized_value_construct_n
  | |- preserves _ (std_copy _ _ _) => apply frame_std_copy
  | |- preserves _ (std_move _ _ _) => apply frame_std_move
  | |- preserves _ (std_move_backward _ _ _) => apply frame_std_move_backward
  | |- preserves _ (assign_value _ _ _) => apply frame_assign_value
  | |- preserves _ (RawMemory.fini _) => apply frame_fini
  end.
Ltac keeps := repeat keeps_step.

#[global] Instance same_objs_preorder {T W O} : PreOrder (same_objs (T:=T) (W:=W) (O:=O)).
Proof. split; [done|]. unfold same_objs. intros s1 s2 s3 H1 H2. congruence. Qed.

Lemma same_objs_lift {T W O A} (mm : M (Memory T W) A) :
  preserves (same_objs (O:=O)) (lift mm).
Proof. intros s. unfold lift. by destruct (mm (mem s)). Qed.

Lemma same_objs_get_obj {T W O} this :
  preserves (same_objs (T:=T) (W:=W) (O:=O)) (get_obj this).
Proof. intros s. apply post_get_obj. intros. reflexivity. Qed.

(** Code that runs on memory leaves the fields alone. *)
Ltac fields_step :=
  lazymatch goal with
  | |- preserves _ (RawMemory.add _ _ ≫= _) => apply preserves_add_bind; [apply _|]
  | |- preserves _ (RawMemory.at_ _ _ ≫= _) => apply preserves_at_bind; [apply _|]
  | |- preserves _ (_ ≫= _) => apply preserves_bind; [apply _| |intros ?]
  | |- preserves _ (mret _) => apply preserves_ret, _
  | |- preserves _ (ret _) => apply preserves_ret, _
  | |- preserves _ throw => apply preserves_throw, _
  | |- preserves _ abort => apply preserves_abort
  | |- preserves _ (assert _) => apply preserves_assert, _
  | |- preserves _ (try_catch _ _) => apply preserves_try_catch; [apply _| |]
  | |- preserves _ (unwinding _ _) => apply preserves_unwinding; [apply _| |]
  | |- preserves _ (RawMemory.add _ _) => apply preserves_add, _
  | |- preserves _ (RawMemory.at_ _ _) => apply preserves_at_, _
  | |- preserves _ (get_obj _) => apply same_objs_get_obj
  | |- preserves _ (lift _) => apply same_objs_lift
  | |- preserves _ (if ?b then _ else _) => destruct b
  end.
Ltac fields := repeat fields_step.

Ltac wr :=
  solve [ unfold writable, buffer, capacity, RawMemory.Capacity in *; simpl in *;
          repeat match goal with x := _ : nat |- _ => subst x end; lia ].

Section Effects.
Context {T W : Type} {E : Element T W}.
Implicit Types s : Store T W Vector.t.
Implicit Types v : Vector.t.
Implicit Types m : Memory T W.


Lemma post_lift_init {O} n (st : Store T W O) b0 own :
  b0 ≤ brk (mem st) →
  post (lift (RawMemory.init n) st)
    (λ r st', frameS b0 own st st' ∧ RawMemory.capacity_ r = n ∧
              (n = 0 → RawMemory.buffer_ r = 0) ∧
              (n ≠ 0 → b0 ≤ RawMemory.buffer_ r < brk (mem st')))
    (λ st', st' = st).
Proof.
  intros Hb. apply post_lift.
  eapply post_mono; [apply (post_init _ _ b0 own); lia| |].
  - simpl. intros r m' (? & ? & ? & ?). by split_and!.
  - intros m' ->. by destruct st.
Qed.

Lemma effect_intro this v v' s s' :
  frame (brk (mem s)) (buffer v) (mem s) (mem s') →
  (∀ id, id ≠ this → objs s' !! id = objs s !! id) →
  objs s' !! this = Some v' →
  (Vector.size_ v ≤ capacity v → Vector.size_ v' ≤ capacity v') →
  capacity v ≤ capacity v' →
  (buffer v' = buffer v ∨ brk (mem s) ≤ buffer v' < brk (mem s')) →
  effect this v s s'.
Proof. intros. split_and!; try done. by exists v'. Qed.

Lemma effect_refl this v s : objs s !! this = Some v → effect this v s s.
Proof. intros Hv. apply effect_intro with v; auto. reflexivity. Qed.

Lemma effect_frameS this v s s' :
  objs s !! this = Some v →
  frameS (brk (mem s)) (buffer v) s s' →
  effect this v s s'.
Proof.
  intros Hv [Ho F]. apply effect_intro with v; auto; rewrite Ho; auto.
Qed.

Lemma effect_trans this v v1 s s1 s2 :
  effect this v s s1 →
  objs s1 !! this = Some v1 →
  effect this v1 s1 s2 →
  effect this v s s2.
Proof.
  intros (F1 & Hid1 & v1' & Hv1' & Hsz1 & Hcap1 & Hbuf1) Hv1
         (F2 & Hid2 & v2 & Hv2 & Hsz2 & Hcap2 & Hbuf2).
  assert (v1' = v1) as -> by congruence.
  pose proof (proj1 F1). pose proof (proj1 F2).
  apply effect_intro with v2; try done.
  - split; [lia|]. intros _ a Ha Hown.
    rewrite (proj2 F2) by (lia || destruct Hbuf1; lia).
    by apply F1.
  - intros id Hid. rewrite Hid2 by done. by apply Hid1.
  - auto.
  - lia.
  - lia.
Qed.

Lemma Emplace_effect this v pos args s :
  objs s !! this = Some v →
  moves_element args = false →
  post (Vector.Emplace this pos args s) (λ _, effect this v s) (effect this v s).
Proof.
  intros Hv Hargs. unfold Vector.Emplace.
  apply post_bind. rewrite (get_obj_eq _ _ _ Hv). simpl.
  apply post_bind, post_assert. intros _. simpl.
  set (b0 := brk (mem s)). set (own := buffer v).
  assert (Hown : ∀ p, blk p = own → writable b0 own p) by (intros; by left).
  eapply post_seq with (Qm := λ _ s1,
    ∃ v1, frame b0 own (mem s) (mem s1) ∧
          (∀ id, id ≠ this → objs s1 !! id = objs s !! id) ∧
          objs s1 !! this = Some v1 ∧
          (Vector.size_ v ≤ capacity v → S (Vector.size_ v1) ≤ capacity v1) ∧
          capacity v ≤ capacity v1 ∧
          (buffer v1 = buffer v ∨ b0 ≤ buffer v1 < brk (mem s1))).
  - case_decide as Hfull.
    + (* a larger block *)
      eapply post_seq.
      { eapply post_mono; [apply (post_lift_init _ _ b0 own); lia| |].
        - intros data s1 H. exact H.
        - intros ? ->. by apply effect_refl. }
      simpl. intros data [m1 o1] ([Ho F1] & Hcap & _ & Hbuf). simpl in *. subst o1.
      assert (Hbuf' : b0 ≤ RawMemory.buffer_ data < brk m1).
      { apply Hbuf. case_decide; lia. }
      clear Hbuf.
      assert (Hd : ∀ p, blk p = RawMemory.buffer_ data → writable b0 own p).
      { intros p Hp. right. lia. }
      eapply post_seq with (Qm := λ _, frameS b0 own (mkStore m1 (objs s))).
      { eapply post_keeps with (R := frameS b0 own).
        - keeps; try (apply Hd; done); try (apply Hown; done).
          all: try (right; right; lia).
        - auto.
        - intros s2 [Ho F2]. apply effect_intro with v; rewrite ?Ho; auto. by etrans. }
      intros it [m2 o2] [Ho F2]. simpl in *. subst o2.
      apply post_bind. rewrite (set_obj_eq _ _ v) by done. simpl.
      eapply post_seq with (Qm := λ _,
        frameS b0 own (mkStore m2 (<[this:=Vector.mk data (Vector.size_ v)]> (objs s)))).
      { eapply post_keeps with (R := frameS b0 own).
        - keeps. wr.
        - auto.
        - intros s3 [Ho F3]. simpl in *.
          pose proof (frame_brk _ _ _ _ F2). pose proof (frame_brk _ _ _ _ F3).
          apply effect_intro with (Vector.mk data (Vector.size_ v)); rewrite ?Ho.
          + by do 2 (etrans; [|done]).
          + intros. by lookups.
          + by lookups.
          + unfold capacity. simpl. rewrite Hcap. case_decide; lia.
          + unfold capacity in *. simpl. rewrite Hcap.
            unfold RawMemory.Capacity in *. case_decide; lia.
          + right. unfold buffer. simpl. lia. }
      intros _ s3 [Ho F3]. simpl in *.
      pose proof (frame_brk _ _ _ _ F2). pose proof (frame_brk _ _ _ _ F3).
      exists (Vector.mk data (Vector.size_ v)). rewrite Ho. split_and!.
      * by do 2 (etrans; [|done]).
      * intros. by lookups.
      * by lookups.
      * unfold capacity. simpl. rewrite Hcap. case_decide; lia.
      * unfold capacity in *. simpl. rewrite Hcap.
        unfold RawMemory.Capacity in *. case_decide; lia.
      * right. unfold buffer. simpl. lia.
    + (* in place *)
      eapply post_keeps with (R := frameS b0 own).
      * keeps; wr.
      * intros _ s1 [Ho F1]. exists v. rewrite Ho. split_and!; auto.
        unfold capacity, RawMemory.Capacity in *. lia.
      * intros s1 F1. by apply effect_frameS.
  - (* ++size_ *)
    intros it [m1 o1] (v1 & F1 & Hid & H1 & Hsz & Hcap & Hbuf). simpl in *.
    apply post_bind. rewrite (get_obj_eq _ _ v1) by done. simpl.
    apply post_bind. rewrite (set_obj_eq _ _ v1) by done. simpl.
    eapply effect_intro; [done| |by lookups|done..].
    intros. lookups. auto.
Qed.

Lemma effect_after_frameS this v s s1 s2 :
  objs s !! this = Some v →
  frameS (brk (mem s)) (buffer v) s s1 →
  effect this v s1 s2 →
  effect this v s s2.
Proof.
  intros Hv F H. eapply effect_trans; [by apply effect_frameS| |done].
  destruct F as [-> _]. done.
Qed.

Lemma copy_init_frame b0 own o m :
  b0 ≤ brk m →
  post (Vector.copy_init o m)
    (λ v' m', frame b0 own m m' ∧ Vector.size_ v' = Vector.size_ o ∧
              capacity v' = Vector.size_ o ∧
              (Vector.size_ o = 0 → buffer v' = 0) ∧
              (Vector.size_ o ≠ 0 → b0 ≤ buffer v' < brk m'))
    (frame b0 own m).
Proof.
  intros Hb. unfold Vector.copy_init.
  eapply post_seq.
  { eapply post_mono; [apply (post_init _ _ b0 own); lia| |].
    - intros data s1 H. exact H.
    - intros ? ->. reflexivity. }
  simpl. intros data m1 (Hcap & F1 & Hz & Hnz).
  eapply post_seq with (Qm := λ _ m2, frame b0 own m1 m2).
  - eapply post_keeps with (R := frame b0 own).
    + destruct (decide (Vector.size_ o = 0)) as [Hz0|Hn].
      * rewrite Hz0. unfold uninitialized_copy_n. simpl. keeps. wr.
      * keeps; wr.
    + auto.
    + intros m2 F2. by etrans.
  - intros _ m2 F2. simpl. pose proof (frame_brk _ _ _ _ F2).
    split_and!; try done; [by etrans|]. intros Hn. specialize (Hnz Hn).
    unfold buffer. simpl. lia.
Qed.

Lemma Reserve_effect this v n s :
  objs s !! this = Some v →
  post (Vector.Reserve this n s)
    (λ _ s', effect this v s s' ∧
             ∃ v', objs s' !! this = Some v' ∧ n ≤ capacity v' ∧
                   Vector.size_ v' = Vector.size_ v)
    (effect this v s).
Proof.
  intros Hv. unfold Vector.Reserve.
  apply post_bind. rewrite (get_obj_eq _ _ _ Hv). simpl.
  case_decide as Hn.
  { simpl. split; [by apply effect_refl|]. by exists v. }
  set (b0 := brk (mem s)). set (own := buffer v).
  unfold Vector.CreateCopy.
  eapply post_seq with (Qm := λ data s1,
    frameS b0 own s s1 ∧ RawMemory.capacity_ data = n ∧
    b0 ≤ RawMemory.buffer_ data < brk (mem s1)).
  - apply post_bind. rewrite (get_obj_eq _ _ _ Hv). simpl.
    eapply post_seq.
    { eapply post_mono; [apply (post_lift_init _ _ b0 own); lia| |].
      - intros data s1 H. exact H.
      - intros ? ->. by apply effect_refl. }
    simpl. intros data s1 (F1 & Hcap & _ & Hbuf).
    unfold RawMemory.Capacity in *.
    assert (Hbuf' : b0 ≤ RawMemory.buffer_ data < brk (mem s1)) by (apply Hbuf; lia).
    eapply post_seq with (Qm := λ _ s2, frameS b0 own s1 s2).
    + eapply post_keeps with (R := frameS b0 own).
      * keeps; wr.
      * auto.
      * intros s2 F2. apply effect_frameS; [done|by etrans].
    + intros _ s2 F2. simpl. pose proof (frameS_brk _ _ _ _ F2).
      split_and!; try done; try (by etrans); lia.
  - intros data [m1 o1] ([Ho F1] & Hcap & Hbuf). simpl in *. subst o1.
    apply post_bind. rewrite (set_obj_eq _ _ v) by done. simpl.
    set (v1 := Vector.mk data (Vector.size_ v)).
    assert (H1 : ∀ s2, frameS b0 own (mkStore m1 (<[this:=v1]> (objs s))) s2 →
      effect this v s s2).
    { intros s2 [Ho F2]. simpl in *. pose proof (frame_brk _ _ _ _ F2).
      apply effect_intro with v1; rewrite ?Ho.
      - by etrans.
      - intros. by lookups.
      - by lookups.
      - unfold capacity, RawMemory.Capacity in *. simpl. lia.
      - unfold capacity, RawMemory.Capacity in *. simpl. lia.
      - right. unfold buffer. simpl. lia. }
    eapply post_keeps with (R := frameS b0 own).
    + keeps; wr.
    + intros _ s2 F2. split; [by apply H1|].
      exists v1. destruct F2 as [-> _]. split; [by lookups|].
      unfold capacity. simpl. split; [lia|done].
    + auto.
Qed.

Lemma PopBack_effect this v s :
  objs s !! this = Some v →
  post (Vector.PopBack this s) (λ _, effect this v s) (effect this v s).
Proof.
  intros Hv. unfold Vector.PopBack.
  apply post_bind. rewrite (get_obj_eq _ _ _ Hv). simpl.
  case_decide; [|by apply effect_refl].
  eapply post_seq with (Qm := λ _, frameS (brk (mem s)) (buffer v) s).
  - eapply post_keeps with (R := frameS (brk (mem s)) (buffer v));
      [|auto|intros; by apply effect_frameS].
    keeps. wr.
  - intros _ [m1 o1] [Ho F1]. simpl in *. subst o1.
    rewrite (set_obj_eq _ _ v) by done. simpl.
    apply effect_intro with (Vector.mk (Vector.data_ v) (Vector.size_ v - 1)); try done.
    + intros. by lookups.
    + by lookups.
    + unfold capacity. simpl. lia.
    + by left.
Qed.

Lemma Erase_effect this v pos s :
  objs s !! this = Some v →
  post (Vector.Erase this pos s) (λ _, effect this v s) (effect this v s).
Proof.
  intros Hv. unfold Vector.Erase, Vector.begin, Vector.end_.
  apply post_bind, post_bind. rewrite (get_obj_eq _ _ _ Hv). simpl.
  apply post_bind, post_bind. rewrite (get_obj_eq _ _ _ Hv). simpl.
  apply post_bind, post_assert. intros _. simpl.
  eapply post_seq with (Qm := λ _, frameS (brk (mem s)) (buffer v) s).
  - eapply post_keeps with (R := frameS (brk (mem s)) (buffer v));
      [|auto|intros; by apply effect_frameS].
    keeps; wr.
  - intros _ s1 F1. simpl.
    assert (Hv1 : objs s1 !! this = Some v) by (destruct F1 as [-> _]; done).
    eapply post_seq with (Qm := λ _, effect this v s).
    + eapply post_mono; [by apply PopBack_effect|..]; simpl.
      * intros _ s2 H2. by eapply effect_after_frameS.
      * intros s2 H2. by eapply effect_after_frameS.
    + intros _ s2 H2. simpl. apply post_bind, post_bind, post_get_obj.
      intros. simpl. done.
Qed.

Lemma EmplaceBack_effect this v args s :
  objs s !! this = Some v →
  moves_element args = false →
  post (Vector.EmplaceBack this args s) (λ _, effect this v s) (effect this v s).
Proof.
  intros Hv Hargs. unfold Vector.EmplaceBack, Vector.end_.
  apply post_bind, post_bind. rewrite (get_obj_eq _ _ _ Hv). simpl.
  by apply Emplace_effect.
Qed.

Lemma PushBack_effect this v args s :
  objs s !! this = Some v →
  moves_element args = false →
  post (Vector.PushBack this args s) (λ _, effect this v s) (effect this v s).
Proof.
  intros Hv Hargs. unfold Vector.PushBack.
  eapply post_seq; [by apply EmplaceBack_effect|]. by intros ? s1 H1.
Qed.

Lemma Resize_effect this v count s :
  objs s !! this = Some v →
  post (Vector.Resize this count s) (λ _, effect this v s) (effect this v s).
Proof.
  intros Hv. unfold Vector.Resize.
  apply post_bind. rewrite (get_obj_eq _ _ _ Hv). simpl.
  eapply post_seq with (Qm := λ _ s1,
    effect this v s s1 ∧
    ∃ v1, objs s1 !! this = Some v1 ∧ capacity v ≤ capacity v1 ∧
          (Vector.size_ v ≤ capacity v → count ≤ capacity v1)).
  - case_decide as Hc.
    + eapply post_seq; [by apply Reserve_effect|].
      simpl. intros _ s1 (H1 & v1 & Hv1 & Hcap & Hsz).
      apply post_bind. rewrite (get_obj_eq _ _ _ Hv1). simpl.
      eapply post_keeps with (R := frameS (brk (mem s1)) (buffer v1)).
      * keeps. wr.
      * intros _ s2 F2. split.
        -- eapply effect_trans; [done..|]. by apply effect_frameS.
        -- exists v1. destruct F2 as [-> _]. split_and!; [done| |done].
           destruct H1 as (_ & _ & v1' & ? & _ & ? & _). congruence.
      * intros s2 F2. eapply effect_trans; [done..|]. by apply effect_frameS.
    + eapply post_keeps with (R := frameS (brk (mem s)) (buffer v)).
      * keeps. wr.
      * intros _ s2 F2. split; [by apply effect_frameS|].
        exists v. destruct F2 as [-> _]. split_and!; [done..|]. lia.
      * intros s2 F2. by apply effect_frameS.
  - intros _ s1 (H1 & v1 & Hv1 & Hcap' & Hcap). simpl.
    apply post_bind. rewrite (get_obj_eq _ _ _ Hv1). simpl.
    rewrite (set_obj_eq _ _ _ _ Hv1). simpl.
    destruct H1 as (F1 & Hid1 & v1' & Hv1' & Hsz1 & Hcap1 & Hbuf1).
    assert (v1' = v1) as -> by congruence.
    apply effect_intro with (Vector.mk (Vector.data_ v1) count); simpl; try done.
    + intros. lookups. auto.
    + by lookups.
Qed.

Lemma assign_at_effect this v index k x s :
  objs s !! this = Some v →
  post (assign_at this index k x s) (λ _, effect this v s) (effect this v s).
Proof.
  intros Hv. unfold assign_at, Vector.at_.
  apply post_bind, post_bind. rewrite (get_obj_eq _ _ _ Hv). simpl.
  apply post_bind, post_assert. intros _. simpl.
  apply post_at_. intros _. simpl.
  eapply post_keeps with (R := frameS (brk (mem s)) (buffer v)).
  - keeps. wr.
  - intros. by apply effect_frameS.
  - intros. by apply effect_frameS.
Qed.

Lemma copy_assign_effect this rhs v s :
  objs s !! this = Some v →
  post (Vector.copy_assign this rhs s) (λ _, effect this v s) (effect this v s).
Proof.
  intros Hv. unfold Vector.copy_assign.
  case_decide as Hne; [|by apply effect_refl].
  apply post_bind. rewrite (get_obj_eq _ _ _ Hv). simpl.
  apply post_bind, post_get_obj. intros r Hr. simpl.
  set (b0 := brk (mem s)). set (own := buffer v).
  case_decide as Hcap.
  - eapply post_seq with (Qm := λ v' s1,
      frameS b0 own s s1 ∧ Vector.size_ v' = Vector.size_ r ∧
      capacity v' = Vector.size_ r ∧ b0 ≤ buffer v' < brk (mem s1)).
    + apply post_lift.
      eapply post_mono; [apply (copy_init_frame b0 own); lia|..]; simpl.
      * intros v' m1 (F1 & Hsz & Hc & _ & Hbuf). split_and!; try done.
        all: apply Hbuf; unfold RawMemory.Capacity in *; lia.
      * intros m1 F1. by apply effect_frameS.
    + intros v' [m1 o1] ([Ho F1] & Hsz & Hc & Hbuf). simpl in *. subst o1.
      apply post_bind. rewrite (set_obj_eq _ _ v) by done. simpl.
      eapply post_keeps with (R := frameS b0 own).
      * unfold Vector.fini. keeps; wr.
      * intros _ s2 [Ho F2]. simpl in *. pose proof (frame_brk _ _ _ _ F2).
        apply effect_intro with v'; rewrite ?Ho.
        -- by etrans.
        -- intros. by lookups.
        -- by lookups.
        -- lia.
        -- unfold RawMemory.Capacity, capacity in *. lia.
        -- right. lia.
      * intros s2 [Ho F2]. simpl in *. pose proof (frame_brk _ _ _ _ F2).
        apply effect_intro with v'; rewrite ?Ho.
        -- by etrans.
        -- intros. by lookups.
        -- by lookups.
        -- lia.
        -- unfold RawMemory.Capacity, capacity in *. lia.
        -- right. lia.
  - eapply post_seq with (Qm := λ _, frameS b0 own s).
    + eapply post_keeps with (R := frameS b0 own).
      * keeps; wr.
      * auto.
      * intros. by apply effect_frameS.
    + intros _ [m1 o1] [Ho F1]. simpl in *. subst o1.
      rewrite (set_obj_eq _ _ v) by done. simpl.
      apply effect_intro with (Vector.mk (Vector.data_ v) (Vector.size_ r)); simpl; try done.
      * intros. by lookups.
      * by lookups.
      * unfold capacity, RawMemory.Capacity in *. simpl. lia.
      * by left.
Qed.

(** The calls on two vectors, and the start and end of a lifetime. *)
Lemma Swap_eq this other a b s :
  objs s !! this = Some a →
  objs s !! other = Some b →
  Vector.Swap this other s =
    Ret tt (mkStore (mem s) (<[other := a]> (<[this := b]> (objs s)))).
Proof.
  intros Ha Hb. unfold Vector.Swap, mbind, M_bind, bind, get_obj, set_obj.
  destruct (decide (this = other)) as [->|Hne].
  - assert (a = b) as -> by congruence.
    repeat (simpl; rewrite ?Hb, ?lookup_insert_eq).
    rewrite !insert_insert_eq. by destruct b.
  - assert (other ≠ this) by done.
    repeat (simpl; rewrite ?Ha, ?Hb, ?lookup_insert_eq, ?lookup_insert_ne by done).
    f_equal. f_equal. destruct a, b. simpl.
    apply map_eq. intros i.
    destruct (decide (i = other)) as [->|]; [by lookups|].
    destruct (decide (i = this)) as [->|]; by lookups.
Qed.
End Effects.

(** * The invariant of sizes and capacities *)

Section Invariant.
Context {T W : Type} {E : Element T W}.
Implicit Types s : Store T W Vector.t.
Implicit Types v : Vector.t.
Implicit Types m : Memory T W.

Lemma effect_sizes_ok this v s s' :
  objs s !! this = Some v → effect this v s s' → sizes_ok s → sizes_ok s'.
Proof.
  intros Hv (_ & Hid & v' & Hv' & Hsz & _) Hok id w Hw.
  destruct (decide (id = this)) as [->|Hne].
  - assert (w = v') as -> by congruence. apply Hsz. by eapply Hok.
  - rewrite Hid in Hw by done. by eapply Hok.
Qed.

Lemma effect_capacity_kept this v s s' :
  objs s !! this = Some v → effect this v s s' → capacity_kept s s'.
Proof.
  intros Hv (_ & Hid & v' & Hv' & _ & Hcap & _) id w Hw.
  destruct (decide (id = this)) as [->|Hne].
  - assert (w = v) as -> by congruence. by exists v'.
  - exists w. by rewrite Hid.
Qed.

Lemma capacity_kept_refl s : capacity_kept s s.
Proof. intros id v Hv. by exists v. Qed.

Lemma sizes_ok_insert this v (o : gmap nat Vector.t) m m' :
  sizes_ok (mkStore m o) → Vector.size_ v ≤ capacity v →
  sizes_ok (mkStore m' (<[this := v]> o)).
Proof.
  intros Hok Hv id w. simpl. destruct (decide (id = this)) as [->|Hne].
  - rewrite lookup_insert_eq. by intros [= <-].
  - rewrite lookup_insert_ne by done. apply Hok.
Qed.

Lemma sizes_ok_mem s m' : sizes_ok s → sizes_ok (mkStore m' (objs s)).
Proof. intros Hok id v. apply Hok. Qed.

Lemma capacity_kept_insert_new this v s m' :
  objs s !! this = None → capacity_kept s (mkStore m' (<[this := v]> (objs s))).
Proof.
  intros Hnone id w Hw. exists w. simpl. split; [|done].
  rewrite lookup_insert_ne; [done|]. intros ->. congruence.
Qed.

Lemma sizes_ok_objs s s' : objs s' = objs s → sizes_ok s → sizes_ok s'.
Proof. intros Ho Hok id v. rewrite Ho. apply Hok. Qed.

Lemma capacity_kept_objs s s' : objs s' = objs s → capacity_kept s s'.
Proof. intros Ho id v Hv. exists v. by rewrite Ho. Qed.

Lemma fields_sizes_ok this v s s' :
  objs s !! this = Some v → field_effect this v s s' → sizes_ok s → sizes_ok s'.
Proof.
  intros Hv (Hid & v' & Hv' & Hsz & _) Hok id w Hw.
  destruct (decide (id = this)) as [->|Hne].
  - assert (w = v') as -> by congruence. apply Hsz. by eapply Hok.
  - rewrite Hid in Hw by done. by eapply Hok.
Qed.

Lemma fields_capacity_kept this v s s' :
  objs s !! this = Some v → field_effect this v s s' → capacity_kept s s'.
Proof.
  intros Hv (Hid & v' & Hv' & _ & Hcap) id w Hw.
  destruct (decide (id = this)) as [->|Hne].
  - assert (w = v) as -> by congruence. by exists v'.
  - exists w. by rewrite Hid.
Qed.

Lemma fields_same this v s s' :
  objs s !! this = Some v → same_objs s s' → field_effect this v s s'.
Proof.
  unfold same_objs. intros Hv Ho. split; [by rewrite Ho|]. exists v. by rewrite Ho.
Qed.

(** [Emplace], whatever its arguments, changes the fields of its vector
    alone: the capacity does not shrink and the size stays within it. *)
Lemma Emplace_fields this v pos args s :
  objs s !! this = Some v →
  post (Vector.Emplace this pos args s)
    (λ _, field_effect this v s) (field_effect this v s).
Proof.
  intros Hv. unfold Vector.Emplace.
  apply post_bind. rewrite (get_obj_eq _ _ _ Hv). simpl.
  apply post_bind, post_assert. intros _. simpl.
  eapply post_seq with (Qm := λ _ s1,
    ∃ v1, (∀ id, id ≠ this → objs s1 !! id = objs s !! id) ∧
          objs s1 !! this = Some v1 ∧
          (Vector.size_ v ≤ capacity v → S (Vector.size_ v1) ≤ capacity v1) ∧
          capacity v ≤ capacity v1).
  - case_decide as Hfull.
    + eapply post_seq.
      { eapply post_mono; [apply (post_lift_init _ _ 0 0); lia| |].
        - intros data s1 H. exact H.
        - intros ? ->. by apply fields_same. }
      simpl. intros data [m1 o1] ([Ho _] & Hcap & _). simpl in *. subst o1.
      eapply post_seq with (Qm := λ _, same_objs (mkStore m1 (objs s))).
      { eapply post_keeps with (R := same_objs).
        - fields.
        - auto.
        - intros s2 Ho. by apply fields_same. }
      intros it [m2 o2] Ho. unfold same_objs in Ho. simpl in *. subst o2.
      apply post_bind. rewrite (set_obj_eq _ _ v) by done. simpl.
      assert (Hnew : ∀ s3,
        same_objs (mkStore m2 (<[this:=Vector.mk data (Vector.size_ v)]> (objs s))) s3 →
        ∃ v1, (∀ id, id ≠ this → objs s3 !! id = objs s !! id) ∧
              objs s3 !! this = Some v1 ∧
              (Vector.size_ v ≤ capacity v → S (Vector.size_ v1) ≤ capacity v1) ∧
              capacity v ≤ capacity v1).
      { intros s3 Ho. unfold same_objs in Ho. simpl in Ho.
        exists (Vector.mk data (Vector.size_ v)). rewrite Ho. split_and!.
        - intros. by lookups.
        - by lookups.
        - unfold capacity. simpl. rewrite Hcap. case_decide; lia.
        - unfold capacity in *. simpl. rewrite Hcap.
          unfold RawMemory.Capacity in *. case_decide; lia. }
      eapply post_seq with (Qm := λ _,
        same_objs (mkStore m2 (<[this:=Vector.mk data (Vector.size_ v)]> (objs s)))).
      { eapply post_keeps with (R := same_objs).
        - fields.
        - auto.
        - intros s3 Ho. destruct (Hnew s3 Ho) as (v1 & ? & ? & ? & ?).
          split; [done|]. exists v1. split_and!; [done|lia|done]. }
      intros _ s3 Ho. simpl. by apply Hnew.
    + eapply post_keeps with (R := same_objs).
      * fields.
      * intros _ s1 Ho. unfold same_objs in Ho. exists v. rewrite Ho. split_and!; auto.
        unfold capacity, RawMemory.Capacity in *. lia.
      * intros s1 Ho. by apply fields_same.
  - intros it [m1 o1] (v1 & Hid & H1 & Hsz & Hcap). simpl in *.
    apply post_bind. rewrite (get_obj_eq _ _ v1) by done. simpl.
    apply post_bind. rewrite (set_obj_eq _ _ v1) by done. simpl.
    split; simpl.
    + intros. lookups. auto.
    + eexists. split; [by lookups|]. simpl. unfold capacity in *. simpl. split; [|done].
      intros H. specialize (Hsz H). lia.
Qed.

(** The mutators of one vector. *)
Lemma mutator_effect c this s :
  mutates c = Some this →
  post (perform c s)
    (λ _ s', s' = s ∨ ∃ v, objs s !! this = Some v ∧ effect this v s s')
    (λ s', s' = s ∨ ∃ v, objs s !! this = Some v ∧ effect this v s s').
Proof.
  intros Hc.
  destruct (objs s !! this) as [v|] eqn:Hv.
  - assert (∀ A (o : outcome (Store T W Vector.t) A),
      post o (λ _, effect this v s) (effect this v s) →
      post o (λ _ s', s' = s ∨ ∃ v0, Some v = Some v0 ∧ effect this v0 s s')
             (λ s', s' = s ∨ ∃ v0, Some v = Some v0 ∧ effect this v0 s s')) as Hweak.
    { intros A o Ho. eapply post_mono; [exact Ho|..]; simpl; eauto. }
    destruct c; simpl in Hc; try (destruct (moves_element _) eqn:Hargs);
      simplify_eq/=; try (apply Hweak).
    + by apply copy_assign_effect.
    + eapply post_seq; [by apply Emplace_effect|]. by intros ? s1 H1.
    + eapply post_seq; [by apply Emplace_effect|]. by intros ? s1 H1.
    + eapply post_seq; [by apply Emplace_effect|]. by intros ? s1 H1.
    + eapply post_seq; [by apply Erase_effect|]. by intros ? s1 H1.
    + eapply post_seq; [by apply EmplaceBack_effect|]. by intros ? s1 H1.
    + by apply PushBack_effect.
    + by apply PopBack_effect.
    + eapply post_mono; [by apply Reserve_effect|..]; simpl; [|done]. by intros _ s1 [H1 _].
    + by apply Resize_effect.
    + by apply assign_at_effect.
  - destruct c; simpl in Hc; try (destruct (moves_element _) eqn:Hargs); simplify_eq/=;
      unfold Vector.copy_assign, Vector.Insert_copy, Vector.Insert_move, Vector.Emplace,
        Vector.Erase, Vector.EmplaceBack, Vector.PushBack, Vector.EmplaceBack, Vector.PopBack,
        Vector.Reserve, Vector.Resize, assign_at, Vector.at_, Vector.begin, Vector.end_,
        Vector.Emplace;
      try case_decide; simpl; auto;
      unfold mbind, M_bind, bind, get_obj; rewrite ?Hv; simpl; done.
Qed.

Lemma post_Swap this other s :
  post (Vector.Swap this other s)
    (λ _ s', ∃ a b, objs s !! this = Some a ∧ objs s !! other = Some b ∧
                    s' = mkStore (mem s) (<[other := a]> (<[this := b]> (objs s))))
    (λ _, False).
Proof.
  destruct (objs s !! this) as [a|] eqn:Ha; [destruct (objs s !! other) as [b|] eqn:Hb|].
  - rewrite (Swap_eq _ _ a b) by done. simpl. by exists a, b.
  - unfold Vector.Swap, mbind, M_bind, bind, get_obj. by rewrite Ha, Hb.
  - unfold Vector.Swap, mbind, M_bind, bind, get_obj. by rewrite Ha.
Qed.

Lemma sizes_ok_swap this other a b m m' (o : gmap nat Vector.t) :
  o !! this = Some a → o !! other = Some b →
  sizes_ok (mkStore m o) → sizes_ok (mkStore m' (<[other := a]> (<[this := b]> o))).
Proof.
  intros Ha Hb Hok.
  apply (sizes_ok_insert other a (<[this := b]> o) m m'); [|by eapply Hok].
  apply (sizes_ok_insert this b o m m); [done|by eapply Hok].
Qed.

Lemma kept_same c s s' : objs s' = objs s → kept c s s'.
Proof.
  intros Ho. split; intros; [by eapply sizes_ok_objs|by apply capacity_kept_objs].
Qed.

(** The insertions, those that move from an element included. *)
Lemma insert_kept c this s :
  inserts c = Some this → post (perform c s) (λ _, kept c s) (kept c s).
Proof.
  intros Hc.
  destruct (objs s !! this) as [v|] eqn:Hv.
  - assert (∀ A (o : outcome (Store T W Vector.t) A),
      post o (λ _, field_effect this v s) (field_effect this v s) →
      post o (λ _, kept c s) (kept c s)) as Hweak.
    { intros A o Ho. eapply post_mono; [exact Ho|..]; simpl; intros;
        (split; intros; [by eapply fields_sizes_ok|by eapply fields_capacity_kept]). }
    assert (∀ args, post (Vector.EmplaceBack this args s)
              (λ _, field_effect this v s) (field_effect this v s)) as Hback.
    { intros args. unfold Vector.EmplaceBack, Vector.end_.
      apply post_bind, post_bind. rewrite (get_obj_eq _ _ _ Hv). simpl.
      by apply Emplace_fields. }
    destruct c; simplify_eq/=; apply Hweak.
    + eapply post_seq; [by apply Emplace_fields|]. by intros ? s1 H1.
    + eapply post_seq; [by apply Emplace_fields|]. by intros ? s1 H1.
    + eapply post_seq; [by apply Emplace_fields|]. by intros ? s1 H1.
    + eapply post_seq; [by apply Hback|]. by intros ? s1 H1.
    + unfold Vector.PushBack. eapply post_seq; [by apply Hback|]. by intros ? s1 H1.
  - destruct c; simplify_eq/=;
      unfold Vector.Insert_copy, Vector.Insert_move, Vector.PushBack, Vector.EmplaceBack,
        Vector.end_, Vector.Emplace;
      unfold mbind, M_bind, bind, get_obj; rewrite ?Hv; simpl; done.
Qed.

Lemma request_kept c s :
  post (perform c s) (λ _, kept c s) (kept c s).
Proof.
  destruct (mutates c) as [this|] eqn:Hm.
  { eapply post_mono; [by apply mutator_effect|..]; simpl.
    - intros _ s' [->|(v & Hv & He)]; [by apply kept_same|].
      split; intros; [by eapply effect_sizes_ok|by eapply effect_capacity_kept].
    - intros s' [->|(v & Hv & He)]; [by apply kept_same|].
      split; intros; [by eapply effect_sizes_ok|by eapply effect_capacity_kept]. }
  destruct (inserts c) as [this|] eqn:Hi; [by eapply insert_kept|].
  destruct c; simplify_eq/=.
  - (* Vector() *)
    apply post_new_obj. intros Hnone. split; intros.
    + apply (sizes_ok_insert _ _ _ (mem s)); [by apply sizes_ok_mem|done].
    + by apply capacity_kept_insert_new.
  - (* Vector(size_t) *)
    unfold Vector.ctor_size.
    eapply post_seq.
    { eapply post_mono; [apply (post_lift_init _ _ 0 0); lia| |].
      - intros data s1 H. exact H.
      - intros ? ->. by apply kept_same. }
    simpl. intros data s1 ([Ho _] & Hcap & _).
    eapply post_seq with (Qm := λ _ s2, objs s2 = objs s).
    + eapply post_keeps with (R := frameS 0 0).
      * keeps; wr.
      * intros _ s2 [-> _]. done.
      * intros s2 [H2 _]. apply kept_same. congruence.
    + intros _ s2 H2. apply post_new_obj. intros Hnone. rewrite H2 in *. split; intros.
      * apply (sizes_ok_insert _ _ _ (mem s)); [by apply sizes_ok_mem|].
        unfold capacity. simpl. lia.
      * by apply capacity_kept_insert_new.
  - (* Vector(const Vector&) *)
    unfold Vector.ctor_copy.
    apply post_bind, post_get_obj. intros o Ho. simpl.
    eapply post_seq with (Qm := λ v' s2, objs s2 = objs s ∧ Vector.size_ v' ≤ capacity v').
    + apply post_lift.
      eapply post_mono; [apply (copy_init_frame 0 0); lia|..]; simpl.
      * intros v' m1 (_ & Hsz & Hc & _). split; [done|lia].
      * intros m1 _. by apply kept_same.
    + intros v' s2 [H2 Hv']. apply post_new_obj. intros Hnone. rewrite H2 in *.
      split; intros.
      * apply (sizes_ok_insert _ _ _ (mem s)); [by apply sizes_ok_mem|done].
      * by apply capacity_kept_insert_new.
  - (* Vector(Vector&&) *)
    unfold Vector.ctor_move.
    apply post_bind, post_new_obj. intros Hnone. simpl.
    eapply post_mono; [apply post_Swap| |done].
    simpl. intros _ s' (a & b & Ha & Hb & ->). split; [|done]. intros Hok.
    simpl in *. eapply (sizes_ok_swap _ _ _ _ (mem s)); [done..|].
    apply (sizes_ok_insert _ _ _ (mem s)); [by apply sizes_ok_mem|].
    unfold capacity. simpl. lia.
  - (* ~Vector() *)
    unfold Vector.dtor.
    apply post_bind, post_get_obj. intros v Hv. simpl.
    eapply post_seq with (Qm := λ _ s2, objs s2 = objs s).
    + eapply post_keeps with (R := frameS 0 0).
      * unfold Vector.fini. keeps; wr.
      * intros _ s2 [-> _]. done.
      * intros s2 [H2 _]. by apply kept_same.
    + intros _ s2 H2. apply post_del_obj. intros _. split; [|done].
      intros Hok id w. simpl. rewrite H2. intros [_ Hw]%lookup_delete_Some. by eapply Hok.
  - (* operator=(Vector&&) *)
    unfold Vector.move_assign. case_decide; [|by apply kept_same].
    eapply post_mono; [apply post_Swap| |done].
    simpl. intros _ s' (a & b & Ha & Hb & ->). split; [|done]. intros Hok.
    eapply (sizes_ok_swap _ _ _ _ (mem s)); [done..|]. by apply sizes_ok_mem.
  - (* Swap *)
    eapply post_mono; [apply post_Swap| |done].
    simpl. intros _ s' (a & b & Ha & Hb & ->). split; [|done]. intros Hok.
    eapply (sizes_ok_swap _ _ _ _ (mem s)); [done..|]. by apply sizes_ok_mem.
  - (* Size *)
    unfold Vector.Size. apply post_bind, post_bind, post_get_obj. intros. by apply kept_same.
  - unfold Vector.Capacity. apply post_bind, post_bind, post_get_obj. intros. by apply kept_same.
  - unfold Vector.begin. apply post_bind, post_bind, post_get_obj. intros. by apply kept_same.
  - unfold Vector.end_. apply post_bind, post_bind, post_get_obj. intros. by apply kept_same.
  - eapply post_keeps with (R := frameS 0 0).
    + unfold Vector.at_. keeps.
    + intros _ s2 [H2 _]. by apply kept_same.
    + intros s2 [H2 _]. by apply kept_same.
Qed.

(** ** The invariant of the reachable states *)

Lemma sizes_ok_start (w : W) : sizes_ok (start (T:=T) w).
Proof. intros id v. simpl. by rewrite lookup_empty. Qed.

Lemma step_kept c s s' : after (perform c s) = Some s' → kept c s s'.
Proof.
  intros Hs. pose proof (request_kept c s) as H.
  destruct (perform c s); simplify_eq/=; done.
Qed.

Lemma reachable_sizes_ok s : reachable s → sizes_ok s.
Proof.
  induction 1 as [w|s c s' _ IH Hs]; [apply sizes_ok_start|].
  by apply (step_kept c s s').
Qed.

Lemma run_reachable cs s s' : reachable s → run cs s = Some s' → reachable s'.
Proof.
  revert s. induction cs as [|c cs IH]; intros s Hs; simpl.
  - by intros [= <-].
  - destruct (after (perform c s)) as [s1|] eqn:H1; [|done]. simpl.
    apply IH. by eapply reachable_step.
Qed.

(** C4. In every state reachable by calls of the public interface (each
    returning or throwing), every vector has [0 <= size_ <= capacity_]; and a
    call other than a move, a swap or a destruction leaves every vector a
    capacity no smaller than it had. *)
Theorem size_capacity_invariant s :
  reachable s →
  (∀ id v, objs s !! id = Some v →
     0 ≤ Vector.size_ v ≤ RawMemory.capacity_ (Vector.data_ v)) ∧
  (∀ c s', move_swap_or_destruction c = false →
     after (perform c s) = Some s' →
     ∀ id v, objs s !! id = Some v →
       ∃ v', objs s' !! id = Some v' ∧
             RawMemory.capacity_ (Vector.data_ v) ≤ RawMemory.capacity_ (Vector.data_ v')).
Proof.
  intros Hs. split.
  - intros id v Hv. split; [lia|]. by apply (reachable_sizes_ok s Hs id v).
  - intros c s' Hc Hstep. by apply (step_kept c s s').
Qed.
End Invariant.

(** * Self-assignment, growth, moves *)

Section Simple.
Context {T W : Type} {E : Element T W}.
Implicit Types s : Store T W Vector.t.
Implicit Types v : Vector.t.
Implicit Types m : Memory T W.

(** C10. Self-assignment, by copy or by move, returns at once and leaves the
    state as it is: size, capacity and elements of the vector, and all else. *)
Theorem self_assignment_noop s this :
  Vector.copy_assign this this s = Ret tt s ∧
  Vector.move_assign this this s = Ret tt s.
Proof.
  unfold Vector.copy_assign, Vector.move_assign. by case_decide.
Qed.

Lemma Emplace_full this v pos args s :
  objs s !! this = Some v →
  Vector.size_ v = RawMemory.capacity_ (Vector.data_ v) →
  post (Vector.Emplace this pos args s)
    (λ _ s', ∃ v', objs s' !! this = Some v' ∧
                   Vector.size_ v' = S (Vector.size_ v) ∧
                   capacity v' = 1 `max` (2 * Vector.size_ v))
    (λ _, True).
Proof.
  intros Hv Hfull. unfold Vector.Emplace.
  apply post_bind. rewrite (get_obj_eq _ _ _ Hv). simpl.
  apply post_bind, post_assert. intros _. simpl.
  case_decide; [|done].
  eapply post_seq with (Qm := λ _ s1,
    ∃ data, objs s1 = <[this := Vector.mk data (Vector.size_ v)]> (objs s) ∧
            RawMemory.capacity_ data = 1 `max` (2 * Vector.size_ v)).
  - eapply post_seq.
    { eapply post_mono; [apply (post_lift_init _ _ 0 0); lia| |done].
      intros data s1 Hd. exact Hd. }
    simpl. intros data s1 ([Ho _] & Hcap & _).
    eapply post_seq with (Qm := λ _ s2, objs s2 = objs s).
    { eapply post_keeps with (R := same_objs); [fields| |done].
      intros _ s2 H2. unfold same_objs in H2. congruence. }
    intros it s2 H2. apply post_bind, post_set_obj. intros _. simpl.
    eapply post_keeps with (R := same_objs); [fields| |done].
    intros _ s3 H3. unfold same_objs in H3. rewrite H3.
    exists data. simpl. rewrite H2. split; [done|].
    rewrite Hcap. case_decide; lia.
  - intros it s1 (data & Ho & Hcap).
    apply post_bind, post_get_obj. intros v1 Hv1. simpl.
    apply post_bind, post_set_obj. intros _. simpl.
    rewrite Ho, lookup_insert_eq in Hv1. injection Hv1 as <-.
    eexists. split; [by lookups|]. done.
Qed.

(** C6. A call that adds an element to a vector whose size equals its capacity
    and returns leaves the capacity at [max(1, 2 * size)], the size being the
    one before the call. *)
Theorem growth_doubles c this v s s' :
  inserts c = Some this →
  objs s !! this = Some v →
  Vector.size_ v = RawMemory.capacity_ (Vector.data_ v) →
  perform c s = Ret tt s' →
  capacity_of s' this = Some (1 `max` (2 * Vector.size_ v)) ∧
  size_of s' this = Some (S (Vector.size_ v)).
Proof.
  intros Hc Hv Hfull Hret.
  assert (post (perform c s)
    (λ _ s', ∃ v', objs s' !! this = Some v' ∧
                   Vector.size_ v' = S (Vector.size_ v) ∧
                   capacity v' = 1 `max` (2 * Vector.size_ v))
    (λ _, True)) as H.
  { destruct c; simplify_eq/=.
    - eapply post_seq; [by apply Emplace_full|]. by intros ? s1 H1.
    - eapply post_seq; [by apply Emplace_full|]. by intros ? s1 H1.
    - eapply post_seq; [by apply Emplace_full|]. by intros ? s1 H1.
    - unfold Vector.EmplaceBack, Vector.end_.
      apply post_bind, post_bind, post_bind. rewrite (get_obj_eq _ _ _ Hv). simpl.
      eapply post_mono; [by apply Emplace_full| |done]. by intros ? s1 H1.
    - unfold Vector.PushBack, Vector.EmplaceBack, Vector.end_.
      apply post_bind, post_bind, post_bind. rewrite (get_obj_eq _ _ _ Hv). simpl.
      eapply post_mono; [by apply Emplace_full| |done]. by intros ? s1 H1. }
  rewrite Hret in H. destruct H as (v' & Hv' & Hsz & Hcap).
  unfold capacity_of, size_of. rewrite Hv'. simpl. unfold capacity in Hcap. by rewrite Hsz, Hcap.
Qed.

(** C2, amended. Move construction of B from A gives B the elements of A in
    order and leaves A with size 0 (and capacity 0).  Move assignment
    [B = std::move(A)] of two distinct vectors swaps them: B gets the elements
    of A in order, and A is left with what B held, so with the size B had --
    size 0 when B was empty. *)
Theorem move_transfers s a va :
  objs s !! a = Some va →
  (∀ b, objs s !! b = None →
     ∃ s', Vector.ctor_move b a s = Ret tt s' ∧
           elements s' b = elements s a ∧
           size_of s' a = Some 0 ∧ capacity_of s' a = Some 0) ∧
  (∀ b vb, b ≠ a → objs s !! b = Some vb →
     ∃ s', Vector.move_assign b a s = Ret tt s' ∧
           elements s' b = elements s a ∧
           elements s' a = elements s b ∧
           size_of s' a = size_of s b ∧ capacity_of s' a = capacity_of s b).
Proof.
  intros Ha. split.
  - intros b Hb. assert (b ≠ a) by (intros ->; congruence).
    unfold Vector.ctor_move, mbind, M_bind, bind. rewrite (new_obj_eq _ _ _ Hb).
    rewrite (Swap_eq b a Vector.empty va) by by lookups.
    eexists. split; [done|]. unfold elements, size_of, capacity_of. simpl.
    rewrite Ha. lookups.
  - intros b vb Hne Hb.
    unfold Vector.move_assign. case_decide; [|done].
    rewrite (Swap_eq b a vb va) by done.
    eexists. split; [done|]. unfold elements, size_of, capacity_of. simpl.
    rewrite Ha, Hb. lookups.
Qed.
End Simple.

(** * [RawMemory] on its own *)

Section Raw.
Context {T W : Type} {E : Element T W}.
Implicit Types s : Store T W RawMemory.t.
Implicit Types r : RawMemory.t.

Lemma RawMemory_Swap_eq this other a b s :
  objs s !! this = Some a →
  objs s !! other = Some b →
  RawMemory.Swap this other s =
    Ret tt (mkStore (mem s) (<[other := a]> (<[this := b]> (objs s)))).
Proof.
  intros Ha Hb. unfold RawMemory.Swap, mbind, M_bind, bind, get_obj, set_obj.
  destruct (decide (this = other)) as [->|Hne].
  - assert (a = b) as -> by congruence.
    repeat (simpl; rewrite ?Hb, ?lookup_insert_eq).
    rewrite !insert_insert_eq. by destruct b.
  - assert (other ≠ this) by done.
    repeat (simpl; rewrite ?Ha, ?Hb, ?lookup_insert_eq, ?lookup_insert_ne by done).
    f_equal. f_equal. destruct a, b. simpl.
    apply map_eq. intros i.
    destruct (decide (i = other)) as [->|]; [by lookups|].
    destruct (decide (i = this)) as [->|]; by lookups.
Qed.

(** The constructors establish the invariant. *)
Lemma RawMemory_ctor_ok this capacity s :
  brk (mem s) ≠ 0 →
  post (RawMemory.ctor this capacity s)
    (λ _ s', ∃ r, objs s' !! this = Some r ∧ RawMemory.capacity_ r = capacity ∧ raw_ok r)
    (λ s', s' = s).
Proof.
  intros Hbrk. unfold RawMemory.ctor.
  eapply post_seq with (Qm := λ r _, RawMemory.capacity_ r = capacity ∧ raw_ok r).
  - apply post_lift. eapply post_mono; [apply (post_init _ _ 1 0); lia|..].
    + intros r m' (Hc & _ & Hz & Hnz). split; [done|]. unfold raw_ok. rewrite Hc.
      destruct (decide (capacity = 0)) as [Hn|Hn]; [by rewrite Hz|].
      specialize (Hnz Hn). lia.
    + intros m' ->. by destruct s.
  - intros r s1 [Hc Hok]. apply post_new_obj. intros _. exists r. by lookups.
Qed.

(** The move constructor takes the address and the capacity, and leaves the
    source empty; memory is untouched. *)
Lemma RawMemory_move_ctor_eq this other o s :
  objs s !! other = Some o →
  objs s !! this = None →
  RawMemory.move_ctor this other s =
    Ret tt (mkStore (mem s) (<[other := RawMemory.empty]> (<[this := o]> (objs s)))).
Proof.
  intros Ho Hnone. assert (this ≠ other) by (intros ->; congruence).
  unfold RawMemory.move_ctor, mbind, M_bind, bind, get_obj, set_obj, new_obj.
  repeat (simpl; rewrite ?Ho, ?Hnone, ?lookup_insert_eq, ?lookup_insert_ne by done).
  rewrite insert_insert_eq. by destruct o.
Qed.

End Raw.

(** * What the algorithms compute *)

Lemma total_seq {S A B} (m : M S A) (f : A → M S B) s Qm Q E :
  total (m s) Qm E → (∀ a s1, Qm a s1 → total (f a s1) Q E) → total ((m ≫= f) s) Q E.
Proof. intros Hm Hf. apply total_bind. eapply total_mono; [exact Hm|..]; auto. Qed.

(** Two heaps built by insertions are equal when they agree at every
    address. *)
Ltac heap_eq :=
  apply map_eq; intros ?;
  repeat (rewrite lookup_insert; case_decide; simplify_eq); try done.

(** A heap built by insertions keeps the blocks it had. *)
Ltac alive_heap :=
  intros ? ?; simpl; repeat (rewrite lookup_insert; case_decide); eauto.

Section Exec.
Context {T W : Type} {E : Element T W}.
Implicit Types m : Memory T W.
Implicit Types h : gmap nat (list (option T)).
Implicit Types l : list (option T).
Implicit Types xs : list T.

Lemma total_peek b i m l c (Q : option T → Memory T W → Prop) E' :
  heap m !! b = Some l → l !! i = Some c → Q c m → total (peek (Ptr b i) m) Q E'.
Proof.
  intros Hb Hi HQ. unfold peek, slot. simpl. rewrite Hb. simpl. by rewrite Hi.
Qed.

Lemma total_load b i m l x (Q : T → Memory T W → Prop) E' :
  heap m !! b = Some l → l !! i = Some (Some x) → Q x m → total (load (Ptr b i) m) Q E'.
Proof.
  intros Hb Hi HQ. apply total_bind. eapply total_peek; [done..|]. done.
Qed.

Lemma total_poke b i m l c (Q : unit → Memory T W → Prop) E' :
  heap m !! b = Some l → i < length l →
  Q tt (mkMemory (<[b := <[i := c]> l]> (heap m)) (brk m) (world m)) →
  total (poke (Ptr b i) c m) Q E'.
Proof.
  intros Hb Hi HQ. unfold poke. simpl. rewrite Hb. by case_decide.
Qed.

Lemma total_call k x m (Q : unit → Memory T W → Prop) E' :
  cannot_throw k →
  (∀ w, Q tt (mkMemory (heap m) (brk m) w)) →
  total (call k x m) Q E'.
Proof.
  intros Hk HQ. unfold call. destruct (may_throw k) eqn:Hm.
  - destruct Hk as [?|Hk]; [congruence|]. specialize (Hk x (world m)).
    destruct (attempt k x (world m)) as [ok w]. simpl in Hk. subst ok. apply HQ.
  - destruct m. apply HQ.
Qed.

Lemma total_construct_at b i k x m l (Q : unit → Memory T W → Prop) E' :
  cannot_throw k →
  heap m !! b = Some l → i < length l →
  (∀ w, Q tt (mkMemory (<[b := <[i := Some x]> l]> (heap m)) (brk m) w)) →
  total (construct_at (Ptr b i) k x m) Q E'.
Proof.
  intros Hk Hb Hi HQ. unfold construct_at.
  destruct (lookup_lt_is_Some_2 l i Hi) as [c Hc].
  apply total_bind. eapply total_peek; [done..|].
  apply total_bind, total_call; [done|]. intros w.
  eapply total_poke; [done..|]. apply HQ.
Qed.

Lemma total_destroy_at b i m l x (Q : unit → Memory T W → Prop) E' :
  heap m !! b = Some l → l !! i = Some (Some x) →
  Q tt (mkMemory (<[b := <[i := None]> l]> (heap m)) (brk m) (world m)) →
  total (destroy_at (Ptr b i) m) Q E'.
Proof.
  intros Hb Hi HQ. unfold destroy_at.
  apply total_bind. eapply total_load; [done..|].
  eapply total_poke; [done|by eapply lookup_lt_Some|done].
Qed.

(** [destroy_n] turns a run of live slots into raw ones. *)
Lemma total_destroy_n xs b i m pre post (Q : unit → Memory T W → Prop) E' :
  heap m !! b = Some (pre ++ (Some <$> xs) ++ post) →
  length pre = i →
  Q tt (mkMemory (<[b := pre ++ replicate (length xs) None ++ post]> (heap m))
                 (brk m) (world m)) →
  total (destroy_n (Ptr b i) (length xs) m) Q E'.
Proof.
  revert i m pre. induction xs as [|x xs IH]; intros i m pre Hb Hi HQ; simpl in *.
  - rewrite insert_id in HQ by done. by destruct m.
  - apply total_bind. eapply total_destroy_at; [done| |].
    { rewrite lookup_app_r by lia. by replace (i - length pre) with 0 by lia. }
    unfold ptr_add. simpl.
    eapply (IH (i + 1) _ (pre ++ [None])).
    + simpl. rewrite lookup_insert_eq. f_equal.
      rewrite insert_app_r_alt by lia. replace (i - length pre) with 0 by lia.
      simpl. by rewrite <-app_assoc.
    + rewrite length_app. simpl. lia.
    + simpl. rewrite insert_insert_eq. by rewrite <-app_assoc.
Qed.

Lemma total_uninitialized_copy_from xs k bs so bd do m ps qs pd rd qd
    (Q : unit → Memory T W → Prop) E' :
  cannot_throw CopyCtor → bs ≠ bd →
  heap m !! bs = Some (ps ++ (Some <$> xs) ++ qs) → length ps = so + k →
  heap m !! bd = Some (pd ++ rd ++ qd) → length pd = do + k →
  length rd = length xs →
  (∀ w, Q tt (mkMemory (<[bd := pd ++ (Some <$> xs) ++ qd]> (heap m)) (brk m) w)) →
  total (uninitialized_copy_from k (length xs) (Ptr bs so) (Ptr bd do) m) Q E'.
Proof.
  intros Hk Hne. revert k m ps pd rd.
  induction xs as [|x xs IH]; intros k m ps pd rd Hs Hps Hd Hpd Hrd HQ; simpl in *.
  - destruct rd; [|done]. simpl in *. specialize (HQ (world m)).
    rewrite insert_id in HQ by done. by destruct m.
  - destruct rd as [|r rd]; [done|]. simpl in *.
    apply total_bind, total_try_catch. unfold copy_construct, ptr_add. simpl.
    apply total_bind. eapply total_load; [done| |].
    { rewrite lookup_app_r by lia. by replace (so + k - length ps) with 0 by lia. }
    eapply total_construct_at; [done..| |].
    { rewrite length_app. simpl. lia. }
    intros w.
    eapply (IH (S k) _ (ps ++ [Some x]) (pd ++ [Some x]) rd).
    + simpl. rewrite lookup_insert_ne by done. rewrite Hs. by rewrite <-app_assoc.
    + rewrite length_app. simpl. lia.
    + simpl. rewrite lookup_insert_eq. f_equal.
      rewrite insert_app_r_alt by lia. replace (do + k - length pd) with 0 by lia.
      simpl. by rewrite <-app_assoc.
    + rewrite length_app. simpl. lia.
    + lia.
    + intros w'. simpl. rewrite insert_insert_eq. rewrite <-app_assoc. apply HQ.
Qed.

Lemma total_uninitialized_move_from xs k bs so bd do m ps qs pd rd qd
    (Q : unit → Memory T W → Prop) E' :
  cannot_throw MoveCtor → bs ≠ bd →
  heap m !! bs = Some (ps ++ (Some <$> xs) ++ qs) → length ps = so + k →
  heap m !! bd = Some (pd ++ rd ++ qd) → length pd = do + k →
  length rd = length xs →
  (∀ w, Q tt (mkMemory (<[bs := ps ++ (Some <$> (moved_from <$> xs)) ++ qs]>
                          (<[bd := pd ++ (Some <$> xs) ++ qd]> (heap m))) (brk m) w)) →
  total (uninitialized_move_from k (length xs) (Ptr bs so) (Ptr bd do) m) Q E'.
Proof.
  intros Hk Hne. revert k m ps pd rd.
  induction xs as [|x xs IH]; intros k m ps pd rd Hs Hps Hd Hpd Hrd HQ; simpl in *.
  - destruct rd; [|done]. simpl in *. specialize (HQ (world m)).
    rewrite !insert_id in HQ by (rewrite ?lookup_insert_ne; done). by destruct m.
  - destruct rd as [|r rd]; [done|]. simpl in *.
    apply total_bind, total_try_catch. unfold move_construct, ptr_add. simpl.
    apply total_bind. eapply total_load; [done| |].
    { rewrite lookup_app_r by lia. by replace (so + k - length ps) with 0 by lia. }
    apply total_bind.
    eapply total_construct_at; [done..| |].
    { rewrite length_app. simpl. lia. }
    intros w.
    eapply total_poke.
    { simpl. rewrite lookup_insert_ne by done. exact Hs. }
    { rewrite length_app. simpl. lia. }
    simpl.
    eapply (IH (S k) _ (ps ++ [Some (moved_from x)]) (pd ++ [Some x]) rd).
    + simpl. rewrite lookup_insert_eq. f_equal.
      rewrite insert_app_r_alt by lia. replace (so + k - length ps) with 0 by lia.
      simpl. by rewrite <-app_assoc.
    + rewrite length_app. simpl. lia.
    + simpl. rewrite lookup_insert_ne by done. rewrite lookup_insert_eq. f_equal.
      rewrite insert_app_r_alt by lia. replace (do + k - length pd) with 0 by lia.
      simpl. by rewrite <-app_assoc.
    + rewrite length_app. simpl. lia.
    + lia.
    + intros w'. simpl. specialize (HQ w').
      rewrite <-!app_assoc. simpl.
      match goal with
      | H : Q tt (mkMemory ?h1 _ _) |- Q tt (mkMemory ?h2 _ _) =>
          replace h2 with h1; [exact H|]
      end.
      heap_eq.
Qed.

(** The same algorithms for an element type whose calls may throw: the
    exception leaves the blocks in place, and what a constructing loop has
    built is destroyed again. *)
Lemma alive_trans m1 m2 m3 : alive m1 m2 → alive m2 m3 → alive m1 m3.
Proof. intros H1 H2 a Ha. by apply H2, H1. Qed.

Lemma excuses_alive (X : Memory T W → Prop) k m m1 :
  alive m m1 → excuses X k m → excuses X k m1.
Proof.
  intros Ha [Hk|Hx]; [by left|right]. intros m' Hm'. apply Hx. by eapply alive_trans.
Qed.

Lemma total_call_any k x m (Q : unit → Memory T W → Prop) E' :
  cannot_throw k ∨ (∀ w, E' (mkMemory (heap m) (brk m) w)) →
  (∀ w, Q tt (mkMemory (heap m) (brk m) w)) →
  total (call k x m) Q E'.
Proof.
  intros Hk HQ. unfold call. destruct (may_throw k) eqn:Hm.
  - destruct (attempt k x (world m)) as [ok w] eqn:Ha. destruct ok; [apply HQ|].
    destruct Hk as [[?|Hk]|Hx]; [congruence| |apply Hx].
    specialize (Hk x (world m)). by rewrite Ha in Hk.
  - destruct m. apply HQ.
Qed.

Lemma total_construct_at_any b i k x m l (Q : unit → Memory T W → Prop) E' :
  cannot_throw k ∨ (∀ w, E' (mkMemory (heap m) (brk m) w)) →
  heap m !! b = Some l → i < length l →
  (∀ w, Q tt (mkMemory (<[b := <[i := Some x]> l]> (heap m)) (brk m) w)) →
  total (construct_at (Ptr b i) k x m) Q E'.
Proof.
  intros Hk Hb Hi HQ. unfold construct_at.
  destruct (lookup_lt_is_Some_2 l i Hi) as [c Hc].
  apply total_bind. eapply total_peek; [done..|].
  apply total_bind, total_call_any; [done|]. intros w.
  eapply total_poke; [done..|]. apply HQ.
Qed.

Lemma total_uninitialized_copy_from_any xs k bs so bd do m ps qs pd built rd qd
    (Q : unit → Memory T W → Prop) E' :
  excuses E' CopyCtor m → bs ≠ bd →
  heap m !! bs = Some (ps ++ (Some <$> xs) ++ qs) → length ps = so + k →
  heap m !! bd = Some (pd ++ (Some <$> built) ++ rd ++ qd) →
  length pd = do → length built = k → length rd = length xs →
  (∀ w, Q tt (mkMemory (<[bd := pd ++ (Some <$> built ++ xs) ++ qd]> (heap m)) (brk m) w)) →
  total (uninitialized_copy_from k (length xs) (Ptr bs so) (Ptr bd do) m) Q E'.
Proof.
  intros Hx Hne. revert k m ps built rd Hx.
  induction xs as [|x xs IH]; intros k m ps built rd Hx Hs Hps Hd Hpd Hbuilt Hrd HQ;
    simpl in *.
  - destruct rd; [|done]. simpl in *. specialize (HQ (world m)).
    rewrite app_nil_r in HQ. rewrite insert_id in HQ by done. by destruct m.
  - destruct rd as [|r rd]; [done|]. simpl in *.
    apply total_bind, total_try_catch. unfold copy_construct, ptr_add. simpl.
    apply total_bind. eapply total_load; [done| |].
    { rewrite lookup_app_r by lia. by replace (so + k - length ps) with 0 by lia. }
    eapply total_construct_at_any; [|done| |].
    { destruct Hx as [Hk|Hx]; [by left|right]. intros w.
      apply total_bind. rewrite <-Hbuilt.
      eapply (total_destroy_n built bd do _ pd); [done|done|].
      simpl. apply Hx. alive_heap. }
    { rewrite !length_app, length_fmap. simpl. lia. }
    intros w.
    eapply (IH (S k) _ (ps ++ [Some x]) (built ++ [x]) rd).
    + eapply excuses_alive; [|done]. alive_heap.
    + simpl. rewrite lookup_insert_ne by done. rewrite Hs. by rewrite <-app_assoc.
    + rewrite length_app. simpl. lia.
    + simpl. rewrite lookup_insert_eq. f_equal.
      rewrite insert_app_r_alt by lia.
      rewrite insert_app_r_alt by (rewrite length_fmap; lia).
      rewrite length_fmap. replace (do + k - length pd - length built) with 0 by lia.
      simpl. rewrite fmap_app. simpl. by rewrite <-!app_assoc.
    + done.
    + rewrite length_app. simpl. lia.
    + lia.
    + intros w'. simpl. rewrite insert_insert_eq. rewrite <-app_assoc. apply HQ.
Qed.

Lemma total_uninitialized_move_from_any xs k bs so bd do m ps qs pd built rd qd
    (Q : unit → Memory T W → Prop) E' :
  excuses E' MoveCtor m → bs ≠ bd →
  heap m !! bs = Some (ps ++ (Some <$> xs) ++ qs) → length ps = so + k →
  heap m !! bd = Some (pd ++ (Some <$> built) ++ rd ++ qd) →
  length pd = do → length built = k → length rd = length xs →
  (∀ w, Q tt (mkMemory (<[bs := ps ++ (Some <$> (moved_from <$> xs)) ++ qs]>
                          (<[bd := pd ++ (Some <$> built ++ xs) ++ qd]> (heap m)))
                       (brk m) w)) →
  total (uninitialized_move_from k (length xs) (Ptr bs so) (Ptr bd do) m) Q E'.
Proof.
  intros Hx Hne. revert k m ps built rd Hx.
  induction xs as [|x xs IH]; intros k m ps built rd Hx Hs Hps Hd Hpd Hbuilt Hrd HQ;
    simpl in *.
  - destruct rd; [|done]. simpl in *. specialize (HQ (world m)).
    rewrite app_nil_r in HQ.
    rewrite !insert_id in HQ by (rewrite ?lookup_insert_ne; done). by destruct m.
  - destruct rd as [|r rd]; [done|]. simpl in *.
    apply total_bind, total_try_catch. unfold move_construct, ptr_add. simpl.
    apply total_bind. eapply total_load; [done| |].
    { rewrite lookup_app_r by lia. by replace (so + k - length ps) with 0 by lia. }
    apply total_bind.
    eapply total_construct_at_any; [|done| |].
    { destruct Hx as [Hk|Hx]; [by left|right]. intros w.
      apply total_bind. rewrite <-Hbuilt.
      eapply (total_destroy_n built bd do _ pd); [done|done|].
      simpl. apply Hx. alive_heap. }
    { rewrite !length_app, length_fmap. simpl. lia. }
    intros w.
    eapply total_poke.
    { simpl. rewrite lookup_insert_ne by done. exact Hs. }
    { rewrite length_app. simpl. lia. }
    simpl.
    eapply (IH (S k) _ (ps ++ [Some (moved_from x)]) (built ++ [x]) rd).
    + eapply excuses_alive; [|done]. alive_heap.
    + simpl. rewrite lookup_insert_eq. f_equal.
      rewrite insert_app_r_alt by lia. replace (so + k - length ps) with 0 by lia.
      simpl. by rewrite <-app_assoc.
    + rewrite length_app. simpl. lia.
    + simpl. rewrite lookup_insert_ne by done. rewrite lookup_insert_eq. f_equal.
      rewrite insert_app_r_alt by lia.
      rewrite insert_app_r_alt by (rewrite length_fmap; lia).
      rewrite length_fmap. replace (do + k - length pd - length built) with 0 by lia.
      simpl. rewrite fmap_app. simpl. by rewrite <-!app_assoc.
    + done.
    + rewrite length_app. simpl. lia.
    + lia.
    + intros w'. simpl. specialize (HQ w').
      rewrite <-!app_assoc. simpl.
      match goal with
      | H : Q tt (mkMemory ?h1 _ _) |- Q tt (mkMemory ?h2 _ _) =>
          replace h2 with h1; [exact H|]
      end.
      heap_eq.
Qed.
End Exec.

(** * [Reserve] *)

Section Reserve.
Context {T W : Type} {E : Element T W}.
Implicit Types s : Store T W Vector.t.
Implicit Types v : Vector.t.
Implicit Types m : Memory T W.
Implicit Types l : list T.

Lemma read_n_slots_of l (post : list (option T)) : read_n ((Some <$> l) ++ post) (length l) = Some l.
Proof.
  induction l as [|x l IH]; csimpl; [done|]. by rewrite IH.
Qed.

Lemma owns_contents m v l : owns m v l → contents m v = Some l.
Proof.
  intros (Hlen & Hsz & Hbrk & Hblk). unfold contents, block. rewrite <-Hlen.
  case_decide as Hc.
  - assert (l = []) as -> by (apply nil_length_inv; unfold capacity in *; lia). done.
  - destruct Hblk as [_ Hblk]. unfold buffer in Hblk. rewrite Hblk. simpl.
    apply read_n_slots_of.
Qed.

Lemma total_operator_delete buf m (sl : list (option T)) (Q : unit → Memory T W → Prop) E' :
  heap m !! buf = Some sl → buf ≠ 0 →
  Q tt (mkMemory (delete buf (heap m)) (brk m) (world m)) →
  total (operator_delete buf m) Q E'.
Proof.
  intros Hb Hn HQ. unfold operator_delete. case_decide; [done|]. by rewrite Hb.
Qed.

(** The elements go to a new block, a move or a copy each. *)
Lemma total_relocate xs bs bd m qs n (Q : unit → Memory T W → Prop) E' :
  excuses E' relocation m → bs ≠ bd →
  heap m !! bs = Some ((Some <$> xs) ++ qs) →
  heap m !! bd = Some (replicate n None) →
  length xs ≤ n →
  (∀ ys w, length ys = length xs →
     Q tt (mkMemory (<[bs := (Some <$> ys) ++ qs]>
                       (<[bd := slots_of xs n]> (heap m))) (brk m) w)) →
  total ((if Vector.relocate_by_move
          then uninitialized_move_n (Ptr bs 0) (length xs) (Ptr bd 0)
          else uninitialized_copy_n (Ptr bs 0) (length xs) (Ptr bd 0)) m) Q E'.
Proof.
  intros Hk Hne Hs Hd Hn HQ. unfold relocation in Hk.
  assert (replicate n None = [] ++ (Some <$> []) ++ replicate (length xs) None ++
            replicate (n - length xs) (@None T)) as Hrep.
  { simpl. rewrite <-replicate_add. f_equal. lia. }
  rewrite Hrep in Hd.
  destruct Vector.relocate_by_move.
  - eapply (total_uninitialized_move_from_any xs 0 bs 0 bd 0 m [] _ [] []); try done.
    + by rewrite length_replicate.
    + intros w. simpl. apply (HQ (moved_from <$> xs)). by rewrite length_fmap.
  - eapply (total_uninitialized_copy_from_any xs 0 bs 0 bd 0 m [] _ [] []); try done.
    + by rewrite length_replicate.
    + intros w. simpl. specialize (HQ xs w eq_refl).
      rewrite insert_insert_ne, (insert_id _ bs) in HQ by done. exact HQ.
Qed.

Lemma lift_if {A O} (b : bool) (x y : M (Memory T W) A) :
  (if b then lift (O:=O) x else lift y) = lift (if b then x else y).
Proof. by destruct b. Qed.

(** [Reserve(n)] beyond the capacity, for every element type: it returns
    with the elements in a block of [n] slots, or an exception propagates,
    from [operator new] before anything is done, or from the constructor
    that relocates, [X] saying what is known then. *)
Lemma Reserve_total this v l n s (X : Store T W Vector.t → Prop) :
  objs s !! this = Some v →
  owns (mem s) v l →
  capacity v < n →
  fits n →
  served n ∨ X s →
  cannot_throw relocation ∨ (∀ m', X (mkStore m' (objs s))) →
  total (Vector.Reserve this n s)
    (λ _ s', ∃ v', objs s' = <[this := v']> (objs s) ∧
                   capacity v' = n ∧ Vector.size_ v' = Vector.size_ v ∧
                   owns (mem s') v' l)
    X.
Proof.
  intros Hv (Hlen & Hsz & Hbrk & Hblk) Hn Hfit Hnew Hk. unfold Vector.Reserve.
  apply total_bind. rewrite (get_obj_eq _ _ _ Hv). simpl.
  destruct (decide (n ≤ _)); [unfold capacity, RawMemory.Capacity in *; lia|].
  unfold Vector.CreateCopy.
  apply total_bind, total_bind. rewrite (get_obj_eq _ _ _ Hv). simpl.
  apply total_bind, total_lift. apply total_init; [lia|done| |].
  { destruct Hnew; [by left|right]. by rewrite store_eta. }
  simpl.
  set (bd := brk (mem s)). set (bs := buffer v).
  set (data := RawMemory.mk bd n).
  assert (Hfinal : ∀ h (w : W) sz,
    sz = Vector.size_ v →
    h !! bd = Some (slots_of l n) →
    ∃ v0, <[this := Vector.mk data sz]> (objs s) = <[this := v0]> (objs s) ∧
          capacity v0 = n ∧ Vector.size_ v0 = sz ∧
          owns (mkMemory h (S bd) w) v0 l).
  { intros h w sz -> Hh. exists (Vector.mk data (Vector.size_ v)). split_and!; try done.
    unfold owns, capacity, buffer in *. simpl in *. split_and!; try done; [lia..|].
    destruct (decide (n = 0)); [lia|]. split; [lia|done]. }
  apply total_bind, total_unwinding. rewrite <-Hlen.
  destruct (decide (capacity v = 0)) as [Hc0|Hc0].
  - (* no block yet *)
    assert (l = []) as -> by (apply nil_length_inv; lia).
    unfold uninitialized_move_n, uninitialized_copy_n. simpl.
    replace (if Vector.relocate_by_move then lift (O:=Vector.t) (ret (S:=Memory T W) tt)
             else lift (ret tt)) with (lift (O:=Vector.t) (ret (S:=Memory T W) tt))
      by (by destruct Vector.relocate_by_move).
    simpl. apply total_bind. rewrite (set_obj_eq _ _ v) by done. simpl.
    unfold RawMemory.fini, RawMemory.Deallocate, operator_delete, lift. simpl.
    unfold bs, buffer in Hblk. rewrite Hblk. simpl.
    apply Hfinal; [done|]. rewrite lookup_insert_eq. unfold slots_of. simpl.
    by rewrite Nat.sub_0_r.
  - destruct Hblk as [Hbs0 Hblk]. fold bs in Hblk, Hbs0, Hbrk.
    assert (bs ≠ bd) by (unfold bd; lia).
    rewrite lift_if. apply total_lift. simpl.
    eapply (total_relocate l bs bd _ _ n); [|done| | | |].
    { (* the exception leaves the new block to the destructor of [data] *)
      destruct Hk as [Hk|Hx]; [by left|right]. intros m' Hal.
      destruct (Hal bd) as [sl Hsl]; [simpl; rewrite lookup_insert_eq; eauto|].
      apply total_lift. simpl.
      eapply total_operator_delete; [exact Hsl|unfold data, bd; simpl; lia|].
      simpl. apply Hx. }
    { simpl. rewrite lookup_insert_ne by done. exact Hblk. }
    { simpl. by rewrite lookup_insert_eq. }
    { unfold capacity in *. lia. }
    intros ys w Hys. simpl.
    apply total_bind. rewrite (set_obj_eq _ _ v) by done. simpl.
    apply total_bind, total_lift. simpl. rewrite <-Hys.
    eapply (total_destroy_n ys bs 0 _ []); [simpl; by rewrite lookup_insert_eq|done|].
    simpl. apply total_lift.
    eapply total_operator_delete; [simpl; by rewrite lookup_insert_eq|done|].
    simpl. apply Hfinal; [lia|]. fold bs.
    rewrite lookup_delete_ne by done. rewrite !lookup_insert_ne by done.
    by rewrite lookup_insert_eq.
Qed.

Lemma Reserve_noop this v n s :
  objs s !! this = Some v → n ≤ capacity v → Vector.Reserve this n s = Ret tt s.
Proof.
  intros Hv Hn. unfold Vector.Reserve, mbind, M_bind, bind.
  rewrite (get_obj_eq _ _ _ Hv). by destruct (decide (n ≤ _)).
Qed.

Lemma total_returns {S A} (o : outcome S A) (Q : A → S → Prop) :
  total o Q (λ _, False) → ∃ a (st : S), o = Ret a st ∧ Q a st.
Proof. destruct o as [a st| |]; simpl; [|done..]. intros H. by exists a, st. Qed.

(** What a call has established, by its outcome. *)
Lemma total_on_return {S A} (o : outcome S A) a (st : S) (Q : A → S → Prop) (E' : S → Prop) :
  o = Ret a st → total o Q E' → Q a st.
Proof. by intros ->. Qed.

Lemma total_on_throw {S A} (o : outcome S A) (st : S) (Q : A → S → Prop) (E' : S → Prop) :
  o = Throw st → total o Q E' → E' st.
Proof. by intros ->. Qed.

Lemma total_thrown {S A} (o : outcome S A) (Q : A → S → Prop) (E' : S → Prop) :
  total o Q E' → returns o = false → ∃ st : S, o = Throw st ∧ E' st.
Proof. destruct o as [a st|st|]; simpl; [done| |done]. intros H _. by exists st. Qed.

Lemma total_ret {S A} (o : outcome S A) (Q : A → S → Prop) (E' : S → Prop) :
  total o Q E' → returns o = true → ∃ a (st : S), o = Ret a st ∧ Q a st.
Proof. destruct o as [a st| |]; simpl; [|done..]. intros H _. by exists a, st. Qed.

(** What a caller reads of a vector that [owns] its elements. *)
Lemma owns_observed this v l s :
  objs s !! this = Some v → owns (mem s) v l →
  elements s this = Some l ∧ size_of s this = Some (length l) ∧
  capacity_of s this = Some (capacity v).
Proof.
  intros Hv Hown. unfold elements, size_of, capacity_of. rewrite Hv. simpl.
  rewrite (owns_contents _ _ _ Hown). destruct Hown as [-> _]. done.
Qed.

(** C7, amended. [Reserve(n)] is a no-op when [n] is at most the capacity.
    Otherwise, [n * sizeof(T)] being a [size_t], it returns with the capacity
    exactly [n], the size and the sequence of elements being what they
    were, or it throws, the size and the capacity being what they were;
    it violates no contract.  It returns whenever [operator new] serves
    the request and the constructor that relocates the elements does not
    throw. *)
Theorem Reserve_spec this v l n s :
  objs s !! this = Some v →
  owns (mem s) v l →
  (n ≤ capacity v → Vector.Reserve this n s = Ret tt s) ∧
  (capacity v < n → fits n →
     total (Vector.Reserve this n s)
       (λ _ s', capacity_of s' this = Some n ∧
                size_of s' this = size_of s this ∧
                elements s' this = elements s this ∧
                elements s this = Some l)
       (λ s', size_of s' this = size_of s this ∧
              capacity_of s' this = capacity_of s this) ∧
     (served n → cannot_throw relocation →
        returns (Vector.Reserve this n s) = true)).
Proof.
  intros Hv Hown. split; [by apply Reserve_noop|].
  intros Hn Hfit. split.
  - eapply total_mono.
    + apply (Reserve_total this v l n s (λ s', objs s' = objs s)); auto.
    + simpl. intros _ s' (v' & Ho & Hcap & Hsz & Hown').
      unfold capacity_of, size_of, elements. rewrite Ho, Hv, lookup_insert_eq. simpl.
      rewrite (owns_contents _ _ _ Hown), (owns_contents _ _ _ Hown').
      unfold capacity in Hcap. by rewrite Hcap, Hsz.
    + simpl. intros s' Ho. unfold capacity_of, size_of. by rewrite Ho.
  - intros Hnew Hk.
    pose proof (Reserve_total this v l n s (λ _, False) Hv Hown Hn Hfit
                  (or_introl Hnew) (or_introl Hk)) as H.
    by destruct (Vector.Reserve this n s).
Qed.
End Reserve.

(** * [Erase] *)

Section Erase.
Context {T W : Type} {E : Element T W}.
Implicit Types s : Store T W Vector.t.
Implicit Types v : Vector.t.
Implicit Types m : Memory T W.
Implicit Types l xs : list T.

Lemma total_assign_value_any b i k x y m (sl : list (option T))
    (Q : unit → Memory T W → Prop) E' :
  cannot_throw k ∨ (∀ w, E' (mkMemory (heap m) (brk m) w)) →
  heap m !! b = Some sl → sl !! i = Some (Some y) →
  (∀ w, Q tt (mkMemory (<[b := <[i := Some x]> sl]> (heap m)) (brk m) w)) →
  total (assign_value (Ptr b i) k x m) Q E'.
Proof.
  intros Hk Hb Hi HQ. unfold assign_value.
  apply total_bind. eapply total_load; [done..|].
  apply total_bind, total_call_any; [done|]. intros w.
  eapply total_poke; [done|by eapply lookup_lt_Some|]. apply HQ.
Qed.

Lemma total_assign_value b i k x y m (sl : list (option T))
    (Q : unit → Memory T W → Prop) E' :
  cannot_throw k →
  heap m !! b = Some sl → sl !! i = Some (Some y) →
  (∀ w, Q tt (mkMemory (<[b := <[i := Some x]> sl]> (heap m)) (brk m) w)) →
  total (assign_value (Ptr b i) k x m) Q E'.
Proof. intros Hk. apply total_assign_value_any. by left. Qed.

Lemma total_move_from xs k b d m (pre post : list (option T)) a
    (Q : unit → Memory T W → Prop) E' :
  excuses E' MoveAssign m →
  heap m !! b = Some (pre ++ Some a :: (Some <$> xs) ++ post) →
  length pre = d + k →
  (∀ w, Q tt (mkMemory (<[b := pre ++ (Some <$> xs) ++ Some (left_behind a xs) :: post]>
                          (heap m)) (brk m) w)) →
  total (move_from k (length xs) (Ptr b (S d)) (Ptr b d) m) Q E'.
Proof.
  revert k m pre a.
  induction xs as [|x xs IH]; intros k m pre a Hk Hb Hpre HQ; simpl in *.
  - specialize (HQ (world m)). rewrite insert_id in HQ by done. by destruct m.
  - apply total_bind. unfold move_assign, ptr_add. simpl.
    apply total_bind. eapply total_load; [done| |].
    { rewrite lookup_app_r by lia. by replace (S (d + k) - length pre) with 1 by lia. }
    apply total_bind.
    eapply total_assign_value_any; [|done| |].
    { destruct Hk as [Hk|Hx]; [by left|right]. intros w. apply Hx. alive_heap. }
    { rewrite lookup_app_r by lia. by replace (d + k - length pre) with 0 by lia. }
    intros w.
    eapply total_poke.
    { simpl. by rewrite lookup_insert_eq. }
    { rewrite length_insert, length_app. simpl. lia. }
    simpl.
    eapply (IH (S k) _ (pre ++ [Some x]) (moved_from x)).
    + eapply excuses_alive; [|done]. alive_heap.
    + simpl. rewrite lookup_insert_eq. f_equal.
      rewrite insert_app_r_alt by lia. replace (d + k - length pre) with 0 by lia.
      rewrite insert_app_r_alt by lia. replace (S (d + k) - length pre) with 1 by lia.
      simpl. by rewrite <-app_assoc.
    + rewrite length_app. simpl. lia.
    + intros w'. simpl. rewrite !insert_insert_eq. rewrite <-app_assoc. apply HQ.
Qed.

(** [Erase] at a valid position, for every element type: it returns with
    the element removed, or a move assignment throws, [X] saying what is
    known then. *)
Lemma Erase_total this v l i s (X : Store T W Vector.t → Prop) :
  objs s !! this = Some v →
  owns (mem s) v l →
  i < length l →
  cannot_throw MoveAssign ∨ (∀ m', X (mkStore m' (objs s))) →
  total (Vector.Erase this (Ptr (buffer v) i) s)
    (λ it s', it = Ptr (buffer v) i ∧
              ∃ v', objs s' = <[this := v']> (objs s) ∧
                    Vector.data_ v' = Vector.data_ v ∧
                    Vector.size_ v' = Vector.size_ v - 1 ∧
                    owns (mem s') v' (delete i l))
    X.
Proof.
  intros Hv (Hlen & Hsz & Hbrk & Hblk) Hi Hk.
  destruct (decide (capacity v = 0)) as [|Hc]; [lia|]. destruct Hblk as [Hb0 Hblk].
  destruct (lookup_lt_is_Some_2 l i Hi) as [a Ha].
  unfold buffer, capacity in *.
  unfold Vector.Erase, Vector.begin, Vector.end_.
  apply total_bind, total_bind. rewrite (get_obj_eq _ _ _ Hv). simpl.
  apply total_bind, total_bind. rewrite (get_obj_eq _ _ _ Hv). simpl.
  apply total_bind, total_assert.
  { unfold ptr_leb, ptr_ltb. simpl. rewrite Nat.eqb_refl. simpl.
    apply Nat.ltb_lt. lia. }
  simpl. rewrite Nat.sub_0_r.
  set (xs := drop (S i) l).
  assert (Hxs : length xs = Vector.size_ v - S i) by (unfold xs; rewrite length_drop; lia).
  assert (Hsplit : slots_of l (RawMemory.capacity_ (Vector.data_ v)) =
    (Some <$> take i l) ++ Some a :: (Some <$> xs) ++
      replicate (RawMemory.capacity_ (Vector.data_ v) - length l) None).
  { unfold slots_of. rewrite <-(take_drop_middle l i a Ha) at 1.
    rewrite fmap_app, fmap_cons, <-app_assoc. done. }
  apply total_bind, total_lift. unfold std_move.
  apply total_bind. unfold distance. apply total_bind, total_assert.
  { unfold ptr_leb. simpl. rewrite Nat.eqb_refl. simpl. apply Nat.leb_le. lia. }
  unfold ptr_add, RawMemory.GetAddress. simpl.
  replace (Vector.size_ v - (i + 1)) with (length xs) by lia.
  replace (i + 1) with (S i) by lia.
  eapply (total_move_from xs 0 _ i _ (Some <$> take i l)); [| | |].
  { destruct Hk as [Hk|Hx]; [by left|right]. intros m' _. apply Hx. }
  { rewrite Hblk, Hsplit. done. }
  { rewrite length_fmap, length_take. lia. }
  intros w. simpl.
  unfold Vector.PopBack.
  apply total_bind, total_bind. rewrite (get_obj_eq _ _ v) by done. simpl.
  destruct (decide (0 < Vector.size_ v)); [|lia].
  apply total_bind, total_lift.
  eapply total_destroy_at.
  { simpl. by rewrite lookup_insert_eq. }
  { unfold RawMemory.GetAddress. cbn [off Nat.add].
    rewrite app_assoc, lookup_app_r; rewrite length_app, !length_fmap, length_take; [|lia].
    replace (Vector.size_ v - 1 - (i `min` length l + length xs)) with 0 by lia. done. }
  simpl. rewrite (set_obj_eq _ _ v) by done. simpl.
  apply total_bind, total_bind. rewrite (get_obj_eq _ _ (Vector.mk (Vector.data_ v) (Vector.size_ v - 1)))
    by by lookups.
  simpl. split; [done|].
  eexists. split; [done|]. split; [done|]. split; [done|].
  unfold owns. simpl. rewrite length_delete by (by eexists).
  unfold capacity, buffer. simpl. split_and!; [lia|lia|done|].
  destruct (decide (_ = 0)); [done|]. split; [done|].
  rewrite insert_insert_eq, lookup_insert_eq. f_equal.
  unfold slots_of. rewrite delete_take_drop, length_app, length_take. fold xs.
  rewrite fmap_app, <-app_assoc. f_equal.
  rewrite insert_app_r_alt; rewrite length_fmap, length_take; [|lia].
  f_equal.
  rewrite insert_app_r_alt; rewrite length_fmap; [|lia].
  replace (Vector.size_ v - 1 - i `min` length l - length xs) with 0 by lia.
  simpl. replace (RawMemory.capacity_ (Vector.data_ v) - (i `min` length l + length xs))
    with (S (RawMemory.capacity_ (Vector.data_ v) - length l)) by lia.
  done.
Qed.

Lemma owns_load m v l j x :
  owns m v l → l !! j = Some x →
  load (RawMemory.GetAddress (Vector.data_ v) +ₚ j) m = Ret x m.
Proof.
  intros (Hlen & Hsz & Hbrk & Hblk) Hj.
  pose proof (lookup_lt_Some _ _ _ Hj).
  destruct (decide (capacity v = 0)); [lia|]. destruct Hblk as [_ Hblk].
  unfold load, peek, slot, mbind, M_bind, bind. simpl. fold (buffer v). rewrite Hblk. simpl.
  unfold slots_of. rewrite lookup_app_l by (rewrite length_fmap; lia).
  by rewrite list_lookup_fmap, Hj.
Qed.

(** C8. [Erase] at index [i] of a vector holding [l], whatever the element
    type.  It returns the position of index [i]: the element at [i] is
    removed, those after it are each one slot nearer the front, in order,
    the size is one less, and the position returned now holds the element
    that followed the removed one, or is [end()] if there was none.  The
    one other outcome is that a move assignment of the element type throws:
    the size and the capacity are then what they were.  [Erase] returns
    whenever the move assignment does not throw. *)
Theorem Erase_spec this v l i s :
  objs s !! this = Some v →
  owns (mem s) v l →
  i < length l →
  let pos := RawMemory.GetAddress (Vector.data_ v) +ₚ i in
  total (Vector.Erase this pos s)
    (λ it s',
       it = pos ∧
       elements s' this = Some (delete i l) ∧
       (∀ j, j < i → delete i l !! j = l !! j) ∧
       (∀ j, i ≤ j → delete i l !! j = l !! S j) ∧
       size_of s' this = Some (length l - 1) ∧
       capacity_of s' this = capacity_of s this ∧
       Vector.begin this s' = Ret (RawMemory.GetAddress (Vector.data_ v)) s' ∧
       match l !! S i with
       | Some x => lift (load pos) s' = Ret x s'
       | None => Vector.end_ this s' = Ret pos s'
       end)
    (λ s', size_of s' this = size_of s this ∧
           capacity_of s' this = capacity_of s this) ∧
  (cannot_throw MoveAssign → returns (Vector.Erase this pos s) = true).
Proof.
  intros Hv Hown Hi pos. split.
  - eapply total_mono.
    + apply (Erase_total this v l i s (λ s', objs s' = objs s) Hv Hown Hi). by right.
    + simpl. intros it s' (-> & v' & Hobjs & Hdata & Hsz & Hown').
      assert (objs s' !! this = Some v') as Hthis by (rewrite Hobjs; by lookups).
      pose proof Hown as (Hlen & _).
      split; [done|].
      unfold size_of, capacity_of, elements. rewrite Hthis, Hv. simpl.
      rewrite (owns_contents _ _ _ Hown'), Hsz, Hdata, Hlen.
      split_and!; try done.
      * intros j Hj. by apply list_lookup_delete_lt.
      * intros j Hj. by apply list_lookup_delete_ge.
      * unfold Vector.begin, mbind, M_bind, bind. rewrite (get_obj_eq _ _ _ Hthis).
        simpl. by rewrite Hdata.
      * destruct (l !! S i) as [x|] eqn:Hx.
        -- unfold lift. subst pos. rewrite <-Hdata.
           rewrite (owns_load _ _ (delete i l) i x Hown'); [by destruct s'|].
           by rewrite list_lookup_delete_ge.
        -- apply lookup_ge_None in Hx.
           unfold Vector.end_, mbind, M_bind, bind. rewrite (get_obj_eq _ _ _ Hthis).
           simpl. rewrite Hdata, Hsz. subst pos. do 3 f_equal. lia.
    + simpl. intros s' Ho. unfold capacity_of, size_of. by rewrite Ho.
  - intros Hk.
    pose proof (Erase_total this v l i s (λ _, False) Hv Hown Hi (or_introl Hk)) as H.
    change (Ptr (buffer v) i) with pos in H.
    by destruct (Vector.Erase this pos s).
Qed.
End Erase.

(** ** [Emplace], path by path *)

Section Emplace.
Context {T W : Type} {E : Element T W}.
Implicit Types s : Store T W Vector.t.
Implicit Types v : Vector.t.
Implicit Types m : Memory T W.
Implicit Types l xs ys : list T.

(** The relocation of [Emplace]: the elements before the new one, then those
    after it, around the slot [c] that already holds the new element. *)
Lemma total_relocate_around {O} xs1 xs2 bs bd (qs rd1 rd2 qd : list (option T)) c
    n1 n2 so2 do2 h (st : Store T W O) (Q : unit → Store T W O → Prop) E' :
  cannot_throw relocation → bs ≠ bd →
  heap (mem st) !! bs = Some ((Some <$> xs1) ++ (Some <$> xs2) ++ qs) →
  heap (mem st) !! bd = Some (rd1 ++ c :: rd2 ++ qd) →
  length rd1 = length xs1 → length rd2 = length xs2 →
  n1 = length xs1 → n2 = length xs2 → so2 = length xs1 → do2 = S (length xs1) →
  (∀ ys w, length ys = length xs1 + length xs2 →
     Q tt (mkStore (mkMemory (<[bs := (Some <$> ys) ++ qs]>
                      (<[bd := (Some <$> xs1) ++ c :: (Some <$> xs2) ++ qd]> (heap (mem st))))
                      (brk (mem st)) w) (objs st))) →
  total ((if Vector.relocate_by_move then
            lift (uninitialized_move_n (Ptr bs 0) n1 (Ptr bd 0));;
            lift (uninitialized_move_n (Ptr bs so2) n2 (Ptr bd do2))
          else
            try_catch
              (lift (uninitialized_copy_n (Ptr bs 0) n1 (Ptr bd 0));;
               lift (uninitialized_copy_n (Ptr bs so2) n2 (Ptr bd do2)))
              h) st) Q E'.
Proof.
  intros Hk Hne Hs Hd Hrd1 Hrd2 -> -> -> -> HQ. unfold relocation in Hk.
  destruct Vector.relocate_by_move.
  - apply total_bind, total_lift.
    eapply (total_uninitialized_move_from xs1 0 bs 0 bd 0 _ [] _ [] rd1); try done.
    intros w1. simpl. apply total_lift. simpl.
    eapply (total_uninitialized_move_from xs2 0 bs (length xs1) bd (S (length xs1)) _
              (Some <$> (moved_from <$> xs1)) qs ((Some <$> xs1) ++ [c]) rd2 qd); try done.
    + simpl. by rewrite lookup_insert_eq.
    + rewrite !length_fmap. lia.
    + simpl. rewrite lookup_insert_ne by done. rewrite lookup_insert_eq.
      by rewrite <-app_assoc.
    + rewrite length_app, length_fmap. simpl. lia.
    + intros w2. simpl.
      specialize (HQ ((moved_from <$> xs1) ++ (moved_from <$> xs2)) w2).
      rewrite length_app, !length_fmap in HQ. specialize (HQ eq_refl).
      rewrite fmap_app, <-!app_assoc in HQ. simpl in *.
      match goal with
      | H : Q tt (mkStore (mkMemory ?h1 _ _) _) |- Q tt (mkStore (mkMemory ?h2 _ _) _) =>
          replace h2 with h1; [exact H|]
      end.
      heap_eq. by rewrite <-app_assoc.
  - apply total_try_catch, total_bind, total_lift.
    eapply (total_uninitialized_copy_from xs1 0 bs 0 bd 0 _ [] _ [] rd1); try done.
    intros w1. simpl. apply total_lift. simpl.
    eapply (total_uninitialized_copy_from xs2 0 bs (length xs1) bd (S (length xs1)) _
              (Some <$> xs1) qs ((Some <$> xs1) ++ [c]) rd2 qd); try done.
    + simpl. by rewrite lookup_insert_ne by done.
    + rewrite length_fmap. lia.
    + simpl. rewrite lookup_insert_eq. by rewrite <-app_assoc.
    + rewrite length_app, length_fmap. simpl. lia.
    + intros w2. simpl.
      specialize (HQ (xs1 ++ xs2) w2). rewrite length_app in HQ. specialize (HQ eq_refl).
      rewrite fmap_app, <-!app_assoc in HQ. simpl in *.
      match goal with
      | H : Q tt (mkStore (mkMemory ?h1 _ _) _) |- Q tt (mkStore (mkMemory ?h2 _ _) _) =>
          replace h2 with h1; [exact H|]
      end.
      heap_eq. by rewrite <-app_assoc.
Qed.

(** [Emplace] into a full vector: a block of twice the size (of one slot
    for an empty vector) holds the elements before [pos], the new element,
    and the elements after [pos].  The new element is constructed from
    [args] in the new block before any element is relocated: [x] is the
    value the constructor then makes. *)
Lemma Emplace_realloc_args this v l i args x s :
  objs s !! this = Some v →
  owns (mem s) v l →
  Vector.size_ v = capacity v →
  i ≤ length l →
  can_allocate (1 `max` (2 * length l)) →
  cannot_throw relocation →
  total (construct (Ptr (brk (mem s)) i) args
           (mkMemory (<[brk (mem s) := replicate (1 `max` (2 * length l)) None]> (heap (mem s)))
              (S (brk (mem s))) (world (mem s))))
    (λ _ m', ∃ w',
       m' = mkMemory
              (<[brk (mem s) := <[i := Some x]> (replicate (1 `max` (2 * length l)) None)]>
                 (heap (mem s)))
              (S (brk (mem s))) w')
    (λ _, False) →
  total (Vector.Emplace this (Ptr (buffer v) i) args s)
    (λ p s', ∃ v', objs s' = <[this := v']> (objs s) ∧
                   capacity v' = 1 `max` (2 * length l) ∧
                   Vector.size_ v' = S (Vector.size_ v) ∧
                   p = Ptr (buffer v') i ∧
                   owns (mem s') v' (take i l ++ x :: drop i l))
    (λ _, False).
Proof.
  intros Hv (Hlen & Hsz & Hbrk & Hblk) Hfull Hi Hnew Hk Hargs.
  unfold buffer, capacity in *.
  match goal with |- total _ ?Q _ => set (Post := Q) end.
  unfold Vector.Emplace.
  apply total_bind. rewrite (get_obj_eq _ _ _ Hv). simpl.
  apply total_bind, total_assert.
  { unfold ptr_leb. simpl. rewrite Nat.eqb_refl. simpl. apply Nat.leb_le. lia. }
  rewrite Nat.sub_0_r.
  destruct (decide (Vector.size_ v = RawMemory.Capacity _)) as [_|]; [|done].
  set (n := if decide (Vector.size_ v = 0) then 1 else Vector.size_ v * 2).
  assert (Hn : n = 1 `max` (2 * length l)) by (unfold n; destruct (decide (Vector.size_ v = 0)); lia).
  clearbody n.
  assert (Hn0 : n ≠ 0) by lia.
  rewrite <-Hn in Hnew, Hargs. destruct Hnew as [Hfit [?|Hserved]]; [done|].
  apply total_bind, total_bind, total_lift. rewrite init_pos by (done || apply Hserved).
  simpl.
  set (bd := brk (mem s)) in *. set (bs := RawMemory.buffer_ (Vector.data_ v)) in *.
  set (data := RawMemory.mk bd n).
  assert (Hfinal : ∀ h (w : W) sz,
    sz = Vector.size_ v →
    h !! bd = Some (slots_of (take i l ++ x :: drop i l) n) →
    total ((v0 ← get_obj this;
            set_obj this (Vector.mk (Vector.data_ v0) (S (Vector.size_ v0)));;
            ret (Ptr bd i))
             (mkStore (mkMemory h (S bd) w) (<[this := Vector.mk data sz]> (objs s))))
          Post (λ _, False)).
  { intros h w sz -> Hh.
    apply total_bind. rewrite (get_obj_eq _ _ (Vector.mk data (Vector.size_ v))) by by lookups.
    simpl. apply total_bind. rewrite (set_obj_eq _ _ (Vector.mk data (Vector.size_ v))) by by lookups.
    simpl. unfold Post. eexists. split; [by rewrite insert_insert_eq|]. simpl.
    split; [done|]. split; [done|]. split; [done|].
    unfold owns, capacity, buffer. simpl.
    rewrite length_app, length_take. simpl. rewrite length_drop.
    split_and!; [lia|lia|lia|].
    destruct (decide (n = 0)); [done|]. split; [unfold bd; lia|done]. }
  apply total_bind, total_unwinding.
  unfold RawMemory.add. simpl. apply total_bind, total_bind, total_assert.
  { apply Nat.leb_le. lia. }
  simpl. apply total_bind, total_lift. simpl.
  eapply total_mono; [exact Hargs| |done].
  intros [] m' [w0 ->]. simpl. apply total_bind.
  unfold RawMemory.GetAddress, ptr_add. simpl.
  destruct (decide (RawMemory.capacity_ (Vector.data_ v) = 0)) as [Hc0|Hc0].
  - assert (l = []) as -> by (apply nil_length_inv; lia).
    assert (i = 0) as -> by (simpl in Hi; lia).
    replace (Vector.size_ v) with 0 by lia.
    unfold uninitialized_move_n, uninitialized_copy_n. simpl.
    assert (Hreloc : total ((if Vector.relocate_by_move
        then lift (O:=Vector.t) (ret (S:=Memory T W) ());; lift (ret ())
        else try_catch (lift (ret ());; lift (ret ()))
               (lift (destroy_at (Ptr bd 0);; ret ());; throw))
        (mkStore (mkMemory (<[bd:=<[0:=Some x]> (replicate n None)]> (heap (mem s)))
                    (S bd) w0) (objs s)))
      (λ _ s1, s1 = mkStore (mkMemory (<[bd:=<[0:=Some x]> (replicate n None)]> (heap (mem s)))
                    (S bd) w0) (objs s)) (λ _, False)).
    { by destruct Vector.relocate_by_move. }
    eapply total_mono; [exact Hreloc| |done].
    intros _ s1 ->. simpl.
    apply total_bind. rewrite (set_obj_eq _ _ v) by done. simpl.
    unfold RawMemory.fini, RawMemory.Deallocate, operator_delete, lift. simpl.
    fold bs. rewrite Hblk. simpl.
    apply Hfinal; [lia|]. rewrite lookup_insert_eq. f_equal.
    unfold slots_of. simpl. rewrite insert_replicate_lt by lia. done.
  - destruct Hblk as [Hbs0 Hblk].
    assert (bs ≠ bd) by (unfold bd; lia).
    eapply (total_relocate_around (take i l) (drop i l) bs bd []
              (replicate i None) (replicate (length l - i) None)
              (replicate (n - S (length l)) None) (Some x)); try done;
      rewrite ?length_replicate, ?length_take, ?length_drop; try lia.
    { simpl. rewrite lookup_insert_ne by done. rewrite Hblk. unfold slots_of.
      rewrite <-Hfull, <-Hlen, Nat.sub_diag. cbn [replicate].
      rewrite <-(take_drop i l) at 1. by rewrite fmap_app, <-app_assoc. }
    { simpl. rewrite lookup_insert_eq. f_equal.
      rewrite insert_replicate_lt by lia. do 2 f_equal.
      rewrite <-replicate_add. f_equal. lia. }
    intros ys w Hys. simpl.
    rewrite app_nil_r.
    apply total_bind, total_lift. simpl.
    replace (Vector.size_ v) with (length ys) by lia.
    eapply (total_destroy_n ys bs 0 _ [] []); [simpl; by rewrite lookup_insert_eq, app_nil_r|done|].
    simpl. rewrite app_nil_r, insert_insert_eq.
    apply total_bind. rewrite (set_obj_eq _ _ v) by done. simpl.
    apply total_bind, total_lift. unfold RawMemory.fini, RawMemory.Deallocate. fold bs.
    eapply total_operator_delete; [simpl; by rewrite lookup_insert_eq|done|].
    simpl. apply Hfinal; [lia|].
    rewrite lookup_delete_ne by done. rewrite !lookup_insert_ne by done.
    rewrite lookup_insert_eq. f_equal. unfold slots_of.
    rewrite fmap_app, fmap_cons, <-app_assoc. simpl. do 3 f_equal.
    rewrite length_app, length_take. simpl. rewrite length_drop. f_equal. lia.
Qed.

(** Arguments that are no elements of a vector. *)
Lemma Emplace_realloc_total this v l i k x s :
  objs s !! this = Some v →
  owns (mem s) v l →
  Vector.size_ v = capacity v →
  i ≤ length l →
  can_allocate (1 `max` (2 * length l)) →
  cannot_throw k → cannot_throw relocation →
  total (Vector.Emplace this (Ptr (buffer v) i) (values k x) s)
    (λ p s', ∃ v', objs s' = <[this := v']> (objs s) ∧
                   capacity v' = 1 `max` (2 * length l) ∧
                   Vector.size_ v' = S (Vector.size_ v) ∧
                   p = Ptr (buffer v') i ∧
                   owns (mem s') v' (take i l ++ x :: drop i l))
    (λ _, False).
Proof.
  intros Hv Hown Hfull Hi Hnew Hx Hk.
  apply Emplace_realloc_args; try done. simpl.
  eapply total_construct_at;
    [done|simpl; by rewrite lookup_insert_eq|rewrite length_replicate; lia|].
  intros w0. exists w0. simpl. by rewrite insert_insert_eq.
Qed.

(** One argument that is an element of the vector itself, [v[j]] passed as
    a [const T&]: the constructor reads it in the old block, where no
    element has moved yet. *)
Lemma Emplace_realloc_lvalue this v l i j y s :
  objs s !! this = Some v →
  owns (mem s) v l →
  Vector.size_ v = capacity v →
  i ≤ length l →
  l !! j = Some y →
  can_allocate (1 `max` (2 * length l)) →
  cannot_throw CopyCtor → cannot_throw relocation →
  total (Vector.Emplace this (Ptr (buffer v) i) (lvalue (Ptr (buffer v) j)) s)
    (λ p s', ∃ v', objs s' = <[this := v']> (objs s) ∧
                   capacity v' = 1 `max` (2 * length l) ∧
                   Vector.size_ v' = S (Vector.size_ v) ∧
                   p = Ptr (buffer v') i ∧
                   owns (mem s') v' (take i l ++ y :: drop i l))
    (λ _, False).
Proof.
  intros Hv Hown Hfull Hi Hy Hnew Hx Hk.
  apply Emplace_realloc_args; try done. simpl.
  pose proof Hown as (Hlen & Hsz & Hbrk & Hblk).
  pose proof (lookup_lt_Some _ _ _ Hy) as Hj.
  unfold buffer, capacity in *.
  destruct (decide (RawMemory.capacity_ (Vector.data_ v) = 0)) as [|Hc0]; [lia|].
  destruct Hblk as [Hb0 Hblk].
  unfold copy_construct. apply total_bind.
  eapply total_load.
  { simpl. rewrite lookup_insert_ne by lia. exact Hblk. }
  { unfold slots_of. rewrite lookup_app_l by (rewrite length_fmap; lia).
    by rewrite list_lookup_fmap, Hy. }
  eapply total_construct_at;
    [done|simpl; by rewrite lookup_insert_eq|rewrite length_replicate; lia|].
  intros w0. exists w0. simpl. by rewrite insert_insert_eq.
Qed.

Lemma total_move_backward_n xs b so m (pre post : list (option T)) z
    (Q : unit → Memory T W → Prop) E' :
  cannot_throw MoveAssign →
  heap m !! b = Some (pre ++ (Some <$> xs) ++ Some z :: post) →
  length pre = so →
  (∀ w, Q tt (mkMemory (<[b := pre ++ Some (vacated xs z) :: (Some <$> xs) ++ post]>
                          (heap m)) (brk m) w)) →
  total (move_backward_n (length xs) (Ptr b so) (Ptr b (S so)) m) Q E'.
Proof.
  intros Hk. revert m post z.
  induction xs as [|y xs IH] using rev_ind; intros m post z Hb Hpre HQ.
  - simpl in *. specialize (HQ (world m)). rewrite insert_id in HQ by done. by destruct m.
  - rewrite length_app, Nat.add_1_r. cbn [move_backward_n length].
    rewrite fmap_app, <-app_assoc in Hb. cbn [fmap list_fmap app] in Hb.
    apply total_bind. unfold move_assign, ptr_add. cbn [blk off].
    apply total_bind. eapply total_load; [done| |].
    { rewrite lookup_app_r by lia. rewrite lookup_app_r by (rewrite length_fmap; lia).
      rewrite length_fmap. by replace (so + length xs - length pre - length xs) with 0 by lia. }
    apply total_bind.
    eapply (total_assign_value _ _ _ _ z); [done..| |].
    { rewrite lookup_app_r by lia. rewrite lookup_app_r by (rewrite length_fmap; lia).
      rewrite length_fmap. by replace (S so + length xs - length pre - length xs) with 1 by lia. }
    intros w.
    eapply total_poke.
    { simpl. by rewrite lookup_insert_eq. }
    { rewrite length_insert, !length_app, length_fmap. simpl. lia. }
    simpl.
    eapply (IH _ (Some y :: post) (moved_from y)).
    + simpl. rewrite lookup_insert_eq. f_equal.
      rewrite !insert_app_r_alt by (rewrite ?length_fmap; lia).
      rewrite ?length_fmap.
      replace (S (so + length xs) - length pre - length xs) with 1 by lia.
      replace (so + length xs - length pre - length xs) with 0 by lia.
      done.
    + done.
    + intros w'. simpl. rewrite !insert_insert_eq.
      specialize (HQ w'). rewrite fmap_app, <-app_assoc in HQ.
      replace (vacated (xs ++ [y]) z) with (vacated xs (moved_from y)) in HQ
        by (by destruct xs).
      exact HQ.
Qed.

Lemma total_add {S} r offset (s : S) (Q : ptr → S → Prop) E' :
  offset ≤ RawMemory.capacity_ r →
  Q (Ptr (RawMemory.buffer_ r) offset) s →
  total (RawMemory.add r offset s) Q E'.
Proof.
  intros Hle HQ. unfold RawMemory.add.
  apply total_bind, total_assert; [by apply Nat.leb_le|done].
Qed.

(** [Emplace] into a vector with a free slot.  The last element is
    move-constructed into the free slot and then takes part, moved from,
    in the move toward the back; the elements before [pos] stay, the slot
    at [pos] is destroyed, and the new element is constructed there from
    [args], read at that moment: [x] is the value the constructor then
    makes. *)
Lemma Emplace_in_place_args this v l i args x s :
  objs s !! this = Some v →
  owns (mem s) v l →
  Vector.size_ v < capacity v →
  i ≤ length l →
  cannot_throw MoveCtor → cannot_throw MoveAssign →
  (∀ h (w : W) tl,
     h !! buffer v =
       Some ((Some <$> take i (last_moved_from l)) ++
             None :: (Some <$> drop i (last_moved_from l)) ++ tl) →
     total (construct (Ptr (buffer v) i) args (mkMemory h (brk (mem s)) w))
       (λ _ m', ∃ w',
          m' = mkMemory
                 (<[buffer v := (Some <$> take i (last_moved_from l)) ++
                                Some x :: (Some <$> drop i (last_moved_from l)) ++ tl]> h)
                 (brk (mem s)) w')
       (λ _, False)) →
  total (Vector.Emplace this (Ptr (buffer v) i) args s)
    (λ p s', ∃ v', objs s' = <[this := v']> (objs s) ∧
                   Vector.data_ v' = Vector.data_ v ∧
                   Vector.size_ v' = S (Vector.size_ v) ∧
                   p = Ptr (buffer v) i ∧
                   owns (mem s') v'
                     (take i (last_moved_from l) ++ x :: drop i (last_moved_from l)))
    (λ _, False).
Proof.
  intros Hv (Hlen & Hsz & Hbrk & Hblk) Hfree Hi Hmc Hma.
  unfold buffer, capacity in *.
  destruct (decide (RawMemory.capacity_ (Vector.data_ v) = 0)) as [|Hc0]; [lia|].
  destruct Hblk as [Hb0 Hblk].
  remember (last_moved_from l) as l' eqn:El'.
  intros Hargs.
  match goal with |- total _ ?Q _ => set (Post := Q) end.
  remember (RawMemory.buffer_ (Vector.data_ v)) as b eqn:Eb in *.
  remember (RawMemory.capacity_ (Vector.data_ v)) as cap eqn:Ecap in *.
  assert (Hl' : length l' = length l) by (subst l'; apply length_alter).
  set (rest := replicate (cap - S (length l)) (@None T)).
  assert (Hfinal : ∀ h (w : W),
    h !! b = Some ((Some <$> take i l') ++ Some x :: (Some <$> drop i l') ++ rest) →
    total ((v0 ← get_obj this;
            set_obj this (Vector.mk (Vector.data_ v0) (S (Vector.size_ v0)));;
            ret (Ptr b i))
             (mkStore (mkMemory h (brk (mem s)) w) (objs s)))
          Post (λ _, False)).
  { intros h w Hh.
    apply total_bind. rewrite (get_obj_eq _ _ v) by done.
    simpl. apply total_bind. rewrite (set_obj_eq _ _ v) by done.
    simpl. unfold Post. eexists. split; [done|]. simpl.
    split; [done|]. split; [done|]. split; [done|].
    unfold owns, capacity, buffer. simpl. rewrite <-?Eb, <-?Ecap.
    rewrite length_app, length_take. simpl. rewrite length_drop.
    split_and!; [lia|lia|lia|].
    destruct (decide (cap = 0)); [done|]. split; [done|].
    rewrite Hh. f_equal. unfold slots_of.
    rewrite fmap_app, fmap_cons, <-app_assoc. simpl. do 3 f_equal.
    rewrite length_app, length_take. simpl. rewrite length_drop. unfold rest. f_equal. lia. }
  unfold Vector.Emplace.
  apply total_bind. rewrite (get_obj_eq _ _ _ Hv).
  unfold RawMemory.GetAddress, RawMemory.Capacity, ptr_add. simpl.
  rewrite <-?Eb, <-?Ecap, Nat.sub_0_r.
  apply total_bind, total_assert.
  { unfold ptr_leb. simpl. rewrite Nat.eqb_refl. simpl. apply Nat.leb_le. lia. }
  destruct (decide (Vector.size_ v = cap)) as [Heq|_]; [lia|].
  apply total_bind, total_bind.
  assert (Htail : ∀ h (w : W),
    h !! b = Some ((Some <$> take i l') ++ None :: (Some <$> drop i l') ++ rest) →
    total ((it_element ← RawMemory.add (Vector.data_ v) i;
            lift (construct it_element args);;
            ret it_element)
             (mkStore (mkMemory h (brk (mem s)) w) (objs s)))
          (λ a s0, total
             ((v0 ← get_obj this;
               set_obj this (Vector.mk (Vector.data_ v0) (S (Vector.size_ v0)));;
               ret a) s0) Post (λ _, False))
          (λ _, False)).
  { intros h w Hh.
    apply total_bind, total_add; [lia|]. rewrite <-Eb.
    apply total_bind, total_lift. simpl.
    eapply total_mono; [exact (Hargs h w rest Hh)| |done].
    intros [] m' [w' ->]. simpl. apply Hfinal. by rewrite lookup_insert_eq. }
  destruct (decide (Vector.size_ v ≠ 0)) as [Hne|He].
  - destruct l as [|a l0 _] using rev_ind; [simpl in *; lia|].
    rewrite length_app in *. simpl in *.
    assert (l' = l0 ++ [moved_from a]) as El.
    { subst l'. unfold last_moved_from. rewrite length_app. simpl.
      replace (length l0 + 1 - 1) with (length l0 + 0) by lia.
      by rewrite alter_app_r. }
    apply total_bind, total_add; [lia|]. rewrite <-Eb.
    assert (Hsplit : slots_of (l0 ++ [a]) cap = (Some <$> l0) ++ Some a :: None :: rest).
    { unfold slots_of, rest. rewrite fmap_app, <-app_assoc, length_app. simpl.
      do 2 f_equal. by replace (cap - (length l0 + 1)) with (S (cap - S (length l0 + 1))) by lia. }
    rewrite Hsplit in Hblk.
    replace (Vector.size_ v - 1) with (length l0) by lia.
    replace (Vector.size_ v + 1) with (S (S (length l0))) by lia.
    replace (Vector.size_ v) with (S (length l0)) by lia.
    apply total_bind, total_lift. unfold move_construct.
    apply total_bind. eapply total_load; [done| |].
    { rewrite lookup_app_r by (by rewrite length_fmap).
      by rewrite length_fmap, Nat.sub_diag. }
    apply total_bind.
    eapply total_construct_at; [done|done| |].
    { rewrite length_app, length_fmap. simpl. lia. }
    intros w1.
    eapply total_poke.
    { simpl. by rewrite lookup_insert_eq. }
    { rewrite length_insert, length_app, length_fmap. simpl. lia. }
    simpl. rewrite insert_insert_eq.
    rewrite !insert_app_r_alt by (rewrite ?length_fmap; lia).
    rewrite length_fmap, Nat.sub_diag.
    replace (S (length l0) - length l0) with 1 by lia. cbn [insert list_insert].
    assert (Hmoved : (Some <$> l0) ++ Some (moved_from a) :: Some a :: rest =
      (Some <$> take i l') ++ (Some <$> drop i l') ++ Some a :: rest).
    { rewrite app_assoc, <-fmap_app, take_drop, El, fmap_app, <-app_assoc. done. }
    rewrite Hmoved.
    apply total_bind, total_try_catch, total_lift. unfold std_move_backward.
    apply total_bind. unfold distance. apply total_bind, total_assert.
    { unfold ptr_leb. simpl. rewrite Nat.eqb_refl. simpl. apply Nat.leb_le. lia. }
    simpl. apply total_bind, total_assert; [apply Nat.leb_le; lia|].
    replace (S (length l0) - i) with (length (drop i l')) by (rewrite length_drop; lia).
    replace (S (S (length l0)) - length (drop i l')) with (S i) by (rewrite length_drop; lia).
    eapply (total_move_backward_n (drop i l') b i _ (Some <$> take i l') rest a); [done| | |].
    { simpl. by rewrite lookup_insert_eq. }
    { rewrite length_fmap, length_take. lia. }
    intros w2. simpl. rewrite insert_insert_eq.
    apply total_lift.
    eapply total_destroy_at.
    { simpl. by rewrite lookup_insert_eq. }
    { rewrite lookup_app_r by (rewrite length_fmap, length_take; lia).
      rewrite length_fmap, length_take.
      by replace (i - i `min` length l') with 0 by lia. }
    simpl. rewrite insert_insert_eq. apply Htail.
    rewrite lookup_insert_eq. f_equal.
    rewrite insert_app_r_alt by (rewrite length_fmap, length_take; lia).
    rewrite length_fmap, length_take.
    by replace (i - i `min` length l') with 0 by lia.
  - assert (l = []) as -> by (apply nil_length_inv; lia).
    assert (i = 0) as -> by (simpl in Hi; lia).
    simpl. subst l'. destruct s as [[h br w] o]. simpl in *. apply Htail.
    rewrite Hblk. unfold slots_of, rest. simpl. rewrite Nat.sub_0_r.
    destruct cap; [done|]. simpl. by rewrite Nat.sub_0_r.
Qed.

(** Arguments that are no elements of a vector. *)
Lemma Emplace_in_place_total this v l i k x s :
  objs s !! this = Some v →
  owns (mem s) v l →
  Vector.size_ v < capacity v →
  i ≤ length l →
  cannot_throw k → cannot_throw MoveCtor → cannot_throw MoveAssign →
  total (Vector.Emplace this (Ptr (buffer v) i) (values k x) s)
    (λ p s', ∃ v', objs s' = <[this := v']> (objs s) ∧
                   Vector.data_ v' = Vector.data_ v ∧
                   Vector.size_ v' = S (Vector.size_ v) ∧
                   p = Ptr (buffer v) i ∧
                   owns (mem s') v'
                     (take i (last_moved_from l) ++ x :: drop i (last_moved_from l)))
    (λ _, False).
Proof.
  intros Hv Hown Hfree Hi Hk Hmc Hma.
  apply Emplace_in_place_args; try done.
  intros h w tl Hh. simpl.
  assert (length (last_moved_from l) = length l) as Hl' by apply length_alter.
  eapply total_construct_at; [done|exact Hh| |].
  { rewrite length_app, length_fmap, length_take. simpl. lia. }
  intros w'. exists w'. simpl. do 2 f_equal.
  rewrite insert_app_r_alt by (rewrite length_fmap, length_take; lia).
  rewrite length_fmap, length_take.
  by replace (i - i `min` length (last_moved_from l)) with 0 by lia.
Qed.

(** One argument that is an element of the vector itself, [v[j]] passed as
    a [const T&]: the constructor reads it once the elements from [pos] on
    have moved one slot to the back, so that it reads [v[j]] when [j] is
    before [pos] and what was [v[j - 1]] when [j] is after [pos]. *)
Lemma Emplace_in_place_lvalue this v l i j y s :
  objs s !! this = Some v →
  owns (mem s) v l →
  Vector.size_ v < capacity v →
  i ≤ length l →
  j < length l → j ≠ i →
  last_moved_from l !! (if decide (j < i) then j else j - 1) = Some y →
  cannot_throw CopyCtor → cannot_throw MoveCtor → cannot_throw MoveAssign →
  total (Vector.Emplace this (Ptr (buffer v) i) (lvalue (Ptr (buffer v) j)) s)
    (λ p s', ∃ v', objs s' = <[this := v']> (objs s) ∧
                   Vector.data_ v' = Vector.data_ v ∧
                   Vector.size_ v' = S (Vector.size_ v) ∧
                   p = Ptr (buffer v) i ∧
                   owns (mem s') v'
                     (take i (last_moved_from l) ++ y :: drop i (last_moved_from l)))
    (λ _, False).
Proof.
  intros Hv Hown Hfree Hi Hj Hne Hy Hk Hmc Hma.
  apply Emplace_in_place_args; try done.
  intros h w tl Hh. simpl.
  assert (length (last_moved_from l) = length l) as Hl' by apply length_alter.
  unfold copy_construct. apply total_bind.
  eapply total_load; [exact Hh| |].
  { destruct (decide (j < i)) as [Hlt|Hge].
    - rewrite lookup_app_l by (rewrite length_fmap, length_take; lia).
      rewrite list_lookup_fmap, lookup_take_lt by lia. by rewrite Hy.
    - rewrite lookup_app_r by (rewrite length_fmap, length_take; lia).
      rewrite length_fmap, length_take.
      replace (j - i `min` length (last_moved_from l)) with (S (j - 1 - i)) by lia.
      simpl. rewrite lookup_app_l by (rewrite length_fmap, length_drop; lia).
      rewrite list_lookup_fmap, lookup_drop.
      replace (i + (j - 1 - i)) with (j - 1) by lia. by rewrite Hy. }
  eapply total_construct_at; [done|exact Hh| |].
  { rewrite length_app, length_fmap, length_take. simpl. lia. }
  intros w'. exists w'. simpl. do 2 f_equal.
  rewrite insert_app_r_alt by (rewrite length_fmap, length_take; lia).
  rewrite length_fmap, length_take.
  by replace (i - i `min` length (last_moved_from l)) with 0 by lia.
Qed.
(** Two lists of one length that agree once [x] is put at [i] are equal. *)
Lemma insert_at_inj (l1 l2 : list T) i x :
  length l1 = length l2 →
  take i l1 ++ x :: drop i l1 = take i l2 ++ x :: drop i l2 →
  l1 = l2.
Proof.
  intros Hlen Heq.
  apply app_inj_1 in Heq as [Ht Hd]; [|by rewrite !length_take, Hlen].
  injection Hd as Hd. by rewrite <-(take_drop i l1), <-(take_drop i l2), Ht, Hd.
Qed.

(** What the in-place path leaves is not the insertion of [x] into [l] as
    soon as moving from the last element changes it. *)
Lemma Emplace_in_place_differs l i x :
  last_moved_from l ≠ l →
  take i (last_moved_from l) ++ x :: drop i (last_moved_from l) ≠
  take i l ++ x :: drop i l.
Proof.
  intros Hne Heq. apply Hne. eapply insert_at_inj; [|exact Heq].
  unfold last_moved_from. apply length_alter.
Qed.
End Emplace.

(** * Copies *)

Section Copy.
Context {T W : Type} {E : Element T W}.
Implicit Types s : Store T W Vector.t.
Implicit Types v o : Vector.t.
Implicit Types m : Memory T W.
Implicit Types l xs : list T.

Lemma owns_frame m m' v l :
  owns m v l →
  brk m ≤ brk m' →
  heap m' !! buffer v = heap m !! buffer v →
  owns m' v l.
Proof.
  intros (Hlen & Hsz & Hbrk & Hblk) Hb Hh. split_and!; [done|done|lia|].
  destruct (decide (capacity v = 0)); [done|]. by rewrite Hh.
Qed.

(** The copy constructor, for every element type: it returns with a vector
    that owns a copy of the elements, or an exception propagates, from
    [operator new] before anything is done, or from a copy constructor,
    [X] saying what is known then. *)
Lemma ctor_copy_total this other o l s (X : Store T W Vector.t → Prop) :
  objs s !! other = Some o →
  owns (mem s) o l →
  objs s !! this = None →
  fits (Vector.size_ o) →
  served (Vector.size_ o) ∨ X s →
  cannot_throw CopyCtor ∨ (∀ m', X (mkStore m' (objs s))) →
  total (Vector.ctor_copy this other s)
    (λ _ s', ∃ v', objs s' = <[this := v']> (objs s) ∧
                   Vector.size_ v' = Vector.size_ o ∧
                   capacity v' = Vector.size_ o ∧
                   owns (mem s') v' l ∧ owns (mem s') o l ∧
                   (buffer v' ≠ buffer o ∨ l = []) ∧
                   brk (mem s) ≤ brk (mem s'))
    X.
Proof.
  intros Ho Hown Hnone Hfit Hnew Hk. pose proof Hown as (Hlen & Hsz & Hbrk & Hblk).
  unfold Vector.ctor_copy.
  apply total_bind. rewrite (get_obj_eq _ _ _ Ho). simpl.
  apply total_bind, total_lift. unfold Vector.copy_init.
  apply total_bind.
  destruct (decide (Vector.size_ o = 0)) as [Hz|Hnz].
  - assert (l = []) as -> by (apply nil_length_inv; lia).
    rewrite Hz, init_zero. simpl.
    rewrite (new_obj_eq this (mkStore (mem s) (objs s)) _ Hnone). simpl.
    eexists. split; [done|]. simpl. split_and!; try done.
    + unfold owns, capacity, buffer in *. simpl in *. split_and!; try done. lia.
    + by right.
  - apply total_init; [done|done| |].
    { destruct Hnew; [by left|right]. by rewrite store_eta. }
    simpl.
    destruct (decide (capacity o = 0)) as [|Hc]; [lia|]. destruct Hblk as [Hb0 Hblk].
    set (bd := brk (mem s)). unfold buffer, capacity in *.
    assert (RawMemory.buffer_ (Vector.data_ o) ≠ bd) by (unfold bd; lia).
    apply total_bind, total_unwinding.
    unfold uninitialized_copy_n, RawMemory.GetAddress. simpl. rewrite <-Hlen.
    eapply (total_uninitialized_copy_from_any l 0 _ 0 bd 0 _ [] _ [] []
              (replicate (length l) None) []); try done.
    { (* the exception leaves the new block to the destructor of [data] *)
      destruct Hk as [Hk|Hx]; [by left|right]. intros m' Hal.
      destruct (Hal bd) as [sl Hsl]; [simpl; rewrite lookup_insert_eq; eauto|].
      eapply total_operator_delete; [exact Hsl|unfold bd; simpl; lia|].
      simpl. apply Hx. }
    { simpl. rewrite lookup_insert_ne by done. exact Hblk. }
    { simpl. rewrite lookup_insert_eq. by rewrite app_nil_r. }
    { by rewrite length_replicate. }
    intros w. simpl.
    rewrite (new_obj_eq this (mkStore _ (objs s)) _ Hnone). simpl.
    eexists. split; [done|]. simpl. split_and!; try done.
    + unfold owns, capacity, buffer. simpl. split_and!; try done; [lia|].
      destruct (decide (length l = 0)); [lia|]. split; [lia|].
      rewrite insert_insert_eq, lookup_insert_eq. unfold slots_of.
      by rewrite Nat.sub_diag.
    + eapply owns_frame; [exact Hown|simpl; lia|]. simpl.
      unfold buffer. by rewrite !lookup_insert_ne by done.
    + left. simpl. done.
    + lia.
Qed.

Lemma unchanged_refl id s : unchanged id s s.
Proof. done. Qed.

Lemma unchanged_trans id s1 s2 s3 :
  unchanged id s1 s2 → unchanged id s2 s3 → unchanged id s1 s3.
Proof. intros (? & ? & ?) (? & ? & ?). split_and!; congruence. Qed.

(** A call that changes the vector at [b] leaves the vector at [a] alone. *)
Lemma mutation_apart a b c s s' :
  apart a b s →
  mutates c = Some b →
  after (perform c s) = Some s' →
  unchanged a s s' ∧ apart a b s'.
Proof.
  intros (Hne & va & Ha & Hbrk & Hb) Hc Hs.
  pose proof (mutator_effect c b s Hc) as H.
  assert (s' = s ∨ ∃ vb, objs s !! b = Some vb ∧ effect b vb s s') as [->|(vb & Hvb & He)].
  { destruct (perform c s); simplify_eq/=; done. }
  { split; [done|]. split; [done|]. by exists va. }
  destruct He as (F & Hid & vb' & Hvb' & _ & _ & Hbuf).
  destruct (Hb vb Hvb) as [Hbrkb Hsep].
  pose proof (frame_brk _ _ _ _ F) as Hmono.
  assert (objs s' !! a = Some va) as Ha' by (rewrite Hid; done).
  split.
  - unfold unchanged, size_of, capacity_of, elements. rewrite Ha, Ha'. simpl.
    split_and!; try done. unfold contents, block.
    destruct Hsep as [Hsep|Hz]; [|by rewrite Hz]. fold (buffer va).
    by rewrite (proj2 F) by done.
  - split; [done|]. exists va. split_and!; [done|lia|].
    intros vb0 Hvb0. assert (vb0 = vb') as -> by congruence.
    split; [destruct Hbuf; lia|]. destruct Hsep as [Hsep|Hz]; [|by right].
    left. destruct Hbuf as [->|?]; [done|lia].
Qed.

Lemma mutations_apart a b cs s s' :
  apart a b s →
  Forall (λ c, mutates c = Some b) cs →
  performs cs s s' →
  unchanged a s s'.
Proof.
  intros Hap Hcs Hrun. revert Hap.
  induction Hrun as [s|c cs s s1 s2 Hstep Hrun IH]; intros Hap; [done|].
  apply Forall_cons in Hcs as [Hc Hcs].
  destruct (mutation_apart a b c s s1 Hap Hc Hstep) as [H1 Hap1].
  eapply unchanged_trans; [exact H1|]. by apply IH.
Qed.

(** C9. Copy construction of the vector at [this] from the one at [other],
    which holds [l], whatever the element type; the elements of the source
    are in memory, so that a [size_t] counts their bytes ([fits]).  When it
    returns, the new vector has the size of the source, a capacity equal to
    that size, and the same elements in order; the source is what it was;
    and after it, whatever calls change one of the two (each returning or
    throwing), the other keeps its size, its capacity and its elements.
    The one other outcome is an exception, of [operator new] or of a copy
    constructor: no vector is made then, and the others keep their fields.
    The constructor returns whenever [operator new] serves the request and
    the copy constructor of the element type does not throw. *)
Theorem copy_construction this other o l s :
  objs s !! other = Some o →
  owns (mem s) o l →
  objs s !! this = None →
  fits (Vector.size_ o) →
  total (Vector.ctor_copy this other s)
    (λ _ s',
       size_of s' this = size_of s other ∧
       capacity_of s' this = size_of s other ∧
       elements s' this = elements s other ∧
       elements s other = Some l ∧
       unchanged other s s' ∧
       (∀ cs s'', Forall (λ c, mutates c = Some this) cs →
                  performs cs s' s'' → unchanged other s' s'') ∧
       (∀ cs s'', Forall (λ c, mutates c = Some other) cs →
                  performs cs s' s'' → unchanged this s' s''))
    (λ s', objs s' = objs s) ∧
  (served (Vector.size_ o) → cannot_throw CopyCtor →
     returns (Vector.ctor_copy this other s) = true).
Proof.
  intros Ho Hown Hnone Hfit.
  assert (this ≠ other) as Hne by (intros ->; congruence).
  split.
  - eapply total_mono.
    + apply (ctor_copy_total this other o l s (λ s', objs s' = objs s)); auto.
    + simpl. intros _ s' (v' & Hobjs & Hsz & Hcap & Hown' & Hown_o & Hsep & Hbrk).
      assert (objs s' !! this = Some v') as Hthis by (rewrite Hobjs; by lookups).
      assert (objs s' !! other = Some o) as Hother by (rewrite Hobjs; by lookups).
      pose proof Hown' as (Hlen' & _ & Hbrk' & _).
      pose proof Hown_o as (Hlen_o & _ & Hbrk_o & _).
      unfold size_of, capacity_of, elements.
      rewrite Hthis, Ho. simpl.
      rewrite (owns_contents _ _ _ Hown), (owns_contents _ _ _ Hown').
      unfold capacity in Hcap. rewrite Hcap, Hsz.
      split_and!; try done.
      * unfold unchanged, size_of, capacity_of, elements. rewrite Hother, Ho. simpl.
        by rewrite (owns_contents _ _ _ Hown), (owns_contents _ _ _ Hown_o).
      * intros cs s'' Hcs Hrun. eapply (mutations_apart other this); [|done..].
        split; [done|]. exists o. split_and!; [done..|].
        intros vb Hvb. assert (vb = v') as -> by congruence. split; [done|].
        destruct Hsep as [? | ->]; [left; congruence|right]. simpl in Hlen_o. lia.
      * intros cs s'' Hcs Hrun. eapply (mutations_apart this other); [|done..].
        split; [done|]. exists v'. split_and!; [done..|].
        intros vb Hvb. assert (vb = o) as -> by congruence. split; [done|].
        destruct Hsep as [? | ->]; [by left|right]. simpl in Hlen'. lia.
    + done.
  - intros Hnew Hk.
    pose proof (ctor_copy_total this other o l s (λ _, False) Ho Hown Hnone Hfit
                  (or_introl Hnew) (or_introl Hk)) as H.
    by destruct (Vector.ctor_copy this other s).
Qed.
End Copy.

(** * Exceptions during growth *)

Lemma post_bind_inv {S A B} (m : M S A) (f : A → M S B) s Q E :
  post ((m ≫= f) s) Q E → post (m s) (λ a s1, post (f a s1) Q E) E.
Proof. unfold mbind, M_bind, bind. by destruct (m s). Qed.

Lemma bind_assoc {S A B C} (m : M S A) (f : A → M S B) (g : B → M S C) s :
  ((m ≫= f) ≫= g) s = (m ≫= (λ a, f a ≫= g)) s.
Proof. unfold mbind, M_bind, bind. by destruct (m s). Qed.

Lemma on_throw_from {S A} (R : relation S) `{!PreOrder R} (m : M S A) s s1 :
  R s s1 → on_throw R m → post (m s1) (λ _ _, True) (R s).
Proof.
  intros H1 Hm. eapply post_mono; [apply Hm|done|].
  intros s2 H2. simpl in *. by transitivity s1.
Qed.

Section OnThrow.
Context {S : Type} (R : relation S) `{!PreOrder R}.

Lemma on_throw_preserves {A} (m : M S A) : preserves R m → on_throw R m.
Proof. intros Hm s. eapply post_mono; [apply Hm|..]; done. Qed.

Lemma on_throw_nothrow {A} (m : M S A) : nothrow m → on_throw R m.
Proof. intros Hm s. eapply post_mono; [apply Hm|..]; done. Qed.

Lemma on_throw_bind {A B} (m : M S A) (f : A → M S B) :
  preserves R m → (∀ a, on_throw R (f a)) → on_throw R (m ≫= f).
Proof.
  intros Hm Hf s. apply post_bind. eapply post_mono; [apply Hm| |done].
  intros a s1 H1. simpl. eapply post_mono; [apply Hf|done|].
  intros s2 H2. simpl in *. by transitivity s1.
Qed.

Lemma on_throw_bind_nothrow {A B} (m : M S A) (f : A → M S B) :
  on_throw R m → (∀ a, nothrow (f a)) → on_throw R (m ≫= f).
Proof.
  intros Hm Hf s. apply post_bind. eapply post_mono; [apply Hm| |done].
  intros a s1 _. simpl. eapply post_mono; [apply Hf|done..].
Qed.

Lemma on_throw_try_catch {A} (m h : M S A) :
  on_throw R m → preserves R h → on_throw R (try_catch m h).
Proof.
  intros Hm Hh s. apply post_try_catch. eapply post_mono; [apply Hm|done|].
  intros s1 H1. simpl. eapply post_mono; [apply Hh|done|].
  intros s2 H2. simpl in *. by transitivity s1.
Qed.

Lemma on_throw_unwinding {A} (d : M S unit) (m : M S A) :
  on_throw R m → preserves R d → on_throw R (unwinding d m).
Proof.
  intros Hm Hd. apply on_throw_try_catch; [done|].
  apply preserves_bind; [apply _|done|]. intros _. apply preserves_throw, _.
Qed.
End OnThrow.

Lemma nothrow_try_catch {S A} (m h : M S A) : nothrow m → nothrow (try_catch m h).
Proof.
  intros Hm s. apply post_try_catch. eapply post_mono; [apply Hm|done..].
Qed.

Lemma nothrow_add {S} r offset : nothrow (RawMemory.add r offset : M S ptr).
Proof. apply nothrow_bind; [apply nothrow_assert|]. intros _. apply nothrow_ret. Qed.

Section NoThrow.
Context {T W : Type} {E : Element T W}.
Implicit Types m : Memory T W.

Lemma nothrow_peek p : nothrow (peek (T:=T) (W:=W) p).
Proof. intros m. unfold peek. by destruct (slot m p). Qed.

Lemma nothrow_load p : nothrow (load (T:=T) (W:=W) p).
Proof.
  apply nothrow_bind; [apply nothrow_peek|]. intros [x|]; [apply nothrow_ret|apply nothrow_abort].
Qed.

Lemma nothrow_poke p c : nothrow (poke (T:=T) (W:=W) p c).
Proof. intros m. unfold poke. destruct (heap m !! blk p); [|done]. by case_decide. Qed.

Lemma nothrow_operator_delete buf : nothrow (operator_delete (T:=T) (W:=W) buf).
Proof.
  intros m. unfold operator_delete. case_decide; [done|]. by destruct (heap m !! buf).
Qed.

Lemma nothrow_fini r : nothrow (RawMemory.fini (T:=T) (W:=W) r).
Proof. apply nothrow_operator_delete. Qed.

Lemma nothrow_destroy_at p : nothrow (destroy_at (T:=T) (W:=W) p).
Proof. apply nothrow_bind; [apply nothrow_load|]. intros _. apply nothrow_poke. Qed.

Lemma nothrow_destroy_n p n : nothrow (destroy_n (T:=T) (W:=W) p n).
Proof.
  revert p. induction n as [|n IH]; intros p; simpl; [apply nothrow_ret|].
  apply nothrow_bind; [apply nothrow_destroy_at|]. intros _. apply IH.
Qed.

Lemma nothrow_call k x : may_throw k = false → nothrow (call k x).
Proof. intros Hk m. unfold call. by rewrite Hk. Qed.

Lemma nothrow_construct_at p k x : may_throw k = false → nothrow (construct_at p k x).
Proof.
  intros Hk. apply nothrow_bind; [apply nothrow_peek|]. intros _.
  apply nothrow_bind; [by apply nothrow_call|]. intros _. apply nothrow_poke.
Qed.

Lemma nothrow_move_construct dst src :
  is_nothrow_move_constructible = true → nothrow (move_construct dst src).
Proof.
  intros Hk. apply nothrow_bind; [apply nothrow_load|]. intros x.
  apply nothrow_bind; [|intros _; apply nothrow_poke].
  apply nothrow_construct_at. simpl. by rewrite Hk.
Qed.

Lemma nothrow_uninitialized_move_n first n d_first :
  is_nothrow_move_constructible = true →
  nothrow (uninitialized_move_n first n d_first).
Proof.
  intros Hk. unfold uninitialized_move_n. generalize 0 as k.
  induction n as [|n IH]; intros k; simpl; [apply nothrow_ret|].
  apply nothrow_bind; [|intros _; apply IH].
  apply nothrow_try_catch. by apply nothrow_move_construct.
Qed.
End NoThrow.

Ltac nothrow_step :=
  lazymatch goal with
  | |- nothrow (_ ≫= _) => apply nothrow_bind; [|intros ?]
  | |- nothrow (mret _) => apply nothrow_ret
  | |- nothrow (ret _) => apply nothrow_ret
  | |- nothrow abort => apply nothrow_abort
  | |- nothrow (assert _) => apply nothrow_assert
  | |- nothrow (lift _) => apply nothrow_lift
  | |- nothrow (get_obj _) => apply nothrow_get_obj
  | |- nothrow (set_obj _ _) => apply nothrow_set_obj
  | |- nothrow (RawMemory.add _ _) => apply nothrow_add
  | |- nothrow (RawMemory.fini _) => apply nothrow_fini
  | |- nothrow (destroy_n _ _) => apply nothrow_destroy_n
  | |- nothrow (destroy_at _) => apply nothrow_destroy_at
  | |- nothrow (uninitialized_move_n _ _ _) => apply nothrow_uninitialized_move_n
  end.
Ltac nothrows := repeat nothrow_step.

Section Strong.
Context {T W : Type} {E : Element T W}.
Implicit Types s : Store T W Vector.t.
Implicit Types v : Vector.t.
Implicit Types m : Memory T W.

Lemma Reserve_strong this v n s :
  objs s !! this = Some v →
  is_nothrow_move_constructible = true ∨ is_copy_constructible = true →
  post (Vector.Reserve this n s) (λ _ _, True)
       (frameS (brk (mem s)) (brk (mem s)) s).
Proof.
  intros Hv Htraits. set (b0 := brk (mem s)). unfold Vector.Reserve.
  apply post_bind. rewrite (get_obj_eq _ _ _ Hv). simpl.
  destruct (decide (n ≤ _)) as [|Hn]; [done|].
  unfold Vector.CreateCopy. rewrite bind_assoc.
  apply post_bind. rewrite (get_obj_eq _ _ _ Hv). simpl. rewrite bind_assoc.
  eapply post_seq.
  { eapply post_mono; [apply (post_lift_init _ _ b0 b0); lia| |].
    - intros data s1 Hd. exact Hd.
    - intros ? ->. reflexivity. }
  simpl. intros data s1 (F1 & Hcap & _ & Hbuf).
  assert (Hb : b0 ≤ RawMemory.buffer_ data) by (apply Hbuf; unfold RawMemory.Capacity in *; lia).
  apply on_throw_from; [apply _|done|].
  apply on_throw_bind_nothrow; [|intros; nothrows].
  apply on_throw_bind_nothrow; [|intros; nothrows].
  unfold Vector.relocate_by_move.
  destruct Htraits as [Hm|Hc].
  - rewrite Hm. simpl. apply on_throw_nothrow.
    apply nothrow_try_catch. nothrows. done.
  - destruct is_nothrow_move_constructible eqn:Hm.
    + simpl. apply on_throw_nothrow. apply nothrow_try_catch. nothrows. done.
    + rewrite Hc. simpl. apply on_throw_preserves. keeps; wr.
Qed.

Lemma on_throw_add_bind {S B} (R : relation S) r offset (f : ptr → M S B) :
  on_throw R (f (Ptr (RawMemory.buffer_ r) offset)) →
  on_throw R (RawMemory.add r offset ≫= f).
Proof.
  intros Hf s0. apply post_bind, post_add. intros _. apply Hf.
Qed.

Lemma Emplace_strong this v pos args s :
  objs s !! this = Some v →
  Vector.size_ v = RawMemory.capacity_ (Vector.data_ v) →
  moves_element args = false →
  is_nothrow_move_constructible = true ∨ is_copy_constructible = true →
  post (Vector.Emplace this pos args s) (λ _ _, True)
       (frameS (brk (mem s)) (brk (mem s)) s).
Proof.
  intros Hv Hfull Hargs Htraits. set (b0 := brk (mem s)). unfold Vector.Emplace.
  apply post_bind. rewrite (get_obj_eq _ _ _ Hv). simpl.
  apply post_bind, post_assert. intros _. simpl.
  destruct (decide (Vector.size_ v = _)) as [_|]; [|done].
  rewrite bind_assoc.
  eapply post_seq.
  { eapply post_mono; [apply (post_lift_init _ _ b0 b0); lia| |].
    - intros data s1 Hd. exact Hd.
    - intros ? ->. reflexivity. }
  simpl. intros data s1 (F1 & Hcap & _ & Hbuf).
  assert (Hb : b0 ≤ RawMemory.buffer_ data) by (apply Hbuf; case_decide; lia).
  apply on_throw_from; [apply _|done|].
  apply on_throw_bind_nothrow; [|intros; nothrows].
  apply on_throw_bind_nothrow; [|intros; nothrows].
  apply on_throw_unwinding; [apply _| |keeps; wr].
  apply on_throw_add_bind.
  apply on_throw_bind; [apply _|keeps; wr|intros _].
  unfold Vector.relocate_by_move.
  destruct Htraits as [Hm|Hc].
  - rewrite Hm. simpl. apply on_throw_nothrow. nothrows; done.
  - destruct is_nothrow_move_constructible eqn:Hm.
    + simpl. apply on_throw_nothrow. nothrows; done.
    + rewrite Hc. simpl.
      apply on_throw_bind; [apply _|keeps; wr|intros _].
      apply on_throw_nothrow. nothrows.
Qed.


End Strong.

(** * The rest of the interface *)

(** ** What the other members compute *)

Section Members.
Context {T W : Type} {E : Element T W}.
Implicit Types s : Store T W Vector.t.
Implicit Types v : Vector.t.
Implicit Types m : Memory T W.
Implicit Types l xs ys : list T.

Lemma total_uninitialized_value_construct_from n k b o m
    (pd rd qd : list (option T)) (Q : unit → Memory T W → Prop) E' :
  cannot_throw ValueCtor →
  heap m !! b = Some (pd ++ rd ++ qd) → length pd = o + k → length rd = n →
  (∀ w, Q tt (mkMemory (<[b := pd ++ replicate n (Some value_init) ++ qd]> (heap m))
                       (brk m) w)) →
  total (uninitialized_value_construct_from k n (Ptr b o) m) Q E'.
Proof.
  intros Hk. revert k m pd rd.
  induction n as [|n IH]; intros k m pd rd Hb Hpd Hrd HQ; simpl in *.
  - destruct rd; [|done]. simpl in *. specialize (HQ (world m)).
    rewrite insert_id in HQ by done. by destruct m.
  - destruct rd as [|r rd]; [done|]. simpl in *.
    apply total_bind, total_try_catch. unfold ptr_add. simpl.
    eapply total_construct_at; [done..| |].
    { rewrite length_app. simpl. lia. }
    intros w.
    eapply (IH (S k) _ (pd ++ [Some value_init]) rd).
    + simpl. rewrite lookup_insert_eq. f_equal.
      rewrite insert_app_r_alt by lia. replace (o + k - length pd) with 0 by lia.
      simpl. by rewrite <-app_assoc.
    + rewrite length_app. simpl. lia.
    + lia.
    + intros w'. simpl. rewrite insert_insert_eq. rewrite <-app_assoc. apply HQ.
Qed.

(** [PopBack] on the fields: the last element is destroyed in place. *)
Lemma PopBack_total this v l s :
  objs s !! this = Some v →
  owns (mem s) v l →
  total (Vector.PopBack this s)
    (λ _ s', ∃ v', objs s' = <[this := v']> (objs s) ∧
                   Vector.data_ v' = Vector.data_ v ∧
                   owns (mem s') v' (take (length l - 1) l) ∧
                   (l = [] → s' = s))
    (λ _, False).
Proof.
  intros Hv (Hlen & Hsz & Hbrk & Hblk). unfold Vector.PopBack.
  apply total_bind. rewrite (get_obj_eq _ _ _ Hv). simpl.
  destruct (decide (0 < Vector.size_ v)) as [Hpos|Hz].
  - destruct (decide (capacity v = 0)); [lia|]. destruct Hblk as [Hb0 Hblk].
    destruct l as [|a l0 _] using rev_ind; [simpl in *; lia|].
    rewrite length_app in *. simpl in *.
    replace (length l0 + 1 - 1) with (length l0) by lia.
    rewrite take_app_length.
    apply total_bind, total_lift. unfold RawMemory.GetAddress, ptr_add. simpl.
    fold (buffer v).
    eapply total_destroy_at; [done| |].
    { unfold slots_of. rewrite fmap_app, <-app_assoc.
      rewrite lookup_app_r by (rewrite length_fmap; lia).
      rewrite length_fmap. by replace (Vector.size_ v - 1 - length l0) with 0 by lia. }
    simpl. rewrite (set_obj_eq _ _ v) by done. simpl.
    eexists. split; [done|]. split; [done|]. split; [|by destruct l0].
    unfold owns, capacity, buffer in *. simpl. split_and!; [lia|lia|done|].
    destruct (decide (_ = 0)); [done|]. split; [done|].
    rewrite lookup_insert_eq. f_equal. unfold slots_of.
    rewrite fmap_app, <-app_assoc, length_app. simpl.
    rewrite insert_app_r_alt by (rewrite length_fmap; lia).
    rewrite length_fmap. replace (Vector.size_ v - 1 - length l0) with 0 by lia.
    simpl. f_equal.
    replace (RawMemory.capacity_ (Vector.data_ v) - length l0)
      with (S (RawMemory.capacity_ (Vector.data_ v) - (length l0 + 1))) by lia.
    done.
  - assert (l = []) as -> by (apply nil_length_inv; lia). simpl.
    exists v. split; [by rewrite insert_id|]. split; [done|]. split; [|done].
    done.
Qed.

(** [Resize]: the first [count] elements stay, value-initialised elements
    fill up to [count]. *)
Lemma Resize_total this v l count s :
  objs s !! this = Some v →
  owns (mem s) v l →
  (length l < count → cannot_throw ValueCtor) →
  (capacity v < count → can_allocate count ∧ cannot_throw relocation) →
  total (Vector.Resize this count s)
    (λ _ s', ∃ v', objs s' = <[this := v']> (objs s) ∧
                   Vector.size_ v' = count ∧
                   capacity v' = capacity v `max` count ∧
                   (count ≤ capacity v → Vector.data_ v' = Vector.data_ v) ∧
                   owns (mem s') v' (take count l ++ replicate (count - length l) value_init))
    (λ _, False).
Proof.
  intros Hv Hown Hvc Hrel. pose proof Hown as (Hlen & Hsz & Hbrk & Hblk).
  unfold Vector.Resize.
  apply total_bind. rewrite (get_obj_eq _ _ _ Hv). simpl.
  destruct (decide (Vector.size_ v < count)) as [Hgrow|Hshrink].
  - apply total_bind.
    eapply total_seq with (Qm := λ _ s1, ∃ v1,
      objs s1 = <[this := v1]> (objs s) ∧ capacity v1 = capacity v `max` count ∧
      Vector.size_ v1 = Vector.size_ v ∧
      (count ≤ capacity v → Vector.data_ v1 = Vector.data_ v) ∧ owns (mem s1) v1 l).
    { destruct (decide (count ≤ capacity v)) as [Hle|Hgt].
      - rewrite (Reserve_noop this v count s) by done. simpl.
        exists v. rewrite insert_id by done. split_and!; try done. lia.
      - destruct Hrel as [[Hfit Hserved] Hrel]; [lia|].
        eapply total_mono;
          [apply (Reserve_total this v l count s (λ _, False)); auto; lia| |done].
        intros _ s1 (v1 & Ho & Hcap & Hsz1 & Hown1). exists v1. split_and!; try done; lia. }
    intros _ s1 (v1 & Ho & Hcap & Hsz1 & Hdata & Hown1).
    assert (objs s1 !! this = Some v1) as Hv1 by (rewrite Ho; by lookups).
    cbv beta. apply total_bind. rewrite (get_obj_eq _ _ _ Hv1). simpl.
    destruct Hown1 as (Hlen1 & Hsz1' & Hbrk1 & Hblk1).
    destruct (decide (capacity v1 = 0)); [lia|]. destruct Hblk1 as [Hb1 Hblk1].
    apply total_lift. unfold uninitialized_value_construct_n, RawMemory.GetAddress, ptr_add.
    simpl. fold (buffer v1).
    eapply (total_uninitialized_value_construct_from _ 0 _ _ _ (Some <$> l)
              (replicate (count - Vector.size_ v1) None)
              (replicate (capacity v1 - count) None)).
    + apply Hvc. lia.
    + rewrite Hblk1. unfold slots_of. f_equal. f_equal.
      rewrite <-replicate_add. f_equal. lia.
    + rewrite length_fmap. lia.
    + by rewrite length_replicate.
    + intros w. simpl.
      apply total_bind. rewrite (get_obj_eq _ _ v1) by done. simpl.
      rewrite (set_obj_eq _ _ v1) by done. simpl.
      eexists. split; [by rewrite Ho, insert_insert_eq|]. simpl.
      split; [done|]. split; [done|]. split; [done|].
      rewrite take_ge by lia.
      unfold owns, capacity, buffer in *. simpl.
      rewrite length_app, length_replicate. split_and!; [lia|lia|done|].
      destruct (decide (RawMemory.capacity_ (Vector.data_ v1) = 0)); [lia|]. split; [done|].
      rewrite lookup_insert_eq. f_equal. unfold slots_of.
      rewrite fmap_app, fmap_replicate, <-app_assoc, length_app, length_replicate.
      do 2 f_equal; [f_equal; lia|f_equal; lia].
  - apply total_bind.
    assert (count ≤ length l) as Hle by lia.
    destruct (decide (capacity v = 0)) as [Hc0|Hc0].
    + assert (l = []) as -> by (apply nil_length_inv; lia).
      simpl in *. assert (count = 0) as -> by lia.
      replace (Vector.size_ v - 0) with 0 by lia. apply total_lift. simpl.
      apply total_bind. rewrite (get_obj_eq _ _ v) by done. simpl.
      rewrite (set_obj_eq _ _ v) by done. simpl.
      destruct s as [[h b w] o]. simpl in *.
      eexists. split; [done|]. simpl. split; [done|].
      split; [unfold capacity; simpl; lia|]. split; [done|].
      unfold owns, capacity, buffer in *. simpl. split_and!; [done|lia|done|].
      by destruct (decide (RawMemory.capacity_ (Vector.data_ v) = 0)).
    + destruct Hblk as [Hb0 Hblk].
      apply total_lift. unfold RawMemory.GetAddress, ptr_add. simpl. fold (buffer v).
      replace (Vector.size_ v - count) with (length (drop count l))
        by (rewrite length_drop; lia).
      eapply (total_destroy_n (drop count l) _ _ _ (Some <$> take count l)
                (replicate (capacity v - length l) None)).
      { rewrite Hblk. unfold slots_of.
        by rewrite app_assoc, <-fmap_app, take_drop. }
      { rewrite length_fmap, length_take. lia. }
      simpl. apply total_bind. rewrite (get_obj_eq _ _ v) by done. simpl.
      rewrite (set_obj_eq _ _ v) by done. simpl.
      eexists. split; [done|]. simpl. split; [done|]. split; [unfold capacity in *; simpl; lia|].
      split; [done|].
      replace (count - length l) with 0 by lia. simpl. rewrite app_nil_r.
      unfold owns, capacity, buffer in *. simpl.
      rewrite length_take. split_and!; [lia|lia|done|].
      destruct (decide (_ = 0)); [done|]. split; [done|].
      rewrite lookup_insert_eq. f_equal. unfold slots_of. f_equal.
      rewrite length_take, length_drop, <-replicate_add. f_equal. lia.
Qed.

(** [Vector(size)]: a block of exactly [size] slots, each holding [T()]. *)
Lemma ctor_size_total this size s :
  objs s !! this = None →
  0 < brk (mem s) →
  can_allocate size →
  cannot_throw ValueCtor →
  total (Vector.ctor_size this size s)
    (λ _ s', ∃ v', objs s' = <[this := v']> (objs s) ∧
                   Vector.size_ v' = size ∧ capacity v' = size ∧
                   (size = 0 → mem s' = mem s) ∧
                   owns (mem s') v' (replicate size value_init))
    (λ _, False).
Proof.
  intros Hnew Hbrk [Hfit Hserved] Hk. unfold Vector.ctor_size.
  apply total_bind, total_lift.
  destruct (decide (size = 0)) as [->|Hn].
  - rewrite init_zero. simpl. apply total_bind, total_unwinding. simpl.
    rewrite new_obj_eq by done. simpl.
    eexists. split; [done|]. split; [done|]. split; [done|]. split; [by destruct s as [[]]|].
    unfold owns, capacity, buffer. simpl. split_and!; [done|lia|lia|done].
  - destruct Hserved as [?|Hserved]; [done|].
    rewrite init_pos by (done || apply Hserved). simpl.
    apply total_bind, total_unwinding, total_lift.
    unfold uninitialized_value_construct_n, RawMemory.GetAddress. simpl.
    eapply (total_uninitialized_value_construct_from size 0 _ 0 _ []
              (replicate size None) []).
    + done.
    + simpl. by rewrite lookup_insert_eq, app_nil_r.
    + done.
    + by rewrite length_replicate.
    + intros w. simpl. rewrite new_obj_eq by done. simpl.
      eexists. split; [done|]. split; [done|]. split; [done|]. split; [done|].
      unfold owns, capacity, buffer. simpl. rewrite length_replicate.
      split_and!; [done|lia|lia|].
      destruct (decide (size = 0)); [done|]. split; [lia|].
      rewrite insert_insert_eq, lookup_insert_eq. f_equal. unfold slots_of.
      rewrite length_replicate, Nat.sub_diag. simpl.
      by rewrite !app_nil_r, fmap_replicate.
Qed.

(** [operator[]] *)
Lemma at_in_range this v l i x s :
  objs s !! this = Some v → owns (mem s) v l → l !! i = Some x →
  Vector.at_ this i s = Ret (Ptr (buffer v) i) s ∧
  lift (load (Ptr (buffer v) i)) s = Ret x s.
Proof.
  intros Hv Hown Hi. pose proof Hown as (Hlen & Hsz & _).
  pose proof (lookup_lt_Some _ _ _ Hi) as Hlt. split.
  - unfold Vector.at_, RawMemory.at_, mbind, M_bind, bind. rewrite (get_obj_eq _ _ _ Hv).
    assert ((i <? Vector.size_ v) = true) as -> by (apply Nat.ltb_lt; lia).
    assert ((i <? RawMemory.capacity_ (Vector.data_ v)) = true) as ->
      by (apply Nat.ltb_lt; unfold capacity in *; lia).
    done.
  - pose proof (owns_load _ _ _ _ _ Hown Hi) as Hload.
    unfold RawMemory.GetAddress, ptr_add in Hload. simpl in Hload.
    unfold lift, buffer. rewrite Hload. by destruct s.
Qed.

Lemma at_out_of_range this v i s :
  objs s !! this = Some v → Vector.size_ v ≤ i → Vector.at_ this i s = Abort.
Proof.
  intros Hv Hi. unfold Vector.at_, mbind, M_bind, bind. rewrite (get_obj_eq _ _ _ Hv).
  by assert ((i <? Vector.size_ v) = false) as -> by (apply Nat.ltb_ge; lia).
Qed.

(** [v[i] = x] *)
Lemma assign_at_total this v l i k x s :
  objs s !! this = Some v → owns (mem s) v l → i < length l →
  cannot_throw k →
  total (assign_at this i k x s)
    (λ _ s', objs s' = objs s ∧ owns (mem s') v (<[i := x]> l))
    (λ _, False).
Proof.
  intros Hv Hown Hi Hk. pose proof Hown as (Hlen & Hsz & Hbrk & Hblk).
  destruct (lookup_lt_is_Some_2 l i Hi) as [y Hy].
  destruct (at_in_range this v l i y s Hv Hown Hy) as [Hat _].
  unfold assign_at. apply total_bind. rewrite Hat. simpl.
  destruct (decide (capacity v = 0)); [lia|]. destruct Hblk as [Hb0 Hblk].
  apply total_lift.
  eapply total_assign_value; [done|exact Hblk| |].
  { unfold slots_of. rewrite lookup_app_l by (rewrite length_fmap; lia).
    by rewrite list_lookup_fmap, Hy. }
  intros w. simpl. split; [done|].
  unfold owns. simpl. rewrite length_insert. split_and!; [done..|].
  destruct (decide (capacity v = 0)); [done|]. split; [done|].
  rewrite lookup_insert_eq. f_equal. unfold slots_of.
  rewrite insert_app_l by (rewrite length_fmap; lia).
  by rewrite list_fmap_insert, length_insert.
Qed.

(** The destructor: the elements end, the block is given back. *)
Lemma fini_total v l m (Q : unit → Memory T W → Prop) E' :
  owns m v l →
  Q tt (mkMemory (if decide (capacity v = 0) then heap m else delete (buffer v) (heap m))
                 (brk m) (world m)) →
  total (Vector.fini v m) Q E'.
Proof.
  intros (Hlen & Hsz & Hbrk & Hblk) HQ. unfold Vector.fini.
  destruct (decide (capacity v = 0)) as [Hc|Hc].
  - assert (l = []) as -> by (apply nil_length_inv; lia).
    simpl in Hlen. rewrite <-Hlen. simpl.
    unfold RawMemory.fini, RawMemory.Deallocate, operator_delete.
    unfold buffer in Hblk. rewrite Hblk. simpl. by destruct m.
  - destruct Hblk as [Hb0 Hblk]. apply total_bind.
    unfold RawMemory.GetAddress. fold (buffer v). rewrite <-Hlen.
    eapply (total_destroy_n l _ 0 _ []); [exact Hblk|done|].
    unfold RawMemory.fini, RawMemory.Deallocate. fold (buffer v).
    eapply total_operator_delete; [simpl; by rewrite lookup_insert_eq|done|].
    simpl. by rewrite delete_insert_eq.
Qed.

Lemma dtor_total this v l s :
  objs s !! this = Some v → owns (mem s) v l →
  total (Vector.dtor this s)
    (λ _ s', objs s' = delete this (objs s) ∧
             brk (mem s') = brk (mem s) ∧
             heap (mem s') = if decide (capacity v = 0) then heap (mem s)
                             else delete (buffer v) (heap (mem s)))
    (λ _, False).
Proof.
  intros Hv Hown. unfold Vector.dtor.
  apply total_bind. rewrite (get_obj_eq _ _ _ Hv). simpl.
  apply total_bind, total_lift. eapply fini_total; [done|]. simpl.
  rewrite (del_obj_eq _ _ v) by done. done.
Qed.

(** [Swap], twice. *)
Lemma Swap_Swap a b va vb s :
  objs s !! a = Some va → objs s !! b = Some vb →
  (Vector.Swap a b;; Vector.Swap a b) s = Ret tt s.
Proof.
  intros Ha Hb. unfold mbind, M_bind, bind. rewrite (Swap_eq a b va vb) by done.
  destruct (decide (a = b)) as [->|Hne].
  - assert (va = vb) as -> by congruence.
    rewrite (Swap_eq b b vb vb) by by lookups. simpl.
    rewrite !insert_insert_eq, insert_id by done. by destruct s.
  - assert (b ≠ a) by done.
    rewrite (Swap_eq a b vb va) by by lookups. simpl. f_equal.
    destruct s as [m o]. simpl in *. f_equal.
    apply map_eq. intros i.
    destruct (decide (i = b)) as [->|]; [by lookups|].
    destruct (decide (i = a)) as [->|]; by lookups.
Qed.

(** [std::copy] onto live elements. *)
Lemma total_copy_from xs k bs so bd do m (ps qs pd : list (option T)) (rd : list T) qd
    (Q : unit → Memory T W → Prop) E' :
  cannot_throw CopyAssign → bs ≠ bd →
  heap m !! bs = Some (ps ++ (Some <$> xs) ++ qs) → length ps = so + k →
  heap m !! bd = Some (pd ++ (Some <$> rd) ++ qd) → length pd = do + k →
  length rd = length xs →
  (∀ w, Q tt (mkMemory (<[bd := pd ++ (Some <$> xs) ++ qd]> (heap m)) (brk m) w)) →
  total (copy_from k (length xs) (Ptr bs so) (Ptr bd do) m) Q E'.
Proof.
  intros Hk Hne. revert k m ps pd rd.
  induction xs as [|x xs IH]; intros k m ps pd rd Hs Hps Hd Hpd Hrd HQ; simpl in *.
  - destruct rd; [|done]. simpl in *. specialize (HQ (world m)).
    rewrite insert_id in HQ by done. by destruct m.
  - destruct rd as [|r rd]; [done|]. simpl in *.
    apply total_bind. unfold copy_assign, ptr_add. simpl.
    apply total_bind. eapply total_load; [done| |].
    { rewrite lookup_app_r by lia. by replace (so + k - length ps) with 0 by lia. }
    eapply (total_assign_value _ _ _ _ r); [done..| |].
    { rewrite lookup_app_r by lia. by replace (do + k - length pd) with 0 by lia. }
    intros w.
    eapply (IH (S k) _ (ps ++ [Some x]) (pd ++ [Some x]) rd).
    + simpl. rewrite lookup_insert_ne by done. rewrite Hs. by rewrite <-app_assoc.
    + rewrite length_app. simpl. lia.
    + simpl. rewrite lookup_insert_eq. f_equal.
      rewrite insert_app_r_alt by lia. replace (do + k - length pd) with 0 by lia.
      simpl. by rewrite <-app_assoc.
    + rewrite length_app. simpl. lia.
    + lia.
    + intros w'. simpl. rewrite insert_insert_eq. rewrite <-app_assoc. apply HQ.
Qed.

(** The fields the copy constructor makes. *)
Lemma copy_init_total o l m (X : Memory T W → Prop) :
  owns m o l → fits (length l) →
  served (length l) ∨ X m →
  cannot_throw CopyCtor ∨ (∀ m', X m') →
  total (Vector.copy_init o m)
    (λ v' m', Vector.size_ v' = length l ∧ capacity v' = length l ∧
              owns m' v' l ∧ owns m' o l ∧
              if decide (l = []) then buffer v' = 0 ∧ heap m' = heap m ∧ brk m' = brk m
              else buffer v' = brk m ∧ brk m' = S (brk m) ∧
                   heap m' = <[brk m := Some <$> l]> (heap m))
    X.
Proof.
  intros Hown Hfit Hnew Hk. pose proof Hown as (Hlen & Hsz & Hbrk & Hblk).
  unfold Vector.copy_init. apply total_bind.
  destruct (decide (l = [])) as [->|Hnil].
  - simpl in Hlen. rewrite <-Hlen, init_zero. simpl.
    split_and!; try done.
    unfold owns, capacity, buffer in *. simpl in *. split_and!; try done. lia.
  - assert (length l ≠ 0) by (by destruct l).
    rewrite Hlen in Hfit, Hnew.
    apply total_init; [lia|done|done|]. simpl.
    destruct (decide (capacity o = 0)) as [|Hc]; [lia|]. destruct Hblk as [Hb0 Hblk].
    unfold buffer, capacity in *.
    assert (RawMemory.buffer_ (Vector.data_ o) ≠ brk m) by lia.
    apply total_bind, total_unwinding.
    unfold uninitialized_copy_n, RawMemory.GetAddress. simpl. rewrite <-Hlen.
    eapply (total_uninitialized_copy_from_any l 0 _ 0 (brk m) 0 _ [] _ [] []
              (replicate (length l) None) []); try done.
    { destruct Hk as [Hk|Hx]; [by left|right]. intros m' Hal.
      destruct (Hal (brk m)) as [sl Hsl]; [simpl; rewrite lookup_insert_eq; eauto|].
      eapply total_operator_delete; [exact Hsl|simpl; lia|].
      simpl. apply Hx. }
    { simpl. rewrite lookup_insert_ne by done. exact Hblk. }
    { simpl. rewrite lookup_insert_eq. by rewrite app_nil_r. }
    { by rewrite length_replicate. }
    intros w. simpl. rewrite insert_insert_eq, app_nil_r.
    split_and!; try done.
    + unfold owns, capacity, buffer. simpl. split_and!; try done; [lia|].
      destruct (decide (length l = 0)); [lia|]. split; [lia|].
      rewrite lookup_insert_eq. unfold slots_of.
      by rewrite Nat.sub_diag, app_nil_r.
    + eapply owns_frame; [exact Hown|simpl; lia|]. simpl.
      unfold buffer. by rewrite !lookup_insert_ne by done.
Qed.

(** Copy assignment between two vectors. *)
Lemma copy_assign_total this rhs v r l lr s :
  this ≠ rhs →
  objs s !! this = Some v → objs s !! rhs = Some r →
  owns (mem s) v l → owns (mem s) r lr →
  (capacity v ≠ 0 → capacity r ≠ 0 → buffer v ≠ buffer r) →
  (capacity v < length lr → can_allocate (length lr)) →
  cannot_throw CopyCtor → cannot_throw CopyAssign →
  total (Vector.copy_assign this rhs s)
    (λ _ s', ∃ v', objs s' = <[this := v']> (objs s) ∧
                   Vector.size_ v' = length lr ∧
                   capacity v' = (if decide (capacity v < length lr) then length lr
                                  else capacity v) ∧
                   (length lr ≤ capacity v → Vector.data_ v' = Vector.data_ v) ∧
                   owns (mem s') v' lr ∧ owns (mem s') r lr)
    (λ _, False).
Proof.
  intros Hne Hv Hr Hown Hownr Hapart Hnew Hcc Hca.
  pose proof Hown as (Hlen & Hsz & Hbrk & Hblk).
  pose proof Hownr as (Hlenr & Hszr & Hbrkr & Hblkr).
  unfold Vector.copy_assign. destruct (decide (this ≠ rhs)); [|done].
  apply total_bind. rewrite (get_obj_eq _ _ _ Hv). simpl.
  apply total_bind. rewrite (get_obj_eq _ _ _ Hr). simpl.
  unfold RawMemory.Capacity. fold (capacity v). rewrite <-Hlenr.
  destruct (decide (capacity v < length lr)) as [Hgrow|Hfit].
  - (* a copy, swapped in; the old block goes with the copy *)
    apply total_bind, total_lift.
    destruct (Hnew Hgrow) as [Hfit' Hserved].
    eapply total_mono; [apply (copy_init_total r lr _ (λ _, False)); auto| |done].
    clear Hnew. intros v' m1 (Hsz' & Hcap' & Hown' & Hownr' & Hnew). simpl.
    assert (lr ≠ []) as Hnil by (intros ->; simpl in *; lia).
    destruct (decide (lr = [])); [done|]. destruct Hnew as (Hbuf & Hbrk1 & Hheap).
    apply total_bind. rewrite (set_obj_eq _ _ v) by done. simpl.
    apply total_lift.
    assert (owns m1 v l) as Hown1.
    { eapply owns_frame; [exact Hown|lia|]. rewrite Hheap.
      rewrite lookup_insert_ne by lia. done. }
    eapply fini_total; [exact Hown1|]. simpl.
    exists v'. split; [done|]. split; [done|]. split; [done|]. split; [lia|].
    assert (capacity r ≠ 0) by lia.
    split.
    + eapply owns_frame; [exact Hown'|simpl; lia|]. simpl.
      destruct (decide (capacity v = 0)); [done|].
      rewrite lookup_delete_ne by lia. done.
    + eapply owns_frame; [exact Hownr'|simpl; lia|]. simpl.
      destruct (decide (capacity v = 0)); [done|].
      rewrite lookup_delete_ne by (apply Hapart; done). done.
  - assert (length lr ≤ capacity v) as Hle by lia.
    destruct (decide (capacity v = 0)) as [Hc0|Hc0].
    { (* nothing to copy, nothing to destroy *)
      assert (lr = []) as -> by (apply nil_length_inv; lia).
      assert (l = []) as -> by (apply nil_length_inv; lia).
      simpl in *. rewrite <-Hlen. simpl.
      unfold std_copy, distance, uninitialized_copy_n, ptr_leb, ptr_add. simpl.
      rewrite Nat.eqb_refl. simpl.
      apply total_bind, total_bind, total_lift. simpl.
      rewrite (set_obj_eq _ _ v) by done. simpl.
      exists (Vector.mk (Vector.data_ v) 0). split; [done|]. split; [done|].
      split; [done|]. split; [done|].
      split; [|by destruct s as [[]]].
      unfold owns, capacity, buffer in *. simpl. split_and!; [done|lia|by destruct s as [[]]|].
      destruct (decide (RawMemory.capacity_ (Vector.data_ v) = 0)); [|done].
      by destruct s as [[]]. }
    destruct Hblk as [Hb0 Hblk].
    set (bd := buffer v) in *. set (bs := buffer r) in *.
    (* the elements of [rhs] over those of [this], as far as both go *)
    set (cnt := length lr `min` length l).
    assert (Hcopy : ∀ (Q : unit → Store T W Vector.t → Prop),
      (∀ w, Q tt (mkStore (mkMemory
                 (<[bd := (Some <$> take cnt lr) ++ (Some <$> drop cnt l) ++
                          replicate (capacity v - length l) None]> (heap (mem s)))
                 (brk (mem s)) w) (objs s))) →
      total (lift (std_copy (Ptr bs 0) (Ptr bs cnt) (Ptr bd 0)) s) Q (λ _, False)).
    { intros Q HQ. apply total_lift. unfold std_copy.
      apply total_bind. unfold distance. apply total_bind, total_assert.
      { unfold ptr_leb. simpl. by rewrite Nat.eqb_refl. }
      simpl. rewrite Nat.sub_0_r.
      destruct (decide (cnt = 0)) as [Hcnt0|Hcnt0].
      - rewrite Hcnt0. simpl. specialize (HQ (world (mem s))).
        rewrite Hcnt0 in HQ. simpl in HQ. rewrite drop_0 in HQ.
        fold (slots_of l (capacity v)) in HQ. rewrite insert_id in HQ by done.
        by destruct s as [[]].
      - assert (capacity r ≠ 0) by lia.
        destruct (decide (capacity r = 0)); [done|]. destruct Hblkr as [Hbs0 Hblkr].
        replace cnt with (length (take cnt lr)) at 1 by (rewrite length_take; lia).
        eapply (total_copy_from (take cnt lr) 0 bs 0 bd 0 _ []
                  ((Some <$> drop cnt lr) ++ replicate (capacity r - length lr) None)
                  [] (take cnt l)
                  ((Some <$> drop cnt l) ++ replicate (capacity v - length l) None));
          try done.
        + intros Heq. apply Hapart; [done|done|by symmetry].
        + simpl. fold bs. rewrite Hblkr. unfold slots_of.
          by rewrite app_assoc, <-fmap_app, take_drop.
        + simpl. fold bd. rewrite Hblk. unfold slots_of.
          by rewrite app_assoc, <-fmap_app, take_drop.
        + rewrite !length_take. lia. }
    assert (Hfin : ∀ h (w : W),
      h !! bd = Some (slots_of lr (capacity v)) →
      (capacity r ≠ 0 → h !! bs = heap (mem s) !! bs) →
      ∃ v', <[this := Vector.mk (Vector.data_ v) (length lr)]> (objs s) =
              <[this := v']> (objs s) ∧
            Vector.size_ v' = length lr ∧
            capacity v' = capacity v ∧
            (length lr ≤ capacity v → Vector.data_ v' = Vector.data_ v) ∧
            owns (mkMemory h (brk (mem s)) w) v' lr ∧
            owns (mkMemory h (brk (mem s)) w) r lr).
    { intros h w Hd Hs. eexists. split; [done|]. split; [done|]. split; [done|].
      split; [done|]. split.
      - unfold owns, capacity, buffer in *. simpl. split_and!; [done|lia|done|].
        destruct (decide (RawMemory.capacity_ (Vector.data_ v) = 0)); [done|].
        split; [exact Hb0|exact Hd].
      - unfold owns in *. simpl. split_and!; [done..|].
        destruct (decide (capacity r = 0)); [done|].
        destruct Hblkr as [? Hblkr]. split; [done|]. fold bs. rewrite Hs by done. done. }
    rewrite <-Hlen. unfold RawMemory.GetAddress, ptr_add. simpl. fold bs bd.
    apply total_bind.
    destruct (decide (length lr < length l)) as [Hless|Hmore].
    + apply total_bind.
      replace (length lr) with cnt at 1 by (unfold cnt; lia).
      apply Hcopy. intros w. simpl. apply total_lift.
      replace (length l - length lr) with (length (drop cnt l))
        by (rewrite length_drop; unfold cnt; lia).
      replace (take cnt lr) with lr by (rewrite take_ge; [done|unfold cnt; lia]).
      eapply (total_destroy_n (drop cnt l) bd _ _ (Some <$> lr)).
      { simpl. by rewrite lookup_insert_eq. }
      { by rewrite length_fmap. }
      simpl. rewrite (set_obj_eq _ _ v) by done. simpl.
      destruct (decide (capacity v < length lr)); [lia|].
      apply Hfin.
      * rewrite insert_insert_eq, lookup_insert_eq. f_equal. unfold slots_of. f_equal.
        rewrite length_drop, <-replicate_add. f_equal. unfold cnt. lia.
      * intros Hcr. rewrite insert_insert_eq, lookup_insert_ne; [done|].
        intros Heq. apply Hapart; [done|done|by symmetry].
    + apply total_bind.
      assert (cnt = length l) as Hcnt by (unfold cnt; lia).
      replace (length l) with cnt at 1 by done.
      apply Hcopy. intros w. simpl. apply total_lift.
      rewrite Hcnt, drop_all. simpl.
      destruct (decide (length lr - length l = 0)) as [Hsame|Hdiff].
      * rewrite Hsame. simpl.
        rewrite (set_obj_eq _ _ v) by done. simpl.
        destruct (decide (capacity v < length lr)); [lia|].
        apply Hfin.
        -- rewrite lookup_insert_eq. f_equal. unfold slots_of.
           rewrite take_ge by lia. do 2 f_equal. lia.
        -- intros Hcr. rewrite lookup_insert_ne; [done|].
           intros Heq. apply Hapart; [done|done|by symmetry].
      * assert (capacity r ≠ 0) by lia.
        destruct (decide (capacity r = 0)); [done|]. destruct Hblkr as [Hbs0 Hblkr].
        assert (bs ≠ bd) by (intros Heq; apply Hapart; [done|done|by symmetry]).
        replace (length lr - length l) with (length (drop (length l) lr))
          by (rewrite length_drop; lia).
        unfold uninitialized_copy_n.
        eapply (total_uninitialized_copy_from (drop (length l) lr) 0 bs _ bd _ _
                  (Some <$> take (length l) lr)
                  (replicate (capacity r - length lr) None)
                  (Some <$> take (length l) lr)
                  (replicate (length lr - length l) None)
                  (replicate (capacity v - length lr) None)); try done.
        -- simpl. rewrite lookup_insert_ne by done. fold bs. rewrite Hblkr. unfold slots_of.
           by rewrite app_assoc, <-fmap_app, take_drop.
        -- rewrite length_fmap, length_take. lia.
        -- simpl. rewrite lookup_insert_eq. do 2 f_equal.
           rewrite <-replicate_add. f_equal. lia.
        -- rewrite length_fmap, length_take. lia.
        -- rewrite length_replicate, length_drop. done.
        -- intros w'. simpl.
           rewrite (set_obj_eq _ _ v) by done. simpl.
           destruct (decide (capacity v < length lr)); [lia|].
           apply Hfin.
           ++ rewrite insert_insert_eq, lookup_insert_eq. f_equal. unfold slots_of.
              by rewrite app_assoc, <-fmap_app, take_drop.
           ++ intros Hcr. rewrite insert_insert_eq, lookup_insert_ne; [done|].
              intros Heq. apply Hapart; [done|done|by symmetry].
Qed.
End Members.

Section Inserting.
Context {T W : Type} {E : Element T W}.
Implicit Types s : Store T W Vector.t.
Implicit Types v : Vector.t.
Implicit Types m : Memory T W.
Implicit Types l xs ys : list T.

Lemma Emplace_total this v l i k x s :
  objs s !! this = Some v →
  owns (mem s) v l →
  i ≤ length l →
  cannot_throw k →
  inserts_well v l →
  total (Vector.Emplace this (Ptr (buffer v) i) (values k x) s)
    (λ p s', ∃ v', objs s' = <[this := v']> (objs s) ∧
                   Vector.size_ v' = S (Vector.size_ v) ∧
                   capacity v' = (if decide (Vector.size_ v = capacity v)
                                  then 1 `max` (2 * length l) else capacity v) ∧
                   (Vector.size_ v < capacity v → Vector.data_ v' = Vector.data_ v) ∧
                   p = Ptr (buffer v') i ∧
                   owns (mem s') v' (take i l ++ x :: drop i l))
    (λ _, False).
Proof.
  intros Hv Hown Hi Hk [(Hfull & Hnew & Hrel)|(Hfree & Hlast & Hmc & Hma)].
  - eapply total_mono; [by apply (Emplace_realloc_total this v l i k x s)| |done].
    intros p s' (v' & Ho & Hcap & Hsz & -> & Hown'). exists v'.
    destruct (decide (Vector.size_ v = capacity v)); [|done].
    split_and!; try done. lia.
  - eapply total_mono; [by apply (Emplace_in_place_total this v l i k x s)| |done].
    intros p s' (v' & Ho & Hdata & Hsz & -> & Hown'). exists v'.
    destruct (decide (Vector.size_ v = capacity v)); [lia|].
    rewrite Hlast in Hown'. unfold capacity, buffer. rewrite Hdata.
    split_and!; done.
Qed.
End Inserting.

Section Interface.
Context {T W : Type} {E : Element T W}.
Implicit Types s : Store T W Vector.t.
Implicit Types v : Vector.t.
Implicit Types m : Memory T W.
Implicit Types l xs ys : list T.

(** X1. [PopBack] returns without throwing.  On a vector that holds elements
    it removes the last one: the others stay in order, the size is one
    less, the capacity and [begin()] are what they were.  On an empty vector
    it does nothing. *)
Theorem PopBack_spec this v l s :
  objs s !! this = Some v →
  owns (mem s) v l →
  ∃ s', Vector.PopBack this s = Ret tt s' ∧
        elements s' this = Some (take (length l - 1) l) ∧
        size_of s' this = Some (length l - 1) ∧
        capacity_of s' this = capacity_of s this ∧
        Vector.begin this s' = Ret (RawMemory.GetAddress (Vector.data_ v)) s' ∧
        (l = [] → s' = s).
Proof.
  intros Hv Hown.
  destruct (total_returns _ _ (PopBack_total this v l s Hv Hown))
    as ([] & s' & Hret & v' & Ho & Hdata & Hown' & Hnil).
  exists s'. split; [done|].
  assert (objs s' !! this = Some v') as Hv' by (rewrite Ho; by lookups).
  destruct (owns_observed this v' _ s' Hv' Hown') as (Hel & Hsz & Hcap).
  destruct (owns_observed this v _ s Hv Hown) as (_ & _ & Hcap0).
  split; [done|]. split.
  { rewrite Hsz, length_take. f_equal. lia. }
  split; [by rewrite Hcap, Hcap0; unfold capacity; rewrite Hdata|].
  split; [|done].
  unfold Vector.begin, mbind, M_bind, bind. rewrite (get_obj_eq _ _ _ Hv'). simpl.
  by rewrite Hdata.
Qed.

(** X2. [Resize(count)] returns with size [count], provided the constructors
    it calls do not throw and, when [count] exceeds the capacity, a block
    of [count] objects can be had ([count * sizeof(T)] is a [size_t] and
    [operator new] serves the request): the first [count] elements are the
    old ones, in order, and value-initialised elements follow them when
    [count] exceeds the old size.  The capacity stays when [count] fits in
    it, the storage too; otherwise it becomes exactly [count]. *)
Theorem Resize_spec this v l count s :
  objs s !! this = Some v →
  owns (mem s) v l →
  (length l < count → cannot_throw ValueCtor) →
  (capacity v < count → can_allocate count ∧ cannot_throw relocation) →
  ∃ s', Vector.Resize this count s = Ret tt s' ∧
        elements s' this = Some (take count l ++ replicate (count - length l) value_init) ∧
        size_of s' this = Some count ∧
        capacity_of s' this = Some (capacity v `max` count) ∧
        (count ≤ capacity v →
           Vector.begin this s' = Ret (RawMemory.GetAddress (Vector.data_ v)) s').
Proof.
  intros Hv Hown Hvc Hrel.
  destruct (total_returns _ _ (Resize_total this v l count s Hv Hown Hvc Hrel))
    as ([] & s' & Hret & v' & Ho & Hsz & Hcap & Hdata & Hown').
  exists s'. split; [done|].
  assert (objs s' !! this = Some v') as Hv' by (rewrite Ho; by lookups).
  destruct (owns_observed this v' _ s' Hv' Hown') as (Hel & _ & Hcap').
  split; [done|]. split; [unfold size_of; by rewrite Hv'; simpl; rewrite Hsz|].
  split; [by rewrite Hcap', Hcap|].
  intros Hle. unfold Vector.begin, mbind, M_bind, bind. rewrite (get_obj_eq _ _ _ Hv'). simpl.
  by rewrite (Hdata Hle).
Qed.

(** X3. [Vector(size)], when a block of [size] objects can be had
    ([size * sizeof(T)] is a [size_t] and [operator new] serves the request)
    and the value constructor does not throw, makes a vector of [size]
    value-initialised elements whose capacity is [size]; for [size = 0] it
    allocates nothing. *)
Theorem ctor_size_spec this size s :
  objs s !! this = None →
  0 < brk (mem s) →
  can_allocate size →
  cannot_throw ValueCtor →
  ∃ s', Vector.ctor_size this size s = Ret tt s' ∧
        elements s' this = Some (replicate size value_init) ∧
        size_of s' this = Some size ∧
        capacity_of s' this = Some size ∧
        (size = 0 → mem s' = mem s) ∧
        (∀ id, id ≠ this → objs s' !! id = objs s !! id).
Proof.
  intros Hnew Hbrk Hca Hk.
  destruct (total_returns _ _ (ctor_size_total this size s Hnew Hbrk Hca Hk))
    as ([] & s' & Hret & v' & Ho & Hsz & Hcap & Hzero & Hown').
  exists s'. split; [done|].
  assert (objs s' !! this = Some v') as Hv' by (rewrite Ho; by lookups).
  destruct (owns_observed this v' _ s' Hv' Hown') as (Hel & Hsz' & Hcap').
  split; [done|]. split; [by rewrite Hsz', length_replicate|].
  split; [by rewrite Hcap', Hcap|]. split; [done|].
  intros id Hid. rewrite Ho. by lookups.
Qed.

(** X4. [operator[]]: for an index below the size it returns the address of
    the element at that index, [begin() + index], where the element is read;
    for any other index the assertion fails. *)
Theorem subscript_spec this v l i s :
  objs s !! this = Some v →
  owns (mem s) v l →
  match l !! i with
  | Some x =>
      Vector.at_ this i s = Ret (RawMemory.GetAddress (Vector.data_ v) +ₚ i) s ∧
      lift (load (RawMemory.GetAddress (Vector.data_ v) +ₚ i)) s = Ret x s
  | None => Vector.at_ this i s = Abort
  end.
Proof.
  intros Hv Hown. destruct (l !! i) as [x|] eqn:Hi.
  - exact (at_in_range this v l i x s Hv Hown Hi).
  - apply (at_out_of_range this v i s Hv). destruct Hown as [<- _].
    by apply lookup_ge_None.
Qed.

(** X5. An assignment through [operator[]], [v[i] = x] with [i] below the
    size, the assignment of [T] not throwing: the element at [i] becomes [x],
    every other element, the size and the capacity stay, and [v[i]] then
    reads [x]. *)
Theorem subscript_assign this v l i k x s :
  objs s !! this = Some v →
  owns (mem s) v l →
  i < length l →
  cannot_throw k →
  ∃ s', assign_at this i k x s = Ret tt s' ∧
        elements s' this = Some (<[i := x]> l) ∧
        size_of s' this = size_of s this ∧
        capacity_of s' this = capacity_of s this ∧
        (p ← Vector.at_ this i; lift (load p)) s' = Ret x s'.
Proof.
  intros Hv Hown Hi Hk.
  destruct (total_returns _ _ (assign_at_total this v l i k x s Hv Hown Hi Hk))
    as ([] & s' & Hret & Ho & Hown').
  exists s'. split; [done|].
  assert (objs s' !! this = Some v) as Hv' by (by rewrite Ho).
  destruct (owns_observed this v _ s' Hv' Hown') as (Hel & Hsz & Hcap).
  destruct (owns_observed this v _ s Hv Hown) as (_ & Hsz0 & Hcap0).
  split; [done|]. split; [by rewrite Hsz, Hsz0, length_insert|].
  split; [by rewrite Hcap, Hcap0|].
  assert (<[i := x]> l !! i = Some x) as Hx by (by apply list_lookup_insert_eq).
  destruct (at_in_range this v _ i x s' Hv' Hown' Hx) as [Hat Hload].
  unfold mbind, M_bind, bind. by rewrite Hat.
Qed.

(** X6. [Swap] exchanges the contents of two vectors without touching an
    element: each vector gets the elements, the size and the capacity of the
    other, the memory is what it was, no other vector changes.  Swapping
    twice, or a vector with itself, changes nothing. *)
Theorem Swap_exchanges a b va vb s :
  objs s !! a = Some va →
  objs s !! b = Some vb →
  ∃ s', Vector.Swap a b s = Ret tt s' ∧
        mem s' = mem s ∧
        elements s' a = elements s b ∧ elements s' b = elements s a ∧
        size_of s' a = size_of s b ∧ size_of s' b = size_of s a ∧
        capacity_of s' a = capacity_of s b ∧ capacity_of s' b = capacity_of s a ∧
        (∀ c, c ≠ a → c ≠ b → objs s' !! c = objs s !! c) ∧
        Vector.Swap a b s' = Ret tt s ∧
        (a = b → s' = s).
Proof.
  intros Ha Hb. pose proof (Swap_Swap a b va vb s Ha Hb) as Htwice.
  unfold mbind, M_bind, bind in Htwice.
  rewrite (Swap_eq a b va vb s Ha Hb) in *.
  exists (mkStore (mem s) (<[b := va]> (<[a := vb]> (objs s)))).
  split; [done|]. split; [done|].
  unfold elements, size_of, capacity_of. simpl. rewrite Ha, Hb.
  destruct (decide (a = b)) as [<-|Hne].
  - assert (va = vb) as -> by congruence.
    split_and!; try by lookups.
    + intros c Hca _. by lookups.
    + intros _. rewrite insert_insert_eq, insert_id by done. apply store_eta.
  - assert (b ≠ a) by done. split_and!; try by lookups.
    intros c Hca Hcb. by lookups.
Qed.
End Interface.

Section Lifetime.
Context {T W : Type} {E : Element T W}.
Implicit Types s : Store T W Vector.t.
Implicit Types v : Vector.t.
Implicit Types m : Memory T W.
Implicit Types l xs ys : list T.

(** X7. The destructor returns without throwing: the vector is no more, its
    block is given back to the allocator, every other block and every other
    vector is what it was. *)
Theorem dtor_frees this v l s :
  objs s !! this = Some v →
  owns (mem s) v l →
  ∃ s', Vector.dtor this s = Ret tt s' ∧
        objs s' = delete this (objs s) ∧
        (capacity v ≠ 0 → heap (mem s') !! buffer v = None) ∧
        (∀ a, a ≠ buffer v → heap (mem s') !! a = heap (mem s) !! a) ∧
        (capacity v = 0 → heap (mem s') = heap (mem s)).
Proof.
  intros Hv Hown.
  destruct (total_returns _ _ (dtor_total this v l s Hv Hown))
    as ([] & s' & Hret & Ho & Hbrk & Hheap).
  exists s'. split; [done|]. split; [done|]. rewrite Hheap.
  destruct (decide (capacity v = 0)); split_and!; try done.
  - intros _. apply lookup_delete_eq.
  - intros a Ha. by apply lookup_delete_ne.
Qed.

(** X8. A copy that is made and destroyed leaves no trace, whatever the
    element type, the elements of the source being in memory ([fits]): when
    the copy constructor returns, the destructor of the copy returns too,
    and the vectors and the blocks of the heap are what they were before
    the copy.  The one other outcome is that the copy constructor throws;
    the vectors then have the fields they had.  The two calls return
    whenever [operator new] serves the request and the copy constructor of
    the element type does not throw. *)
Theorem copy_then_destroy this other o l s :
  objs s !! other = Some o →
  owns (mem s) o l →
  objs s !! this = None →
  heap (mem s) !! brk (mem s) = None →
  fits (Vector.size_ o) →
  total ((Vector.ctor_copy this other;; Vector.dtor this) s)
    (λ _ s', objs s' = objs s ∧ heap (mem s') = heap (mem s))
    (λ s', objs s' = objs s) ∧
  (served (Vector.size_ o) → cannot_throw CopyCtor →
     returns ((Vector.ctor_copy this other;; Vector.dtor this) s) = true).
Proof.
  intros Ho Hown Hnew Hfresh Hfit.
  assert (∀ X : Store T W Vector.t → Prop,
    served (Vector.size_ o) ∨ X s →
    cannot_throw CopyCtor ∨ (∀ m', X (mkStore m' (objs s))) →
    total ((Vector.ctor_copy this other;; Vector.dtor this) s)
      (λ _ s', objs s' = objs s ∧ heap (mem s') = heap (mem s)) X) as H.
  { intros X Hserved Hk. pose proof Hown as (Hlen & _).
    apply total_bind. unfold Vector.ctor_copy.
    apply total_bind. rewrite (get_obj_eq _ _ _ Ho). simpl.
    apply total_bind, total_lift.
    eapply total_mono;
      [apply (copy_init_total o l _ (λ m', X (mkStore m' (objs s))))| |done].
    { done. }
    { by rewrite Hlen. }
    { rewrite Hlen. destruct Hserved; [by left|right]. by rewrite store_eta. }
    { done. }
    intros v' m1 (Hsz' & Hcap' & Hown' & Hownr' & Hnew'). simpl.
    rewrite new_obj_eq by done. simpl.
    eapply total_mono; [apply (dtor_total this v' l); [by lookups|done]| |done].
    intros _ s2 (Ho2 & Hbrk2 & Hheap2). simpl in *.
    split; [by rewrite Ho2, delete_insert_id|].
    rewrite Hheap2.
    destruct (decide (l = [])) as [->|Hnil].
    - destruct Hnew' as (Hb & Hh & _). simpl in *. rewrite Hcap'.
      by destruct (decide (0 = 0)).
    - destruct Hnew' as (Hb & _ & Hh). rewrite Hcap'.
      destruct (decide (length l = 0)); [by destruct l|].
      by rewrite Hb, Hh, delete_insert_id. }
  split.
  - apply (H (λ s', objs s' = objs s)); by right.
  - intros Hserved Hk.
    pose proof (H (λ _, False) (or_introl Hserved) (or_introl Hk)) as H'.
    by destruct ((Vector.ctor_copy this other;; Vector.dtor this) s).
Qed.

(** X9. After a move construction the source can be destroyed: the destructor
    of the moved-from vector frees nothing, the new vector holds the
    elements, and the memory is what it was before the move. *)
Theorem move_then_destroy_source a b va l s :
  objs s !! a = Some va →
  owns (mem s) va l →
  objs s !! b = None →
  ∃ s', (Vector.ctor_move b a;; Vector.dtor a) s = Ret tt s' ∧
        mem s' = mem s ∧
        objs s' !! a = None ∧
        objs s' !! b = Some va ∧
        elements s' b = Some l.
Proof.
  intros Ha Hown Hb. assert (b ≠ a) by (intros ->; congruence).
  assert (a ≠ b) by done.
  unfold Vector.ctor_move, Vector.dtor, mbind, M_bind, bind.
  rewrite (new_obj_eq _ _ _ Hb).
  rewrite (Swap_eq b a Vector.empty va) by by lookups. simpl.
  rewrite (get_obj_eq _ _ Vector.empty) by by lookups.
  unfold lift, Vector.fini, RawMemory.fini, RawMemory.Deallocate, operator_delete,
    mbind, M_bind, bind. simpl.
  rewrite (del_obj_eq _ _ Vector.empty) by by lookups. simpl.
  eexists. split; [done|]. simpl. split; [by destruct s as [[]]|].
  split; [by rewrite lookup_delete_eq|].
  assert (delete a (<[a:=Vector.empty]> (<[b:=va]> (<[b:=Vector.empty]> (objs s)))) !! b
          = Some va) as Hvb.
  { rewrite lookup_delete_ne by done. by lookups. }
  split; [done|].
  unfold elements. simpl. rewrite Hvb. simpl.
  rewrite <-(owns_contents _ _ _ Hown). by destruct s as [[]].
Qed.

(** X10. Copy assignment between two vectors, the copies not throwing: the
    target gets the elements of the source, in order, and its size; the
    source is unchanged.  When the size of the source exceeds the capacity
    of the target (and a block of that size can be had) the capacity becomes
    that size, otherwise the target keeps its capacity and its storage. *)
Theorem copy_assign_spec this rhs v r l lr s :
  this ≠ rhs →
  objs s !! this = Some v → objs s !! rhs = Some r →
  owns (mem s) v l → owns (mem s) r lr →
  (capacity v ≠ 0 → capacity r ≠ 0 → buffer v ≠ buffer r) →
  (capacity v < length lr → can_allocate (length lr)) →
  cannot_throw CopyCtor → cannot_throw CopyAssign →
  ∃ s', Vector.copy_assign this rhs s = Ret tt s' ∧
        elements s' this = Some lr ∧
        size_of s' this = Some (length lr) ∧
        capacity_of s' this =
          Some (if decide (capacity v < length lr) then length lr else capacity v) ∧
        unchanged rhs s s' ∧
        (length lr ≤ capacity v →
           Vector.begin this s' = Ret (RawMemory.GetAddress (Vector.data_ v)) s').
Proof.
  intros Hne Hv Hr Hown Hownr Hapart Hnew Hcc Hca.
  destruct (total_returns _ _
    (copy_assign_total this rhs v r l lr s Hne Hv Hr Hown Hownr Hapart Hnew Hcc Hca))
    as ([] & s' & Hret & v' & Ho & Hsz & Hcap & Hdata & Hown' & Hownr').
  exists s'. split; [done|].
  assert (objs s' !! this = Some v') as Hv' by (rewrite Ho; by lookups).
  assert (objs s' !! rhs = Some r) as Hr' by (rewrite Ho; by lookups).
  destruct (owns_observed this v' _ s' Hv' Hown') as (Hel & Hsz' & Hcap').
  destruct (owns_observed rhs r _ s' Hr' Hownr') as (Helr' & Hszr' & Hcapr').
  destruct (owns_observed rhs r _ s Hr Hownr) as (Helr & Hszr & Hcapr).
  split; [done|]. split; [done|]. split; [by rewrite Hcap', Hcap|].
  split; [unfold unchanged; by rewrite Helr, Helr', Hszr, Hszr', Hcapr, Hcapr'|].
  intros Hle. unfold Vector.begin, mbind, M_bind, bind. rewrite (get_obj_eq _ _ _ Hv'). simpl.
  by rewrite (Hdata Hle).
Qed.
End Lifetime.

Section Insertion.
Context {T W : Type} {E : Element T W}.
Implicit Types s : Store T W Vector.t.
Implicit Types v : Vector.t.
Implicit Types m : Memory T W.
Implicit Types l xs ys : list T.

(** What a caller sees after an [Emplace] that inserts. *)
Lemma Emplace_observed this v l i k x s :
  objs s !! this = Some v →
  owns (mem s) v l →
  i ≤ length l →
  cannot_throw k →
  inserts_well v l →
  ∃ p s' v', Vector.Emplace this (RawMemory.GetAddress (Vector.data_ v) +ₚ i) (values k x) s = Ret p s' ∧
        objs s' !! this = Some v' ∧
        owns (mem s') v' (take i l ++ x :: drop i l) ∧
        p = Ptr (buffer v') i ∧
        capacity v' = (if decide (Vector.size_ v = capacity v)
                       then 1 `max` (2 * length l) else capacity v) ∧
        (Vector.size_ v < capacity v → Vector.data_ v' = Vector.data_ v) ∧
        elements s' this = Some (take i l ++ x :: drop i l) ∧
        size_of s' this = Some (S (length l)) ∧
        Vector.at_ this i s' = Ret p s' ∧
        lift (load p) s' = Ret x s'.
Proof.
  intros Hv Hown Hi Hk Hw.
  destruct (total_returns _ _ (Emplace_total this v l i k x s Hv Hown Hi Hk Hw))
    as (p & s' & Hret & v' & Ho & Hsz & Hcap & Hdata & -> & Hown').
  exists (Ptr (buffer v') i), s', v'. split; [exact Hret|].
  assert (objs s' !! this = Some v') as Hv' by (rewrite Ho; by lookups).
  destruct (owns_observed this v' _ s' Hv' Hown') as (Hel & Hsz' & Hcap').
  assert ((take i l ++ x :: drop i l) !! i = Some x) as Hx.
  { apply list_lookup_middle. rewrite length_take. lia. }
  destruct (at_in_range this v' _ i x s' Hv' Hown' Hx) as [Hat Hload].
  split_and!; try done.
  rewrite Hsz', length_app, length_take. simpl. rewrite length_drop. f_equal. lia.
Qed.

(** X11. [Emplace] (and so [Insert]) into a vector whose size equals its
    capacity, of arguments that are no elements of a vector, when the
    larger block can be had and the constructors called do not throw: the
    elements from [pos] on are one index further, the new element is at the
    index of [pos], the elements before it stay; the size is one more, the
    capacity [max(1, 2 * size)].  The iterator returned is the address of
    the new element in the new block, which [operator[]] gives for that
    index. *)
Theorem Emplace_at_capacity this v l i k x s :
  objs s !! this = Some v →
  owns (mem s) v l →
  Vector.size_ v = capacity v →
  i ≤ length l →
  can_allocate (1 `max` (2 * length l)) →
  cannot_throw k → cannot_throw relocation →
  ∃ p s', Vector.Emplace this (RawMemory.GetAddress (Vector.data_ v) +ₚ i) (values k x) s = Ret p s' ∧
          elements s' this = Some (take i l ++ x :: drop i l) ∧
          size_of s' this = Some (S (length l)) ∧
          capacity_of s' this = Some (1 `max` (2 * length l)) ∧
          Vector.at_ this i s' = Ret p s' ∧
          lift (load p) s' = Ret x s'.
Proof.
  intros Hv Hown Hfull Hi Hnew Hk Hrel.
  destruct (Emplace_observed this v l i k x s Hv Hown Hi Hk)
    as (p & s' & v' & Hret & Hv' & Hown' & _ & Hcap & _ & Hel & Hsz & Hat & Hload);
    [by left|].
  exists p, s'. split_and!; try done.
  destruct (owns_observed this v' _ s' Hv' Hown') as (_ & _ & ->).
  rewrite Hcap. by destruct (decide (Vector.size_ v = capacity v)).
Qed.

(** X12. [Emplace] into a vector with a free slot, of arguments that are no
    elements of a vector, when a move leaves the last element as it is (as
    for [int]) or the vector is empty, and the calls into [T] do not throw:
    the new element is inserted at [pos], the storage and the capacity
    stay, the iterator returned is [pos]. *)
Theorem Emplace_with_room this v l i k x s :
  objs s !! this = Some v →
  owns (mem s) v l →
  Vector.size_ v < capacity v →
  i ≤ length l →
  last_moved_from l = l →
  cannot_throw k → cannot_throw MoveCtor → cannot_throw MoveAssign →
  let pos := RawMemory.GetAddress (Vector.data_ v) +ₚ i in
  ∃ s', Vector.Emplace this pos (values k x) s = Ret pos s' ∧
        elements s' this = Some (take i l ++ x :: drop i l) ∧
        size_of s' this = Some (S (length l)) ∧
        capacity_of s' this = capacity_of s this ∧
        Vector.begin this s' = Ret (RawMemory.GetAddress (Vector.data_ v)) s' ∧
        lift (load pos) s' = Ret x s'.
Proof.
  intros Hv Hown Hfree Hi Hlast Hk Hmc Hma pos.
  destruct (Emplace_observed this v l i k x s Hv Hown Hi Hk)
    as (p & s' & v' & Hret & Hv' & Hown' & Hp & Hcap & Hdata & Hel & Hsz & Hat & Hload);
    [by right|].
  specialize (Hdata Hfree).
  assert (p = pos) as -> by (subst p; unfold buffer; by rewrite Hdata).
  exists s'. split_and!; try done.
  - destruct (owns_observed this v' _ s' Hv' Hown') as (_ & _ & ->).
    destruct (owns_observed this v _ s Hv Hown) as (_ & _ & ->).
    unfold capacity. by rewrite Hdata.
  - unfold Vector.begin, mbind, M_bind, bind. rewrite (get_obj_eq _ _ _ Hv'). simpl.
    by rewrite Hdata.
Qed.

(** X26. [Insert(pos, value)] into a vector with a free slot, where [value]
    is the element [v[j]] of the vector itself, [j] other than the index of
    [pos], a move leaves the last element as it is and the calls into [T] do
    not throw.  The reference is read once the elements from [pos] on have
    moved one slot to the back: the element inserted is [v[j]] when [j] is
    before [pos], and the old [v[j - 1]] when [j] is after [pos]. *)
Theorem Insert_own_element_with_room this v l i j y s :
  objs s !! this = Some v →
  owns (mem s) v l →
  Vector.size_ v < capacity v →
  i ≤ length l →
  j < length l → j ≠ i →
  last_moved_from l = l →
  l !! (if decide (j < i) then j else j - 1) = Some y →
  cannot_throw CopyCtor → cannot_throw MoveCtor → cannot_throw MoveAssign →
  let begin := RawMemory.GetAddress (Vector.data_ v) in
  ∃ s', Vector.Insert_copy this (begin +ₚ i) (element (begin +ₚ j)) s = Ret (begin +ₚ i) s' ∧
        elements s' this = Some (take i l ++ y :: drop i l) ∧
        size_of s' this = Some (S (length l)) ∧
        capacity_of s' this = capacity_of s this.
Proof.
  intros Hv Hown Hfree Hi Hj Hne Hlast Hy Hk Hmc Hma begin.
  rewrite <-Hlast in Hy.
  destruct (total_returns _ _
              (Emplace_in_place_lvalue this v l i j y s Hv Hown Hfree Hi Hj Hne Hy Hk Hmc Hma))
    as (p & s' & Hret & v' & Ho & Hdata & Hsz & -> & Hown').
  rewrite Hlast in Hown'.
  assert (objs s' !! this = Some v') as Hv' by (rewrite Ho; apply lookup_insert_eq).
  destruct (owns_observed this v' _ s' Hv' Hown') as (Hel & Hsz' & Hcap').
  destruct (owns_observed this v _ s Hv Hown) as (_ & _ & Hcap).
  exists s'. split_and!.
  - exact Hret.
  - exact Hel.
  - rewrite Hsz', length_app, length_take. simpl. rewrite length_drop. f_equal. lia.
  - rewrite Hcap', Hcap. unfold capacity. by rewrite Hdata.
Qed.

(** X29. [Insert(pos, value)] into a vector whose size equals its capacity,
    where [value] is the element [v[j]] of the vector itself, when the
    larger block can be had and the copy constructor and the constructor
    that relocates do not throw.  The new element is constructed in the new
    block before any element is relocated, so that the element inserted is
    [v[j]] whatever [j] is: the result is the insertion of the old [v[j]] at
    the index of [pos], and the iterator returned is the address
    [operator[]] gives for that index. *)
Theorem Insert_own_element_at_capacity this v l i j y s :
  objs s !! this = Some v →
  owns (mem s) v l →
  Vector.size_ v = capacity v →
  i ≤ length l →
  l !! j = Some y →
  can_allocate (1 `max` (2 * length l)) →
  cannot_throw CopyCtor → cannot_throw relocation →
  let begin := RawMemory.GetAddress (Vector.data_ v) in
  ∃ p s', Vector.Insert_copy this (begin +ₚ i) (element (begin +ₚ j)) s = Ret p s' ∧
          elements s' this = Some (take i l ++ y :: drop i l) ∧
          size_of s' this = Some (S (length l)) ∧
          capacity_of s' this = Some (1 `max` (2 * length l)) ∧
          Vector.at_ this i s' = Ret p s' ∧
          lift (load p) s' = Ret y s'.
Proof.
  intros Hv Hown Hfull Hi Hy Hnew Hk Hrel begin.
  destruct (total_returns _ _
              (Emplace_realloc_lvalue this v l i j y s Hv Hown Hfull Hi Hy Hnew Hk Hrel))
    as (p & s' & Hret & v' & Ho & Hcap & Hsz & -> & Hown').
  assert (objs s' !! this = Some v') as Hv' by (rewrite Ho; apply lookup_insert_eq).
  destruct (owns_observed this v' _ s' Hv' Hown') as (Hel & Hsz' & Hcap').
  assert ((take i l ++ y :: drop i l) !! i = Some y) as Hx.
  { apply list_lookup_middle. rewrite length_take. lia. }
  destruct (at_in_range this v' _ i y s' Hv' Hown' Hx) as [Hat Hload].
  exists (Ptr (buffer v') i), s'. split_and!.
  - exact Hret.
  - exact Hel.
  - rewrite Hsz', length_app, length_take. simpl. rewrite length_drop. f_equal. lia.
  - by rewrite Hcap', Hcap.
  - exact Hat.
  - exact Hload.
Qed.

(** X13. [PushBack] and [EmplaceBack] of an argument that is no element of a
    vector, the constructor called not throwing, where [Emplace] inserts (a
    full vector, when the larger block can be had and the relocation does
    not throw; or a free slot and a last element that a move leaves as it
    is, when the moves do not throw): the new element follows the old ones,
    and the reference [EmplaceBack] returns is to it. *)
Theorem PushBack_appends this v l k x s :
  objs s !! this = Some v →
  owns (mem s) v l →
  cannot_throw k →
  inserts_well v l →
  ∃ p s', Vector.EmplaceBack this (values k x) s = Ret p s' ∧
          Vector.PushBack this (values k x) s = Ret tt s' ∧
          elements s' this = Some (l ++ [x]) ∧
          size_of s' this = Some (S (length l)) ∧
          lift (load p) s' = Ret x s'.
Proof.
  intros Hv Hown Hk Hw. pose proof Hown as (Hlen & _).
  destruct (Emplace_observed this v l (length l) k x s Hv Hown (le_n _) Hk Hw)
    as (p & s' & v' & Hret & Hv' & Hown' & Hp & Hcap & Hdata & Hel & Hsz & Hat & Hload).
  rewrite take_ge, drop_ge in Hel by done.
  assert (Vector.EmplaceBack this (values k x) s = Ret p s') as Hback.
  { unfold Vector.EmplaceBack, Vector.end_, mbind, M_bind, bind.
    rewrite (get_obj_eq _ _ _ Hv). simpl. rewrite <-Hlen. exact Hret. }
  exists p, s'. split_and!; try done.
  unfold Vector.PushBack, mbind, M_bind, bind. by rewrite Hback.
Qed.

(** X14. [PushBack] then [PopBack], under the conditions of X13 (where
    [Emplace] inserts): the vector has the elements and the size it had. *)
Theorem PushBack_PopBack this v l k x s :
  objs s !! this = Some v →
  owns (mem s) v l →
  cannot_throw k →
  inserts_well v l →
  ∃ s', (Vector.PushBack this (values k x);; Vector.PopBack this) s = Ret tt s' ∧
        elements s' this = elements s this ∧
        size_of s' this = size_of s this.
Proof.
  intros Hv Hown Hk Hw. pose proof Hown as (Hlen & _).
  destruct (Emplace_observed this v l (length l) k x s Hv Hown (le_n _) Hk Hw)
    as (p & s1 & v1 & Hret & Hv1 & Hown1 & _).
  rewrite take_ge, drop_ge in Hown1 by done.
  destruct (total_returns _ _ (PopBack_total this v1 _ s1 Hv1 Hown1))
    as ([] & s' & Hpop & v' & Ho & Hdata & Hown' & _).
  rewrite length_app in Hown'. simpl in Hown'.
  replace (length l + 1 - 1) with (length l) in Hown' by lia.
  rewrite take_app_length in Hown'.
  exists s'. split.
  - unfold Vector.PushBack, Vector.EmplaceBack, Vector.end_, mbind, M_bind, bind.
    rewrite (get_obj_eq _ _ _ Hv). simpl. rewrite <-Hlen, Hret. exact Hpop.
  - assert (objs s' !! this = Some v') as Hv' by (rewrite Ho; by lookups).
    destruct (owns_observed this v' _ s' Hv' Hown') as (-> & -> & _).
    by destruct (owns_observed this v _ s Hv Hown) as (-> & -> & _).
Qed.

(** X15. [Erase] at the iterator that [Emplace] returned, where [Emplace]
    inserts (as in X13) and the move assignment does not throw: the vector
    has the elements and the size it had. *)
Theorem Emplace_Erase this v l i k x s :
  objs s !! this = Some v →
  owns (mem s) v l →
  i ≤ length l →
  cannot_throw k → cannot_throw MoveAssign →
  inserts_well v l →
  ∃ p s', (p ← Vector.Emplace this (RawMemory.GetAddress (Vector.data_ v) +ₚ i) (values k x);
           Vector.Erase this p) s = Ret p s' ∧
          elements s' this = elements s this ∧
          size_of s' this = size_of s this.
Proof.
  intros Hv Hown Hi Hk Hma Hw.
  destruct (Emplace_observed this v l i k x s Hv Hown Hi Hk Hw)
    as (p & s1 & v1 & Hret & Hv1 & Hown1 & -> & _).
  assert (i < length (take i l ++ x :: drop i l)) as Hlt.
  { rewrite length_app, length_take. simpl. lia. }
  destruct (total_returns _ _
              (Erase_total this v1 _ i s1 (λ _, False) Hv1 Hown1 Hlt (or_introl Hma)))
    as (p & s' & Herase & -> & v' & Ho & Hdata & Hsz & Hown').
  replace (delete i (take i l ++ x :: drop i l)) with l in Hown'.
  2:{ replace i with (length (take i l)) at 1 by (rewrite length_take; lia).
      by rewrite delete_middle, take_drop. }
  exists (Ptr (buffer v1) i), s'. split.
  - unfold mbind, M_bind, bind. rewrite Hret. exact Herase.
  - assert (objs s' !! this = Some v') as Hv' by (rewrite Ho; by lookups).
    destruct (owns_observed this v' _ s' Hv' Hown') as (-> & -> & _).
    by destruct (owns_observed this v _ s Hv Hown) as (-> & -> & _).
Qed.
End Insertion.

Section Appending.
Context {T W : Type} {E : Element T W}.
Implicit Types s : Store T W Vector.t.
Implicit Types v : Vector.t.
Implicit Types m : Memory T W.
Implicit Types l xs ys : list T.

Lemma last_moved_from_id l : (∀ x, moved_from x = x) → last_moved_from l = l.
Proof.
  intros Hid. unfold last_moved_from. apply list_eq. intros i.
  destruct (decide (i = length l - 1)) as [->|Hne].
  - rewrite list_lookup_alter_eq. destruct (l !! _); simpl; by rewrite ?Hid.
  - by rewrite list_lookup_alter_ne.
Qed.

(** X24. Appending the elements [xs] one after the other, for an element
    type that a move leaves unchanged and whose calls do not throw, when the
    blocks asked for (of at most twice the final size) can be had: the
    vector holds its old elements and then [xs], in order; its capacity is
    at least the size and at most the larger of the old capacity and twice
    the size. *)
Theorem push_back_all this k xs : ∀ v l s,
  (∀ x, moved_from x = x) →
  (∀ n, n ≤ 2 * (length l + length xs) → can_allocate n) →
  cannot_throw k → cannot_throw relocation →
  cannot_throw MoveCtor → cannot_throw MoveAssign →
  objs s !! this = Some v →
  owns (mem s) v l →
  ∃ s' c, run ((λ x, push_back this (values k x)) <$> xs) s = Some s' ∧
          elements s' this = Some (l ++ xs) ∧
          size_of s' this = Some (length l + length xs) ∧
          capacity_of s' this = Some c ∧
          length l + length xs ≤ c ≤ capacity v `max` (2 * (length l + length xs)).
Proof.
  induction xs as [|x xs IH]; intros v l s Hid Hnew Hk Hrel Hmc Hma Hv Hown.
  - destruct (owns_observed this v l s Hv Hown) as (Hel & Hsz & Hcap).
    exists s, (capacity v). simpl. rewrite app_nil_r, Nat.add_0_r.
    split_and!; try done; [|lia]. destruct Hown as (-> & ? & _). done.
  - assert (inserts_well v l) as Hw.
    { pose proof Hown as (_ & Hsz & _).
      destruct (decide (Vector.size_ v = capacity v)); [left|right].
      - split_and!; try done. apply Hnew. simpl. lia.
      - split_and!; try done; [lia|]. by apply last_moved_from_id. }
    pose proof Hown as (Hlen & _).
    destruct (total_returns _ _
      (Emplace_total this v l (length l) k x s Hv Hown (le_n _) Hk Hw))
      as (p & s1 & Hret & v1 & Ho & Hsz1 & Hcap1 & _ & _ & Hown1).
    rewrite take_ge, drop_ge in Hown1 by done.
    assert (objs s1 !! this = Some v1) as Hv1 by (rewrite Ho; by lookups).
    assert (∀ n, n ≤ 2 * (length (l ++ [x]) + length xs) → can_allocate n) as Hnew1.
    { intros n Hn. apply Hnew. rewrite length_app in Hn. simpl in *. lia. }
    destruct (IH v1 (l ++ [x]) s1 Hid Hnew1 Hk Hrel Hmc Hma Hv1 Hown1)
      as (s' & c & Hrun & Hel & Hsz & Hcap & Hc).
    clear Hnew Hnew1.
    exists s', c. rewrite length_app in *. simpl in *.
    rewrite <-app_assoc in Hel. simpl in Hel.
    split_and!; try done.
    + assert (Vector.PushBack this (values k x) s = Ret tt s1) as Hpush.
      { unfold Vector.PushBack, Vector.EmplaceBack, Vector.end_, mbind, M_bind, bind.
        rewrite (get_obj_eq _ _ _ Hv). simpl. rewrite <-Hlen.
        unfold RawMemory.GetAddress, ptr_add. simpl. fold (buffer v). by rewrite Hret. }
      cbn [fmap list_fmap run perform]. rewrite Hpush. simpl. exact Hrun.
    + rewrite Hsz. f_equal. lia.
    + lia.
    + destruct (decide (Vector.size_ v = capacity v)); lia.
Qed.

(** X25. [Emplace] and [Erase] assert their position: a position past
    [end()], and for [Erase] [end()] itself, is a contract violation. *)
Theorem position_asserted this v i k x s :
  objs s !! this = Some v →
  (Vector.size_ v < i →
     Vector.Emplace this (RawMemory.GetAddress (Vector.data_ v) +ₚ i) (values k x) s = Abort) ∧
  (Vector.size_ v ≤ i →
     Vector.Erase this (RawMemory.GetAddress (Vector.data_ v) +ₚ i) s = Abort).
Proof.
  intros Hv. split; intros Hi.
  - unfold Vector.Emplace, mbind, M_bind, bind. rewrite (get_obj_eq _ _ _ Hv).
    unfold ptr_leb, ptr_add, RawMemory.GetAddress. simpl. rewrite Nat.eqb_refl. simpl.
    by assert ((i <=? Vector.size_ v) = false) as -> by (apply Nat.leb_gt; lia).
  - unfold Vector.Erase, Vector.begin, Vector.end_, mbind, M_bind, bind.
    rewrite (get_obj_eq _ _ _ Hv). simpl. rewrite (get_obj_eq _ _ _ Hv).
    unfold ptr_leb, ptr_ltb, ptr_add, RawMemory.GetAddress. cbn [ret blk off Nat.add].
    rewrite Nat.eqb_refl.
    by assert ((i <? Vector.size_ v) = false) as -> by (apply Nat.ltb_ge; lia).
Qed.
End Appending.

(** ** [RawMemory] objects *)

Section RawInterface.
Context {T W : Type} {E : Element T W}.
Implicit Types s : Store T W RawMemory.t.
Implicit Types r : RawMemory.t.

(** X16. [RawMemory(capacity)], for every capacity.  For capacity 0 it
    returns and allocates nothing.  Otherwise it asks [operator new] for
    [capacity * sizeof(T)] bytes, the product computed in [size_t]: it
    returns exactly when [operator new] serves that request, and the buffer
    is then a new block of raw slots, [capacity] of them when the product
    did not wrap; when [operator new] throws nothing has changed.  The
    object made has the capacity asked for, and [capacity_ == 0] exactly
    when [buffer_] is null. *)
Theorem RawMemory_ctor_spec this capacity s :
  objs s !! this = None →
  0 < brk (mem s) →
  total (RawMemory.ctor this capacity s)
    (λ _ s', ∃ r, objs s' = <[this := r]> (objs s) ∧
                  RawMemory.capacity_ r = capacity ∧
                  raw_ok r ∧
                  (capacity = 0 → mem s' = mem s) ∧
                  (capacity ≠ 0 →
                     RawMemory.buffer_ r = brk (mem s) ∧
                     heap (mem s') =
                       <[brk (mem s) := replicate (room capacity) None]> (heap (mem s)) ∧
                     brk (mem s') = S (brk (mem s)) ∧
                     (fits capacity → room capacity = capacity)))
    (λ s', s' = s) ∧
  returns (RawMemory.ctor this capacity s) =
    (if decide (capacity = 0) then true
     else allocates (size_t_mul (N.of_nat capacity) (N.pos sizeof)) (world (mem s))).
Proof.
  intros Hnew Hbrk. pose proof (init_total capacity (mem s)) as Hi.
  unfold RawMemory.ctor, mbind, M_bind, bind, lift.
  destruct (RawMemory.init capacity (mem s)) as [r m'|m'|]; simpl in Hi; [| |done].
  - rewrite new_obj_eq by done. simpl.
    destruct (decide (capacity = 0)) as [->|Hn].
    + destruct Hi as [-> ->]. split; [|done].
      eexists. split; [done|]. split; [done|]. split; [done|].
      split; [by destruct s as [[]]|done].
    + destruct Hi as (Ha & -> & ->). split; [|done].
      eexists. split; [done|]. split; [done|]. simpl.
      split; [unfold raw_ok; simpl; lia|]. split; [done|]. intros _.
      split_and!; try done. apply fits_slots.
  - destruct Hi as (-> & Hn & Ha). split; [by rewrite store_eta|].
    by destruct (decide (capacity = 0)).
Qed.

(** X17. The destructor of a [RawMemory] gives the block back: a
    [RawMemory] that is made and destroyed leaves the objects and the heap
    as they were, whatever the capacity asked for.  The one other outcome
    is that [operator new] throws, nothing having changed. *)
Theorem RawMemory_ctor_dtor this capacity s :
  objs s !! this = None →
  0 < brk (mem s) →
  heap (mem s) !! brk (mem s) = None →
  total ((RawMemory.ctor this capacity;; RawMemory.dtor this) s)
    (λ _ s', objs s' = objs s ∧ heap (mem s') = heap (mem s))
    (λ s', s' = s) ∧
  returns ((RawMemory.ctor this capacity;; RawMemory.dtor this) s) =
    (if decide (capacity = 0) then true
     else allocates (size_t_mul (N.of_nat capacity) (N.pos sizeof)) (world (mem s))).
Proof.
  intros Hnew Hbrk Hfresh. pose proof (init_total capacity (mem s)) as Hi.
  unfold RawMemory.ctor, RawMemory.dtor, mbind, M_bind, bind, lift.
  destruct (RawMemory.init capacity (mem s)) as [r m'|m'|]; simpl in Hi; [| |done].
  - rewrite new_obj_eq by done. simpl.
    rewrite (get_obj_eq _ _ r) by by lookups. simpl.
    destruct (decide (capacity = 0)) as [->|Hn].
    + destruct Hi as [-> ->]. simpl.
      rewrite (del_obj_eq _ _ RawMemory.empty) by by lookups. simpl.
      split; [|done]. by rewrite delete_insert_id.
    + destruct Hi as (Ha & -> & ->).
      unfold RawMemory.fini, RawMemory.Deallocate, operator_delete. simpl.
      destruct (decide (brk (mem s) = 0)) as [Hz|Hnz]; [lia|].
      rewrite lookup_insert_eq. simpl.
      rewrite (del_obj_eq _ _ (RawMemory.mk (brk (mem s)) capacity)) by by lookups.
      simpl. split; [|done]. by rewrite !delete_insert_id.
  - destruct Hi as (-> & Hn & Ha). split; [by rewrite store_eta|].
    by destruct (decide (capacity = 0)).
Qed.

(** X18. The move constructor of [RawMemory] hands the buffer and the
    capacity to the new object and leaves the source empty, without touching
    the memory; the destructor of the source then frees nothing, and the new
    object still has the buffer. *)
Theorem RawMemory_move_then_destroy_source this other o s :
  objs s !! other = Some o →
  objs s !! this = None →
  ∃ s1 s', RawMemory.move_ctor this other s = Ret tt s1 ∧
           mem s1 = mem s ∧
           objs s1 !! this = Some o ∧
           objs s1 !! other = Some RawMemory.empty ∧
           RawMemory.dtor other s1 = Ret tt s' ∧
           mem s' = mem s ∧
           objs s' !! this = Some o ∧
           objs s' !! other = None.
Proof.
  intros Ho Hnew. assert (this ≠ other) by (intros ->; congruence).
  assert (other ≠ this) by done.
  rewrite (RawMemory_move_ctor_eq this other o s Ho Hnew).
  eexists _, _. split; [done|]. simpl. split; [done|].
  split; [by lookups|]. split; [by lookups|].
  unfold RawMemory.dtor, mbind, M_bind, bind, lift.
  rewrite (get_obj_eq _ _ RawMemory.empty) by by lookups. simpl.
  rewrite (del_obj_eq _ _ RawMemory.empty) by by lookups. simpl.
  split; [done|]. simpl. split; [by destruct s as [[]]|].
  split; [|by rewrite lookup_delete_eq].
  rewrite lookup_delete_ne by done. by lookups.
Qed.

(** X19. [RawMemory::Swap] exchanges the buffers and the capacities of two
    objects, leaves the memory and every other object alone, and undoes
    itself when called again. *)
Theorem RawMemory_Swap_exchanges a b ra rb s :
  objs s !! a = Some ra →
  objs s !! b = Some rb →
  ∃ s', RawMemory.Swap a b s = Ret tt s' ∧
        mem s' = mem s ∧
        objs s' !! a = Some rb ∧ objs s' !! b = Some ra ∧
        (∀ c, c ≠ a → c ≠ b → objs s' !! c = objs s !! c) ∧
        RawMemory.Swap a b s' = Ret tt s.
Proof.
  intros Ha Hb. rewrite (RawMemory_Swap_eq a b ra rb s Ha Hb).
  eexists. split; [done|]. simpl. split; [done|].
  destruct (decide (a = b)) as [<-|Hne].
  - assert (ra = rb) as -> by congruence.
    split_and!; try by lookups.
    + intros c Hca _. by lookups.
    + rewrite (RawMemory_Swap_eq a a rb rb) by by lookups. simpl.
      rewrite !insert_insert_eq, insert_id by done. by rewrite store_eta.
  - assert (b ≠ a) by done. split_and!; try by lookups.
    + intros c Hca Hcb. by lookups.
    + rewrite (RawMemory_Swap_eq a b rb ra) by by lookups. simpl.
      assert (<[b:=rb]> (<[a:=ra]> (<[b:=ra]> (<[a:=rb]> (objs s)))) = objs s) as ->.
      { apply map_eq. intros i.
        destruct (decide (i = b)) as [->|]; [by lookups|].
        destruct (decide (i = a)) as [->|]; by lookups. }
      by rewrite store_eta.
Qed.
End RawInterface.

(** ** Requests [operator new] does not serve, and requests that wrap *)

Section Allocation.
Context {T W : Type} {E : Element T W}.
Implicit Types s : Store T W Vector.t.
Implicit Types v : Vector.t.

(** A block made for a request that wrapped has room for fewer objects than
    were asked for. *)
Lemma room_wraps n : ¬ fits n → room n < n.
Proof.
  unfold fits, room, size_t_mul, SIZE_MAX. intros Hn.
  assert (N.of_nat n * N.pos sizeof < 2 ^ 64 → False)%N as Hbig by lia.
  set (p := (N.of_nat n * N.pos sizeof)%N) in *.
  assert (p mod (2 ^ 64 - 1 + 1) < p)%N as Hlt.
  { pose proof (N.mod_upper_bound p (2 ^ 64 - 1 + 1)). lia. }
  assert (p mod (2 ^ 64 - 1 + 1) / N.pos sizeof < N.of_nat n)%N; [|lia].
  apply N.Div0.div_lt_upper_bound. rewrite N.mul_comm. exact Hlt.
Qed.

(** Every block [operator new] makes has room for a number of objects whose
    bytes a [size_t] counts. *)
Lemma fits_room n : fits (room n).
Proof.
  unfold fits, room, size_t_mul, SIZE_MAX.
  set (p := (N.of_nat n * N.pos sizeof)%N).
  pose proof (N.mod_upper_bound p (2 ^ 64 - 1 + 1)) as Hp.
  pose proof (N.Div0.mul_div_le (p mod (2 ^ 64 - 1 + 1)) (N.pos sizeof)) as Hd.
  rewrite N2Nat.id. lia.
Qed.

(** X27. [Reserve(n)] above the capacity when [operator new] does not serve
    the request of [n * sizeof(T)] bytes (the product computed in [size_t]):
    [std::bad_alloc] propagates and nothing has changed. *)
Theorem Reserve_out_of_memory this v n s :
  objs s !! this = Some v →
  capacity v < n →
  allocates (size_t_mul (N.of_nat n) (N.pos sizeof)) (world (mem s)) = false →
  Vector.Reserve this n s = Throw s.
Proof.
  intros Hv Hn Ha. unfold Vector.Reserve, mbind, M_bind, bind.
  rewrite (get_obj_eq _ _ _ Hv).
  destruct (decide (n ≤ _)) as [Hle|_];
    [unfold capacity, RawMemory.Capacity in *; lia|].
  unfold Vector.CreateCopy, mbind, M_bind, bind. rewrite (get_obj_eq _ _ _ Hv).
  unfold lift at 1. rewrite init_throws by (done || lia). by destruct s.
Qed.

(** An insertion at the end of a vector without elements whose block has
    no slot, while the capacity says it has: the constructor is called
    outside the block. *)
Lemma PushBack_no_room this v s k x :
  objs s !! this = Some v →
  Vector.size_ v = 0 →
  capacity v ≠ 0 →
  heap (mem s) !! buffer v = Some [] →
  Vector.PushBack this (values k x) s = Abort.
Proof.
  intros Hv Hsz Hcap Hblk. unfold capacity, buffer in *.
  unfold Vector.PushBack, Vector.EmplaceBack, Vector.end_, mbind, M_bind, bind.
  rewrite (get_obj_eq _ _ _ Hv). cbn [ret].
  unfold Vector.Emplace, mbind, M_bind, bind. rewrite (get_obj_eq _ _ _ Hv).
  rewrite Hsz. unfold ptr_leb, ptr_add, RawMemory.GetAddress, RawMemory.Capacity.
  cbn [blk off Nat.add]. rewrite Nat.eqb_refl. cbn [andb Nat.leb assert ret].
  destruct (decide (0 = _)) as [Heq|_]; [lia|].
  destruct (decide (0 ≠ 0)) as [|_]; [done|]. cbn [ret].
  unfold RawMemory.add, mbind, M_bind, bind. cbn [Nat.sub Nat.leb assert ret].
  unfold lift, construct, construct_at, mbind, M_bind, bind, peek, slot.
  cbn [blk off]. rewrite Hblk. done.
Qed.

(** X28. [Reserve(n)] on a vector without elements, when [n * sizeof(T)]
    exceeds [SIZE_MAX] and [operator new] serves the request for the wrapped
    product: [Reserve] returns and the capacity is [n], but the block has
    room for fewer than [n] objects; when it has room for none, the
    [PushBack] that follows writes outside the block. *)
Theorem Reserve_wraps this v n s :
  objs s !! this = Some v →
  owns (mem s) v [] →
  capacity v < n →
  ¬ fits n →
  allocates (size_t_mul (N.of_nat n) (N.pos sizeof)) (world (mem s)) = true →
  room n < n ∧
  ∃ s', Vector.Reserve this n s = Ret tt s' ∧
        objs s' = <[this := Vector.mk (RawMemory.mk (brk (mem s)) n) 0]> (objs s) ∧
        capacity_of s' this = Some n ∧
        heap (mem s') !! brk (mem s) = Some (replicate (room n) None) ∧
        (room n = 0 → ∀ k x, Vector.PushBack this (values k x) s' = Abort).
Proof.
  intros Hv (Hlen & Hsz & Hbrk & Hblk) Hn Hfits Ha.
  split; [by apply room_wraps|].
  unfold capacity, buffer in *. simpl in Hlen.
  unfold Vector.Reserve, mbind, M_bind, bind.
  rewrite (get_obj_eq _ _ _ Hv).
  destruct (decide (n ≤ _)) as [Hle|_]; [unfold RawMemory.Capacity in *; lia|].
  unfold Vector.CreateCopy, mbind, M_bind, bind. rewrite (get_obj_eq _ _ _ Hv).
  unfold lift at 1. unfold RawMemory.init, RawMemory.Allocate, mbind, M_bind, bind.
  destruct (decide (n ≠ 0)) as [_|]; [|lia].
  unfold operator_new. rewrite Ha. cbn [ret]. rewrite <-Hlen.
  fold (room n). remember (room n) as r eqn:Er.
  assert (∀ st : Store T W Vector.t,
            unwinding (lift (RawMemory.fini (RawMemory.mk (brk (mem s)) n)))
              (if Vector.relocate_by_move
               then lift (uninitialized_move_n (RawMemory.GetAddress (Vector.data_ v)) 0
                            (RawMemory.GetAddress (RawMemory.mk (brk (mem s)) n)))
               else lift (uninitialized_copy_n (RawMemory.GetAddress (Vector.data_ v)) 0
                            (RawMemory.GetAddress (RawMemory.mk (brk (mem s)) n)))) st
            = Ret tt st) as ->.
  { intros [m0 o0]. by destruct Vector.relocate_by_move. }
  cbn [ret]. rewrite (set_obj_eq _ _ v) by done. cbn [mem objs].
  unfold lift. cbn [destroy_n ret mem objs].
  unfold RawMemory.fini, RawMemory.Deallocate, operator_delete.
  cbn [heap brk world mem objs].
  assert (heap_lookup : ∀ h' : gmap nat (list (option T)),
            h' = <[brk (mem s) := replicate r None]> (heap (mem s)) ∨
            h' = delete (RawMemory.buffer_ (Vector.data_ v))
                   (<[brk (mem s) := replicate r None]> (heap (mem s))) →
            h' !! brk (mem s) = Some (replicate r None)).
  { intros h' [->| ->]; [by rewrite lookup_insert_eq|].
    rewrite lookup_delete_ne by lia. by rewrite lookup_insert_eq. }
  assert (∃ h', (h' = <[brk (mem s) := replicate r None]> (heap (mem s)) ∨
                 h' = delete (RawMemory.buffer_ (Vector.data_ v))
                        (<[brk (mem s) := replicate r None]> (heap (mem s)))) ∧
            (if decide (RawMemory.buffer_ (Vector.data_ v) = 0)
             then Ret tt (mkMemory (<[brk (mem s) := replicate r None]> (heap (mem s)))
                            (S (brk (mem s))) (world (mem s)))
             else match <[brk (mem s) := replicate r None]> (heap (mem s))
                          !! RawMemory.buffer_ (Vector.data_ v) with
                  | Some _ =>
                      Ret tt (set_heap
                                (delete (RawMemory.buffer_ (Vector.data_ v))
                                   (<[brk (mem s) := replicate r None]> (heap (mem s))))
                                (mkMemory (<[brk (mem s) := replicate r None]> (heap (mem s)))
                                   (S (brk (mem s))) (world (mem s))))
                  | None => Abort
                  end) =
            Ret tt (mkMemory h' (S (brk (mem s))) (world (mem s)))) as (h' & Hh' & ->).
  { destruct (decide (RawMemory.capacity_ (Vector.data_ v) = 0)) as [Hc0|Hc0].
    - rewrite Hblk. destruct (decide (0 = 0)); [|done]. eexists. split; [by left|done].
    - destruct Hblk as [Hb0 Hblk]. destruct (decide (_ = 0)); [done|].
      rewrite lookup_insert_ne by lia. rewrite Hblk. eexists. split; [by right|done]. }
  eexists. split; [reflexivity|]. cbn [mem objs heap].
  split; [done|]. split; [unfold capacity_of; simpl; by rewrite lookup_insert_eq|].
  split; [by apply heap_lookup|].
  intros Hr k x. eapply PushBack_no_room.
  - simpl. apply lookup_insert_eq.
  - done.
  - unfold capacity. simpl. lia.
  - unfold buffer. simpl. rewrite (heap_lookup _ Hh'), Hr. done.
Qed.
End Allocation.

(** ** What a throw leaves in the heap *)

Section NoNew.
Context {T W : Type} {E : Element T W}.
Implicit Types m : Memory T W.

#[global] Instance no_new_blocks_preorder : PreOrder (no_new_blocks (T:=T) (W:=W)).
Proof. split; [by intros m a|]. intros m1 m2 m3 H1 H2 a Ha. by apply H2, H1. Qed.

#[global] Instance no_new_blocksS_preorder {O} :
  PreOrder (no_new_blocksS (T:=T) (W:=W) (O:=O)).
Proof.
  split; [by intros s a|]. intros s1 s2 s3 H1 H2 a Ha. by apply H2, H1.
Qed.

Local Abbreviation stays := (preserves (no_new_blocks (T:=T) (W:=W))).

Lemma no_new_peek p : stays (peek p).
Proof. intros m. unfold peek. destruct (slot m p); simpl; [reflexivity|done]. Qed.

Lemma no_new_load p : stays (load p).
Proof.
  apply preserves_bind; [apply _|apply no_new_peek|].
  intros [x|]; [apply preserves_ret|apply preserves_abort]; apply _.
Qed.

Lemma no_new_poke p c : stays (poke p c).
Proof.
  intros m. unfold poke. destruct (heap m !! blk p) as [l|] eqn:Hl; [|done].
  case_decide; [|done]. simpl. intros a Ha. simpl.
  rewrite lookup_insert_ne; [done|]. intros <-. congruence.
Qed.

Lemma no_new_call k x : stays (call k x).
Proof.
  intros m. unfold call. destruct (may_throw k); [|simpl; reflexivity].
  destruct (attempt k x (world m)) as [[] w]; simpl; by intros a.
Qed.

Lemma no_new_operator_delete buf : stays (operator_delete buf).
Proof.
  intros m. unfold operator_delete. case_decide; [simpl; reflexivity|].
  destruct (heap m !! buf); [|done]. simpl. intros a Ha. simpl.
  destruct (decide (a = buf)) as [->|]; [apply lookup_delete_eq|].
  by rewrite lookup_delete_ne.
Qed.

Lemma no_new_fini r : stays (RawMemory.fini r).
Proof. apply no_new_operator_delete. Qed.

Lemma no_new_construct_at p k x : stays (construct_at p k x).
Proof.
  apply preserves_bind; [apply _|apply no_new_peek|intros _].
  apply preserves_bind; [apply _|apply no_new_call|intros _].
  apply no_new_poke.
Qed.

Lemma no_new_copy_construct dst src : stays (copy_construct dst src).
Proof.
  apply preserves_bind; [apply _|apply no_new_load|intros x].
  apply no_new_construct_at.
Qed.

Lemma no_new_move_construct dst src : stays (move_construct dst src).
Proof.
  apply preserves_bind; [apply _|apply no_new_load|intros x].
  apply preserves_bind; [apply _|apply no_new_construct_at|intros _].
  apply no_new_poke.
Qed.

Lemma no_new_construct p args : stays (construct p args).
Proof.
  destruct args; [apply no_new_construct_at|apply no_new_copy_construct|
                  apply no_new_move_construct].
Qed.

Lemma no_new_destroy_at p : stays (destroy_at p).
Proof.
  apply preserves_bind; [apply _|apply no_new_load|intros _]. apply no_new_poke.
Qed.

Lemma no_new_destroy_n p n : stays (destroy_n p n).
Proof.
  revert p. induction n as [|n IH]; intros p; simpl.
  - apply preserves_ret, _.
  - apply preserves_bind; [apply _|apply no_new_destroy_at|intros _]. apply IH.
Qed.

Lemma no_new_rollback {A} p k : stays (destroy_n p k;; @throw _ A).
Proof.
  apply preserves_bind; [apply _|apply no_new_destroy_n|intros _].
  apply preserves_throw, _.
Qed.

Lemma no_new_uninitialized_copy_n first n d_first :
  stays (uninitialized_copy_n first n d_first).
Proof.
  unfold uninitialized_copy_n. generalize 0 as k.
  induction n as [|n IH]; intros k; simpl.
  - apply preserves_ret, _.
  - apply preserves_bind; [apply _| |intros _; apply IH].
    apply preserves_try_catch; [apply _|apply no_new_copy_construct|apply no_new_rollback].
Qed.

Lemma no_new_uninitialized_move_n first n d_first :
  stays (uninitialized_move_n first n d_first).
Proof.
  unfold uninitialized_move_n. generalize 0 as k.
  induction n as [|n IH]; intros k; simpl.
  - apply preserves_ret, _.
  - apply preserves_bind; [apply _| |intros _; apply IH].
    apply preserves_try_catch; [apply _|apply no_new_move_construct|apply no_new_rollback].
Qed.

Lemma no_new_uninitialized_value_construct_n first n :
  stays (uninitialized_value_construct_n first n).
Proof.
  unfold uninitialized_value_construct_n. generalize 0 as k.
  induction n as [|n IH]; intros k; simpl.
  - apply preserves_ret, _.
  - apply preserves_bind; [apply _| |intros _; apply IH].
    apply preserves_try_catch; [apply _|apply no_new_construct_at|apply no_new_rollback].
Qed.

Lemma no_new_lift {A O} (mm : M (Memory T W) A) :
  stays mm → preserves (no_new_blocksS (O:=O)) (lift mm).
Proof.
  intros Hmm s. eapply post_lift_keeps; [exact Hmm|..]; simpl; by intros.
Qed.

Lemma no_new_get_obj {O} this :
  preserves (no_new_blocksS (T:=T) (W:=W) (O:=O)) (get_obj this).
Proof. intros s. apply post_get_obj. intros. reflexivity. Qed.

Lemma no_new_set_obj {O} this o :
  preserves (no_new_blocksS (T:=T) (W:=W) (O:=O)) (set_obj this o).
Proof. intros s. apply post_set_obj. intros. by intros a. Qed.

Lemma no_new_add {S} (R : relation S) `{!PreOrder R} r offset :
  preserves R (RawMemory.add r offset : M S ptr).
Proof.
  apply preserves_bind; [apply _|apply preserves_assert, _|intros _].
  apply preserves_ret, _.
Qed.

Lemma init_given_back {O} n (s : Store T W O) :
  0 < brk (mem s) →
  post (lift (RawMemory.init n) s) (λ data s1, given_back data s s1) (λ s', s' = s).
Proof.
  intros Hbrk. apply post_lift. pose proof (init_total n (mem s)) as Hi.
  destruct (RawMemory.init n (mem s)) as [r m'|m'|]; simpl in *; [| |done].
  - destruct (decide (n = 0)) as [->|Hn].
    + destruct Hi as [-> ->]. split; [by intros a|]. intros _. by intros a.
    + destruct Hi as (_ & -> & ->). split; simpl; [|lia].
      intros a Ha Hnone. by rewrite lookup_insert_ne.
  - destruct Hi as (-> & _). by rewrite store_eta.
Qed.

(** The scope of a local [RawMemory]: when its body allocates nothing and
    throws, the block of the local is given back. *)
Lemma unwinding_gives_back {A O} data (body : M (Store T W O) A) (s0 s1 : Store T W O) :
  given_back data s0 s1 →
  preserves no_new_blocksS body →
  post (unwinding (lift (RawMemory.fini data)) body s1) (λ _ _, True) (no_new_blocksS s0).
Proof.
  intros [H1 H0] Hbody. apply post_unwinding.
  eapply post_mono; [apply Hbody|done|].
  intros s2 H2. simpl in *. apply post_lift.
  unfold RawMemory.fini, RawMemory.Deallocate, operator_delete.
  destruct (decide (RawMemory.buffer_ data = 0)) as [Hz|Hnz]; simpl.
  - intros a Ha. by apply H2, H0.
  - destruct (heap (mem s2) !! RawMemory.buffer_ data); [|done]. simpl.
    intros a Ha. simpl. destruct (decide (a = RawMemory.buffer_ data)) as [->|].
    + apply lookup_delete_eq.
    + rewrite lookup_delete_ne by done. by apply H2, H1.
Qed.

Lemma post_bind_nothrow {S A B} (m : M S A) (f : A → M S B) (st : S) (E' : S → Prop) :
  post (m st) (λ _ _, True) E' → (∀ a, nothrow (f a)) →
  post ((m ≫= f) st) (λ _ _, True) E'.
Proof.
  intros Hm Hf. apply post_bind. eapply post_mono; [exact Hm| |done].
  intros a s1 _. simpl. eapply post_mono; [apply Hf|done..].
Qed.
End NoNew.

Ltac no_new_step :=
  lazymatch goal with
  | |- preserves _ (_ ≫= _) => apply preserves_bind; [apply _| |intros ?]
  | |- preserves _ (mret _) => apply preserves_ret, _
  | |- preserves _ (ret _) => apply preserves_ret, _
  | |- preserves _ throw => apply preserves_throw, _
  | |- preserves _ abort => apply preserves_abort
  | |- preserves _ (assert _) => apply preserves_assert, _
  | |- preserves _ (try_catch _ _) => apply preserves_try_catch; [apply _| |]
  | |- preserves _ (RawMemory.add _ _) => apply no_new_add, _
  | |- preserves _ (get_obj _) => apply no_new_get_obj
  | |- preserves _ (set_obj _ _) => apply no_new_set_obj
  | |- preserves _ (lift _) => apply no_new_lift
  | |- preserves _ (if ?b then _ else _) => destruct b
  | |- preserves _ (load _) => apply no_new_load
  | |- preserves _ (construct_at _ _ _) => apply no_new_construct_at
  | |- preserves _ (construct _ _) => apply no_new_construct
  | |- preserves _ (destroy_at _) => apply no_new_destroy_at
  | |- preserves _ (destroy_n _ _) => apply no_new_destroy_n
  | |- preserves _ (uninitialized_copy_n _ _ _) => apply no_new_uninitialized_copy_n
  | |- preserves _ (uninitialized_move_n _ _ _) => apply no_new_uninitialized_move_n
  | |- preserves _ (uninitialized_value_construct_n _ _) =>
      apply no_new_uninitialized_value_construct_n
  | |- preserves _ (RawMemory.fini _) => apply no_new_fini
  end.
Ltac no_news := repeat no_new_step.

Section GivesBack.
Context {T W : Type} {E : Element T W}.
Implicit Types s : Store T W Vector.t.
Implicit Types v : Vector.t.
Implicit Types m : Memory T W.

Lemma Reserve_gives_back this v n s :
  objs s !! this = Some v →
  0 < brk (mem s) →
  post (Vector.Reserve this n s) (λ _ _, True) (no_new_blocksS s).
Proof.
  intros Hv Hbrk. unfold Vector.Reserve.
  apply post_bind. rewrite (get_obj_eq _ _ _ Hv). simpl.
  destruct (decide (n ≤ _)) as [|Hn]; [done|].
  unfold Vector.CreateCopy. rewrite bind_assoc.
  apply post_bind. rewrite (get_obj_eq _ _ _ Hv). simpl. rewrite bind_assoc.
  eapply post_seq.
  { eapply post_mono; [by apply init_given_back| |].
    - intros data s1 Hd. exact Hd.
    - intros ? ->. reflexivity. }
  simpl. intros data s1 Hg.
  apply post_bind_nothrow; [|intros; nothrows].
  apply post_bind_nothrow; [|intros; nothrows].
  apply unwinding_gives_back; [done|]. no_news.
Qed.

Lemma Emplace_gives_back this v pos args s :
  objs s !! this = Some v →
  0 < brk (mem s) →
  Vector.size_ v = RawMemory.capacity_ (Vector.data_ v) →
  post (Vector.Emplace this pos args s) (λ _ _, True) (no_new_blocksS s).
Proof.
  intros Hv Hbrk Hfull. unfold Vector.Emplace.
  apply post_bind. rewrite (get_obj_eq _ _ _ Hv). simpl.
  apply post_bind, post_assert. intros _. simpl.
  destruct (decide (Vector.size_ v = _)) as [_|]; [|done].
  rewrite bind_assoc.
  eapply post_seq.
  { eapply post_mono; [by apply init_given_back| |].
    - intros data s1 Hd. exact Hd.
    - intros ? ->. reflexivity. }
  simpl. intros data s1 Hg.
  apply post_bind_nothrow; [|intros; nothrows].
  apply post_bind_nothrow; [|intros; nothrows].
  apply unwinding_gives_back; [done|]. no_news.
Qed.
End GivesBack.

Section Throws.
Context {T W : Type} {E : Element T W}.
Implicit Types s : Store T W Vector.t.
Implicit Types v : Vector.t.
Implicit Types m : Memory T W.

Lemma copy_init_gives_back o m :
  0 < brk m →
  post (Vector.copy_init o m) (λ _ _, True) (no_new_blocks m).
Proof.
  intros Hbrk. unfold Vector.copy_init. apply post_bind.
  assert (∀ data m1,
            (∀ a, a ≠ RawMemory.buffer_ data → heap m !! a = None → heap m1 !! a = None) →
            (RawMemory.buffer_ data = 0 → no_new_blocks m m1) →
            post ((unwinding (RawMemory.fini data)
                     (uninitialized_copy_n (RawMemory.GetAddress (Vector.data_ o))
                        (Vector.size_ o) (RawMemory.GetAddress data));;
                   ret (Vector.mk data (Vector.size_ o))) m1)
                 (λ _ _, True) (no_new_blocks m)) as H.
  { intros data m1 H1 H0. apply post_bind_nothrow; [|intros; apply nothrow_ret].
    apply post_unwinding.
    eapply post_mono; [apply no_new_uninitialized_copy_n|done|].
    intros m2 H2. simpl in *.
    unfold RawMemory.fini, RawMemory.Deallocate, operator_delete.
    destruct (decide (RawMemory.buffer_ data = 0)) as [Hz|Hnz]; simpl.
    - intros a Ha. by apply H2, H0.
    - destruct (heap m2 !! RawMemory.buffer_ data); [|done]. simpl.
      intros a Ha. simpl. destruct (decide (a = RawMemory.buffer_ data)) as [->|].
      + apply lookup_delete_eq.
      + rewrite lookup_delete_ne by done. by apply H2, H1. }
  destruct (decide (Vector.size_ o = 0)) as [Hz|Hn].
  - replace (RawMemory.init (Vector.size_ o) m) with (Ret RawMemory.empty m)
      by (by rewrite Hz).
    cbv beta iota. by apply H.
  - pose proof (init_total (Vector.size_ o) m) as Hi.
    destruct (RawMemory.init (Vector.size_ o) m) as [r m'|m'|]; simpl in Hi |- *; [| |done].
    + destruct (decide (Vector.size_ o = 0)); [done|]. destruct Hi as (_ & -> & ->).
      apply H; simpl.
      * intros a Ha Hnone. by rewrite lookup_insert_ne.
      * lia.
    + destruct Hi as (-> & _). reflexivity.
Qed.

(** A state from which nothing changed below the next address, and in which
    no block is new: the heap is the same. *)
Lemma heap_restored {O} (s s' : Store T W O) :
  fresh (mem s) →
  frameS (brk (mem s)) (brk (mem s)) s s' →
  no_new_blocksS s s' →
  objs s' = objs s ∧ heap (mem s') = heap (mem s).
Proof.
  intros Hfresh [Ho [_ F]] Hn. split; [done|].
  apply map_eq. intros a. destruct (decide (a < brk (mem s))) as [Hlt|Hge].
  - apply F; [done|done|lia].
  - rewrite (Hfresh a) by lia. apply Hn, Hfresh. lia.
Qed.

Lemma ctor_size_strong this size s :
  post (Vector.ctor_size this size s) (λ _ _, True)
       (frameS (brk (mem s)) (brk (mem s)) s).
Proof.
  set (b0 := brk (mem s)). unfold Vector.ctor_size.
  eapply post_seq.
  { eapply post_mono; [apply (post_lift_init _ _ b0 b0); lia| |].
    - intros data s1 Hd. exact Hd.
    - intros ? ->. reflexivity. }
  simpl. intros data s1 (F1 & Hcap & Hz & Hbuf).
  apply on_throw_from; [apply _|done|].
  apply on_throw_bind_nothrow; [|intros; apply nothrow_new_obj].
  destruct (decide (size = 0)) as [->|Hn].
  - unfold uninitialized_value_construct_n. simpl.
    apply on_throw_nothrow. apply nothrow_try_catch. nothrows.
  - specialize (Hbuf Hn). apply on_throw_preserves. keeps; wr.
Qed.

Lemma ctor_size_gives_back this size s :
  0 < brk (mem s) →
  post (Vector.ctor_size this size s) (λ _ _, True) (no_new_blocksS s).
Proof.
  intros Hbrk. unfold Vector.ctor_size.
  eapply post_seq.
  { eapply post_mono; [by apply init_given_back| |].
    - intros data s1 Hd. exact Hd.
    - intros ? ->. reflexivity. }
  simpl. intros data s1 Hg.
  apply post_bind_nothrow; [|intros; apply nothrow_new_obj].
  apply unwinding_gives_back; [done|]. no_news.
Qed.
End Throws.

Section ThrowTheorems.
Context {T W : Type} {E : Element T W}.
Implicit Types s : Store T W Vector.t.
Implicit Types v : Vector.t.
Implicit Types m : Memory T W.

(** X20. Let the element type be nothrow-move-constructible or
    copy-constructible.  When a call that reallocates -- [Reserve], or an
    insertion or an append into a full vector, one that is not asked to
    move from an element of a vector -- throws, the block it allocated has
    been given back and no other block was written: the heap and the fields
    of every vector are what they were before the call. *)
Theorem growth_throw_restores_heap c this v s s' :
  is_nothrow_move_constructible = true ∨ is_copy_constructible = true →
  objs s !! this = Some v →
  0 < brk (mem s) →
  fresh (mem s) →
  reallocates c this v →
  perform c s = Throw s' →
  objs s' = objs s ∧ heap (mem s') = heap (mem s).
Proof.
  intros Htraits Hv Hbrk Hfresh Hc Hthrow.
  assert (post (perform c s) (λ _ _, True)
            (λ s', frameS (brk (mem s)) (brk (mem s)) s s' ∧ no_new_blocksS s s')) as H.
  { destruct Hc as [[n ->]|(Hc & Hm & Hfull)].
    - eapply post_mono;
        [apply (post_and _ _ _ _ _ (Reserve_strong this v n s Hv Htraits)
                  (Reserve_gives_back this v n s Hv Hbrk))|done..].
    - unfold capacity in Hfull.
      assert (∀ pos args, moves_element args = false →
                post (Vector.Emplace this pos args s) (λ _ _, True)
                (λ s', frameS (brk (mem s)) (brk (mem s)) s s' ∧ no_new_blocksS s s')) as He.
      { intros pos args Hargs. eapply post_mono;
          [apply (post_and _ _ _ _ _ (Emplace_strong this v pos args s Hv Hfull Hargs Htraits)
                    (Emplace_gives_back this v pos args s Hv Hbrk Hfull))|done..]. }
      destruct c; simplify_eq/=; (destruct (moves_element _) eqn:Hargs; [done|]).
      + apply post_bind. eapply post_mono; [by apply He|done..].
      + apply post_bind. eapply post_mono; [by apply He|done..].
      + apply post_bind. eapply post_mono; [by apply He|done..].
      + unfold Vector.EmplaceBack, Vector.end_.
        apply post_bind, post_bind, post_bind. rewrite (get_obj_eq _ _ _ Hv). simpl.
        eapply post_mono; [by apply He|done..].
      + unfold Vector.PushBack, Vector.EmplaceBack, Vector.end_.
        apply post_bind, post_bind, post_bind. rewrite (get_obj_eq _ _ _ Hv). simpl.
        eapply post_mono; [by apply He|done..]. }
  rewrite Hthrow in H. simpl in H. destruct H as [F N].
  by apply heap_restored.
Qed.

(** X21. When the copy constructor of a vector throws (a copy of an element
    threw), no vector has been made and the block allocated for the copy has
    been given back: the vectors and the heap are what they were. *)
Theorem ctor_copy_throw this other o s s' :
  objs s !! other = Some o →
  0 < brk (mem s) →
  fresh (mem s) →
  Vector.ctor_copy this other s = Throw s' →
  objs s' = objs s ∧ heap (mem s') = heap (mem s).
Proof.
  intros Ho Hbrk Hfresh Hthrow.
  assert (post (Vector.ctor_copy this other s) (λ _ _, True)
            (λ s', frameS (brk (mem s)) (brk (mem s)) s s' ∧ no_new_blocksS s s')) as H.
  { unfold Vector.ctor_copy.
    apply post_bind. rewrite (get_obj_eq _ _ _ Ho). simpl.
    apply post_bind_nothrow; [|intros; apply nothrow_new_obj].
    apply post_lift.
    eapply post_mono;
      [apply (post_and _ _ _ _ _
                (copy_init_frame (brk (mem s)) (brk (mem s)) o (mem s) (le_n _))
                (copy_init_gives_back o (mem s) Hbrk))|done|].
    intros m' [F N]. simpl. split; [by split|done]. }
  rewrite Hthrow in H. simpl in H. destruct H as [F N].
  by apply heap_restored.
Qed.

(** X22. When [Vector(size)] throws (a value-initialisation threw), no
    vector has been made and the block allocated has been given back: the
    vectors and the heap are what they were. *)
Theorem ctor_size_throw this size s s' :
  0 < brk (mem s) →
  fresh (mem s) →
  Vector.ctor_size this size s = Throw s' →
  objs s' = objs s ∧ heap (mem s') = heap (mem s).
Proof.
  intros Hbrk Hfresh Hthrow.
  pose proof (post_and _ _ _ _ _ (ctor_size_strong this size s)
                (ctor_size_gives_back this size s Hbrk)) as H.
  rewrite Hthrow in H. simpl in H. destruct H as [F N].
  by apply heap_restored.
Qed.

(** X23. Copy assignment from a vector whose size exceeds the capacity of
    the target copies first and swaps then: when a copy throws, the target,
    the source and the heap are what they were. *)
Theorem copy_assign_throw this rhs v r s s' :
  objs s !! this = Some v → objs s !! rhs = Some r →
  capacity v < Vector.size_ r →
  0 < brk (mem s) →
  fresh (mem s) →
  Vector.copy_assign this rhs s = Throw s' →
  objs s' = objs s ∧ heap (mem s') = heap (mem s).
Proof.
  intros Hv Hr Hcap Hbrk Hfresh Hthrow.
  assert (post (Vector.copy_assign this rhs s) (λ _ _, True)
            (λ s', frameS (brk (mem s)) (brk (mem s)) s s' ∧ no_new_blocksS s s')) as H.
  { unfold Vector.copy_assign. case_decide; [|done].
    apply post_bind. rewrite (get_obj_eq _ _ _ Hv). simpl.
    apply post_bind. rewrite (get_obj_eq _ _ _ Hr). simpl.
    destruct (decide (RawMemory.Capacity (Vector.data_ v) < Vector.size_ r)) as [_|Hn];
      [|unfold capacity, RawMemory.Capacity in *; lia].
    apply post_bind_nothrow; [|intros; unfold Vector.fini; nothrows].
    apply post_lift.
    eapply post_mono;
      [apply (post_and _ _ _ _ _
                (copy_init_frame (brk (mem s)) (brk (mem s)) r (mem s) (le_n _))
                (copy_init_gives_back r (mem s) Hbrk))|done|].
    intros m' [F N]. simpl. split; [by split|done]. }
  rewrite Hthrow in H. simpl in H. destruct H as [F N].
  by apply heap_restored.
Qed.
End ThrowTheorems.


(** * Concrete runs *)

Lemma size_capacity_invariant_witness :
  ∃ s : Store Z unit Vector.t,
    run int_run (start tt) = Some s ∧
    elements s 1 = Some [9; 2; 3]%Z ∧
    ∀ id v, objs s !! id = Some v →
      0 ≤ Vector.size_ v ≤ RawMemory.capacity_ (Vector.data_ v).
Proof.
  eexists. split; [vm_compute; reflexivity|]. split; [vm_compute; reflexivity|].
  apply size_capacity_invariant.
  eapply (run_reachable int_run (start tt)); [apply reachable_start|].
  vm_compute. reflexivity.
Defined.

Lemma growth_doubles_witness :
  size_of int_full 1 = Some 2 ∧ capacity_of int_full 1 = Some 2 ∧
  ∃ s', perform (push_back 1 (values CopyCtor 3%Z)) int_full = Ret tt s' ∧
        capacity_of s' 1 = Some (1 `max` (2 * 2)) ∧
        size_of s' 1 = Some 3.
Proof.
  split; [vm_compute; reflexivity|]. split; [vm_compute; reflexivity|].
  eexists. split; [vm_compute; reflexivity|].
  apply (growth_doubles (push_back 1 (values CopyCtor 3%Z)) 1
           (Vector.mk (RawMemory.mk 2 2) 2) int_full);
    vm_compute; reflexivity.
Defined.

(** C2, as stated, fails: [B = std::move(A)] with B holding one element leaves
    A with that element, not with size 0. *)
Lemma move_assign_source_not_empty :
  ∃ s s' : Store Z unit Vector.t,
    run [new_default 1; push_back 1 (values CopyCtor 1%Z); push_back 1 (values CopyCtor 2%Z);
         new_default 2; push_back 2 (values CopyCtor 7%Z)] (start tt) = Some s ∧
    Vector.move_assign 2 1 s = Ret tt s' ∧
    elements s 1 = Some [1; 2]%Z ∧
    elements s' 2 = Some [1; 2]%Z ∧
    elements s' 1 = Some [7]%Z ∧
    size_of s' 1 = Some 1 ∧
    size_of s' 1 ≠ Some 0.
Proof.
  eexists. eexists. split; [vm_compute; reflexivity|].
  split; [vm_compute; reflexivity|].
  repeat split; try (vm_compute; reflexivity). vm_compute. discriminate.
Qed.

Lemma move_transfers_witness :
  elements int_pair 1 = Some [1; 2]%Z ∧
  (∃ s', Vector.ctor_move 3 1 int_pair = Ret tt s' ∧
         elements s' 3 = elements int_pair 1 ∧
         size_of s' 1 = Some 0 ∧ capacity_of s' 1 = Some 0) ∧
  (∃ s', Vector.move_assign 2 1 int_pair = Ret tt s' ∧
         elements s' 2 = elements int_pair 1 ∧
         elements s' 1 = elements int_pair 2 ∧
         size_of s' 1 = size_of int_pair 2 ∧
         capacity_of s' 1 = capacity_of int_pair 2).
Proof.
  assert (objs int_pair !! 1 = Some (Vector.mk (RawMemory.mk 2 2) 2)) as H1
    by (vm_compute; reflexivity).
  split; [vm_compute; reflexivity|].
  split.
  - apply (proj1 (move_transfers int_pair 1 _ H1)). vm_compute; reflexivity.
  - apply (proj2 (move_transfers int_pair 1 _ H1) 2 Vector.empty); [done|].
    vm_compute; reflexivity.
Defined.

(** C5, at the failing input.  [RawMemory<int> a(2), b(3); a = std::move(b);]
    instantiates [operator=(RawMemory&&)], whose first statement,
    [buffer_.~RawMemory()], names the destructor of the class on the member
    [buffer_], which is a [T*]: the statement is ill-formed and the operator
    cannot be instantiated, so that no move assignment of a [RawMemory]
    transfers or resets anything.  The move constructor does transfer the
    address and the capacity and reset its source, and touches no memory. *)
Theorem RawMemory_move_assign_ill_formed :
  head RawMemory.move_assign_body = Some (RawMemory.destructor_call RawMemory.member_buffer_) ∧
  RawMemory.declared_type RawMemory.member_buffer_ = RawMemory.pointer_to_T ∧
  RawMemory.well_formed (RawMemory.destructor_call RawMemory.member_buffer_) = false ∧
  RawMemory.instantiable RawMemory.move_assign_body = false ∧
  ∃ s s' : Store Z unit RawMemory.t,
    RawMemory.ctor 1 2 (start tt) = Ret tt s ∧
    objs s !! 1 = Some (RawMemory.mk 1 2) ∧
    RawMemory.move_ctor 2 1 s = Ret tt s' ∧
    objs s' !! 2 = Some (RawMemory.mk 1 2) ∧
    objs s' !! 1 = Some RawMemory.empty ∧
    mem s' = mem s.
Proof.
  split_and!; try reflexivity.
  eexists. eexists. split_and!; vm_compute; reflexivity.
Qed.

Lemma int_full_owns : owns (mem int_full) (Vector.mk (RawMemory.mk 2 2) 2) [1; 2]%Z.
Proof. unfold owns. split_and!; try (vm_compute; lia). vm_compute. split; [lia|reflexivity]. Qed.

Lemma int_cannot_throw k : cannot_throw (E:=int_element) k.
Proof. right. intros x w. reflexivity. Qed.

(** [operator new] serves a [Vector<int>] of up to a thousand elements. *)
Lemma int_fits n : n ≤ 1000 → fits (E:=int_element) n.
Proof. unfold fits, SIZE_MAX. simpl. lia. Qed.

Lemma int_served n : n ≤ 1000 → served (E:=int_element) n.
Proof. intros Hn. right. intros w. unfold allocates. simpl. unfold plenty. apply N.leb_le. lia. Qed.

Lemma int_can_allocate n : n ≤ 1000 → can_allocate (E:=int_element) n.
Proof. split; [by apply int_fits|by apply int_served]. Qed.

Lemma copying_pair_owns : owns (mem copying_pair) (Vector.mk (RawMemory.mk 2 2) 2) [1; 2].
Proof. unfold owns. split_and!; try (vm_compute; lia). vm_compute. split; [lia|reflexivity]. Qed.

Lemma throwing_pair_owns : owns (mem throwing_pair) (Vector.mk (RawMemory.mk 2 2) 2) [1; 2].
Proof. unfold owns. split_and!; try (vm_compute; lia). vm_compute. split; [lia|reflexivity]. Qed.

Lemma throwing_copy_fits n : n ≤ 1000 → fits (E:=throwing_copy_element) n.
Proof. unfold fits, SIZE_MAX. simpl. lia. Qed.

(** [Reserve] on a [Vector<int>], within the capacity and above it; and on
    two elements whose copy constructor may throw, with copies enough left
    and with one copy left. *)
Lemma Reserve_spec_witness :
  (objs int_full !! 1 = Some (Vector.mk (RawMemory.mk 2 2) 2) ∧
   Vector.Reserve 1 2 int_full = Ret tt int_full ∧
   ∃ s', Vector.Reserve 1 5 int_full = Ret tt s' ∧
         capacity_of s' 1 = Some 5 ∧
         size_of s' 1 = size_of int_full 1 ∧
         elements s' 1 = elements int_full 1 ∧
         elements int_full 1 = Some [1; 2]%Z) ∧
  (∃ s', Vector.Reserve (E:=throwing_copy_element) 1 4 copying_pair = Ret tt s' ∧
         capacity_of s' 1 = Some 4 ∧
         size_of s' 1 = size_of copying_pair 1 ∧
         elements s' 1 = elements copying_pair 1 ∧
         elements copying_pair 1 = Some [1; 2]) ∧
  (∃ s', Vector.Reserve (E:=throwing_copy_element) 1 4 throwing_pair = Throw s' ∧
         size_of s' 1 = size_of throwing_pair 1 ∧
         capacity_of s' 1 = capacity_of throwing_pair 1).
Proof.
  assert (objs int_full !! 1 = Some (Vector.mk (RawMemory.mk 2 2) 2)) as H1
    by (vm_compute; reflexivity).
  assert (objs copying_pair !! 1 = Some (Vector.mk (RawMemory.mk 2 2) 2)) as H2
    by (vm_compute; reflexivity).
  assert (objs throwing_pair !! 1 = Some (Vector.mk (RawMemory.mk 2 2) 2)) as H3
    by (vm_compute; reflexivity).
  assert (2 ≤ capacity (Vector.mk (RawMemory.mk 2 2) 2)) as Hle by (vm_compute; lia).
  assert (capacity (Vector.mk (RawMemory.mk 2 2) 2) < 5) as Hlt by (vm_compute; lia).
  assert (capacity (Vector.mk (RawMemory.mk 2 2) 2) < 4) as Hlt' by (vm_compute; lia).
  assert (fits (E:=int_element) 5) as Hfits by (apply int_fits; lia).
  assert (fits (E:=throwing_copy_element) 4) as Hfits' by (apply throwing_copy_fits; lia).
  split_and!.
  - exact H1.
  - exact (proj1 (Reserve_spec 1 _ _ 2 int_full H1 int_full_owns) Hle).
  - destruct (proj2 (Reserve_spec 1 _ _ 5 int_full H1 int_full_owns) Hlt Hfits) as [Ht Hr].
    destruct (total_ret _ _ _ Ht (Hr (int_served 5 ltac:(lia)) (int_cannot_throw _)))
      as ([] & s' & He & HQ).
    exists s'. split; [exact He|exact HQ].
  - destruct (proj2 (Reserve_spec (E:=throwing_copy_element) 1 _ _ 4 copying_pair H2
                       copying_pair_owns) Hlt' Hfits') as [Ht _].
    eexists. split; [vm_compute; reflexivity|].
    refine (total_on_return _ _ _ _ _ _ Ht). vm_compute. reflexivity.
  - destruct (proj2 (Reserve_spec (E:=throwing_copy_element) 1 _ _ 4 throwing_pair H3
                       throwing_pair_owns) Hlt' Hfits') as [Ht _].
    eexists. split; [vm_compute; reflexivity|].
    refine (total_on_throw _ _ _ _ _ Ht). vm_compute. reflexivity.
Defined.

(** C7, as stated, fails: [Reserve] above the capacity need not succeed.
    On a vector of two elements whose copy constructor throws at the second
    copy, [Reserve(4)] throws and the capacity stays 2. *)
Lemma Reserve_does_not_succeed :
  ∃ s', objs throwing_pair !! 1 = Some (Vector.mk (RawMemory.mk 2 2) 2) ∧
        elements throwing_pair 1 = Some [1; 2] ∧
        capacity_of throwing_pair 1 = Some 2 ∧
        Vector.Reserve (E:=throwing_copy_element) 1 4 throwing_pair = Throw s' ∧
        returns (Vector.Reserve (E:=throwing_copy_element) 1 4 throwing_pair) = false ∧
        capacity_of s' 1 = Some 2 ∧
        capacity_of s' 1 ≠ Some 4.
Proof.
  eexists. split_and!; try (vm_compute; reflexivity). vm_compute. discriminate.
Qed.

Lemma int_four_owns : owns (mem int_four) (Vector.mk (RawMemory.mk 3 4) 4) [1; 9; 2; 3]%Z.
Proof. unfold owns. split_and!; try (vm_compute; lia). vm_compute. split; [lia|reflexivity]. Qed.

Lemma assigning_three_owns w :
  owns (mem (assigning_three w)) (Vector.mk (RawMemory.mk 3 4) 3) [1; 2; 3].
Proof. unfold owns. split_and!; try (vm_compute; lia). vm_compute. split; [lia|reflexivity]. Qed.

(** [Erase] at the first position: of a [Vector<int>]; and of three elements
    whose move assignment may throw, with two assignments left and with
    one. *)
Lemma Erase_spec_witness :
  (elements int_four 1 = Some [1; 9; 2; 3]%Z ∧
   ∃ s', Vector.Erase 1 (Ptr 3 0) int_four = Ret (Ptr 3 0) s' ∧
         elements s' 1 = Some [9; 2; 3]%Z ∧
         size_of s' 1 = Some 3 ∧
         lift (load (Ptr 3 0)) s' = Ret 9%Z s') ∧
  (elements (assigning_three 2) 1 = Some [1; 2; 3] ∧
   ∃ s', Vector.Erase (E:=throwing_assign_element) 1 (Ptr 3 0) (assigning_three 2)
           = Ret (Ptr 3 0) s' ∧
         elements s' 1 = Some [2; 3] ∧
         size_of s' 1 = Some 2) ∧
  (∃ s', Vector.Erase (E:=throwing_assign_element) 1 (Ptr 3 0) (assigning_three 1)
           = Throw s' ∧
         size_of s' 1 = size_of (assigning_three 1) 1 ∧
         capacity_of s' 1 = capacity_of (assigning_three 1) 1 ∧
         elements s' 1 = Some [2; 2; 3]).
Proof.
  assert (objs int_four !! 1 = Some (Vector.mk (RawMemory.mk 3 4) 4)) as H1
    by (vm_compute; reflexivity).
  assert (0 < length [1; 9; 2; 3]%Z) as Hlt by (simpl; lia).
  assert (∀ w, objs (assigning_three w) !! 1 = Some (Vector.mk (RawMemory.mk 3 4) 3)) as H2
    by (intros w; vm_compute; reflexivity).
  assert (0 < length [1; 2; 3]) as Hlt' by (simpl; lia).
  split_and!.
  - vm_compute; reflexivity.
  - destruct (Erase_spec 1 _ _ 0 int_four H1 int_four_owns Hlt) as [Ht Hr].
    destruct (total_ret _ _ _ Ht (Hr (int_cannot_throw _)))
      as (it & s' & He & -> & Hel & _ & _ & Hsz & _ & _ & Hit).
    exists s'. split_and!; [exact He|exact Hel|exact Hsz|exact Hit].
  - vm_compute; reflexivity.
  - destruct (Erase_spec (E:=throwing_assign_element) 1 _ _ 0 (assigning_three 2)
                (H2 2) (assigning_three_owns 2) Hlt') as [Ht _].
    eexists. split; [vm_compute; reflexivity|].
    assert (Vector.Erase (E:=throwing_assign_element) 1
              (RawMemory.GetAddress (Vector.data_ (Vector.mk (RawMemory.mk 3 4) 3)) +ₚ 0)
              (assigning_three 2) = Ret (Ptr 3 0) _) as He by (vm_compute; reflexivity).
    destruct (total_on_return _ _ _ _ _ He Ht) as (_ & Hel & _ & _ & Hsz & _).
    split; [exact Hel|exact Hsz].
  - destruct (Erase_spec (E:=throwing_assign_element) 1 _ _ 0 (assigning_three 1)
                (H2 1) (assigning_three_owns 1) Hlt') as [Ht _].
    eexists. split; [vm_compute; reflexivity|].
    assert (Vector.Erase (E:=throwing_assign_element) 1
              (RawMemory.GetAddress (Vector.data_ (Vector.mk (RawMemory.mk 3 4) 3)) +ₚ 0)
              (assigning_three 1) = Throw _) as He by (vm_compute; reflexivity).
    destruct (total_on_throw _ _ _ _ He Ht) as (Hsz & Hcap).
    split_and!; [exact Hsz|exact Hcap|vm_compute; reflexivity].
Defined.

(** Copy construction from a [Vector<int>]; and from two elements whose
    copy constructor may throw, with copies enough left and with one copy
    left. *)
Lemma copy_construction_witness :
  (elements int_full 1 = Some [1; 2]%Z ∧
   ∃ s', Vector.ctor_copy 2 1 int_full = Ret tt s' ∧
         size_of s' 2 = Some 2 ∧
         capacity_of s' 2 = Some 2 ∧
         elements s' 2 = Some [1; 2]%Z ∧
         (∀ s'', after (perform (assign_elem 2 0 CopyAssign 7%Z) s') = Some s'' →
                 unchanged 1 s' s'')) ∧
  (∃ s', Vector.ctor_copy (E:=throwing_copy_element) 2 1 copying_pair = Ret tt s' ∧
         size_of s' 2 = size_of copying_pair 1 ∧
         capacity_of s' 2 = size_of copying_pair 1 ∧
         elements s' 2 = elements copying_pair 1 ∧
         elements copying_pair 1 = Some [1; 2]) ∧
  (∃ s', Vector.ctor_copy (E:=throwing_copy_element) 2 1 throwing_pair = Throw s' ∧
         objs s' = objs throwing_pair).
Proof.
  assert (objs int_full !! 1 = Some (Vector.mk (RawMemory.mk 2 2) 2)) as H1
    by (vm_compute; reflexivity).
  assert (objs int_full !! 2 = None) as H2 by (vm_compute; reflexivity).
  assert (fits (E:=int_element) (Vector.size_ (Vector.mk (RawMemory.mk 2 2) 2))) as Hfits
    by (apply int_fits; simpl; lia).
  assert (served (E:=int_element) (Vector.size_ (Vector.mk (RawMemory.mk 2 2) 2))) as Hserved
    by (apply int_served; simpl; lia).
  assert (objs copying_pair !! 1 = Some (Vector.mk (RawMemory.mk 2 2) 2)) as H3
    by (vm_compute; reflexivity).
  assert (objs copying_pair !! 2 = None) as H4 by (vm_compute; reflexivity).
  assert (objs throwing_pair !! 1 = Some (Vector.mk (RawMemory.mk 2 2) 2)) as H5
    by (vm_compute; reflexivity).
  assert (objs throwing_pair !! 2 = None) as H6 by (vm_compute; reflexivity).
  assert (fits (E:=throwing_copy_element) (Vector.size_ (Vector.mk (RawMemory.mk 2 2) 2)))
    as Hfits' by (apply throwing_copy_fits; simpl; lia).
  split_and!.
  - vm_compute; reflexivity.
  - destruct (copy_construction 2 1 _ _ int_full H1 int_full_owns H2 Hfits) as [Ht Hr].
    destruct (total_ret _ _ _ Ht (Hr Hserved (int_cannot_throw _)))
      as ([] & s' & Hc & Hsz & Hcap & Hel & Hl & _ & HB & _).
    exists s'. split_and!; [exact Hc|exact Hsz|exact Hcap|by rewrite Hel, Hl|].
    intros s'' Hs. apply (HB [assign_elem 2 0 CopyAssign 7%Z]).
    + by constructor.
    + econstructor; [exact Hs|constructor].
  - destruct (copy_construction (E:=throwing_copy_element) 2 1 _ _ copying_pair H3
                copying_pair_owns H4 Hfits') as [Ht _].
    eexists. split; [vm_compute; reflexivity|].
    assert (Vector.ctor_copy (E:=throwing_copy_element) 2 1 copying_pair = Ret tt _) as He
      by (vm_compute; reflexivity).
    destruct (total_on_return _ _ _ _ _ He Ht) as (Hsz & Hcap & Hel & Hl & _).
    split_and!; [exact Hsz|exact Hcap|exact Hel|exact Hl].
  - destruct (copy_construction (E:=throwing_copy_element) 2 1 _ _ throwing_pair H5
                throwing_pair_owns H6 Hfits') as [Ht _].
    eexists. split; [vm_compute; reflexivity|].
    refine (total_on_throw _ _ _ _ _ Ht). vm_compute. reflexivity.
Defined.



(** The two paths of [Emplace] at concrete vectors: the insertion of [9] at
    index 1 of a full [Vector<int>], and of [p9] at index 1 of a
    [Vector<std::unique_ptr<int>>] with a free slot. *)
Example Emplace_realloc_int_full :
  total (Vector.Emplace 1 (Ptr 2 1) (values CopyCtor 9%Z) int_full)
    (λ p s', ∃ v', objs s' = <[1 := v']> (objs int_full) ∧
                   capacity v' = 4 ∧
                   Vector.size_ v' = 3 ∧
                   p = Ptr (buffer v') 1 ∧
                   owns (mem s') v' [1; 9; 2]%Z)
    (λ _, False).
Proof.
  apply (Emplace_realloc_total 1 (Vector.mk (RawMemory.mk 2 2) 2) [1; 2]%Z 1 CopyCtor 9%Z
           int_full); try apply int_cannot_throw; try (vm_compute; reflexivity).
  - apply int_full_owns.
  - simpl. lia.
  - apply int_can_allocate. simpl. lia.
Qed.

Lemma ptr_three_owns :
  owns (mem ptr_three) (Vector.mk (RawMemory.mk 3 4) 3) [Some 1; Some 2; Some 3]%Z.
Proof. unfold owns. split_and!; try (vm_compute; lia). vm_compute. split; [lia|reflexivity]. Qed.

Lemma ptr_cannot_throw k : cannot_throw (E:=unique_ptr_element) k.
Proof. right. intros x w. reflexivity. Qed.

Example Emplace_in_place_ptr_three :
  total (Vector.Emplace 1 (Ptr 3 1) (values MoveCtor (Some 9%Z)) ptr_three)
    (λ p s', ∃ v', objs s' = <[1 := v']> (objs ptr_three) ∧
                   Vector.data_ v' = RawMemory.mk 3 4 ∧
                   Vector.size_ v' = 4 ∧
                   p = Ptr 3 1 ∧
                   owns (mem s') v' [Some 1; Some 9; Some 2; None]%Z)
    (λ _, False).
Proof.
  assert (objs ptr_three !! 1 = Some (Vector.mk (RawMemory.mk 3 4) 3)) as H1
    by (vm_compute; reflexivity).
  assert (Vector.size_ (Vector.mk (RawMemory.mk 3 4) 3) <
          capacity (Vector.mk (RawMemory.mk 3 4) 3)) as Hfree by (vm_compute; lia).
  assert (1 ≤ length [Some 1; Some 2; Some 3]%Z) as Hle by (simpl; lia).
  exact (Emplace_in_place_total 1 _ _ 1 MoveCtor (Some 9%Z) ptr_three
           H1 ptr_three_owns Hfree Hle
           (ptr_cannot_throw _) (ptr_cannot_throw _) (ptr_cannot_throw _)).
Qed.

(** C1, at the failing inputs. With size below capacity, appending to a
    [Vector<std::unique_ptr<int>>] that holds [p1] leaves a null pointer in
    place of [p1]; inserting at index 1 of one that holds [p1; p2; p3] leaves a
    null pointer in place of [p3].  The size is one more and the new element
    is at its index, but the last of the old elements is lost. *)
Theorem Emplace_in_place_loses_last_element :
  elements ptr_one 1 = Some [Some 1%Z] ∧
  capacity_of ptr_one 1 = Some 2 ∧
  (∃ s', Vector.PushBack 1 (values MoveCtor (Some 2%Z)) ptr_one = Ret tt s' ∧
         elements s' 1 = Some [None; Some 2%Z]) ∧
  elements ptr_three 1 = Some [Some 1%Z; Some 2%Z; Some 3%Z] ∧
  capacity_of ptr_three 1 = Some 4 ∧
  (∃ s', Vector.Emplace 1 (Ptr 3 1) (values MoveCtor (Some 9%Z)) ptr_three = Ret (Ptr 3 1) s' ∧
         elements s' 1 = Some [Some 1%Z; Some 9%Z; Some 2%Z; None]).
Proof.
  split_and!; try (vm_compute; reflexivity).
  - eexists. split; vm_compute; reflexivity.
  - eexists. split; vm_compute; reflexivity.
Qed.

(** ** The rest of the interface, at concrete vectors *)

(** A decidable form of [fresh], for concrete states. *)
Lemma fresh_map_Forall {T W} (m : Memory T W) :
  map_Forall (λ a _, a < brk m) (heap m) → fresh m.
Proof.
  intros H a Ha. destruct (heap m !! a) as [l|] eqn:Hl; [|done].
  apply H in Hl. simpl in Hl. lia.
Qed.

Lemma int_roomy_owns : owns (mem int_roomy) (Vector.mk (RawMemory.mk 1 4) 2) [1; 2]%Z.
Proof. unfold owns. split_and!; try (vm_compute; lia). vm_compute. split; [lia|reflexivity]. Qed.

Lemma int_pair_owns : owns (mem int_pair) (Vector.mk (RawMemory.mk 2 2) 2) [1; 2]%Z.
Proof. unfold owns. split_and!; try (vm_compute; lia). vm_compute. split; [lia|reflexivity]. Qed.

Lemma int_pair_owns_empty : owns (mem int_pair) Vector.empty ([] : list Z).
Proof. unfold owns. split_and!; vm_compute; lia. Qed.

Lemma PopBack_spec_witness :
  ∃ s', Vector.PopBack 1 int_full = Ret tt s' ∧
        elements s' 1 = Some [1]%Z ∧
        size_of s' 1 = Some 1 ∧
        capacity_of s' 1 = capacity_of int_full 1.
Proof.
  assert (objs int_full !! 1 = Some (Vector.mk (RawMemory.mk 2 2) 2)) as H1
    by (vm_compute; reflexivity).
  destruct (PopBack_spec 1 _ _ int_full H1 int_full_owns) as (s' & Hp & Hel & Hsz & Hcap & _).
  exists s'. split_and!; [exact Hp|exact Hel|exact Hsz|exact Hcap].
Defined.

Lemma Resize_spec_witness :
  ∃ s', Vector.Resize 1 4 int_full = Ret tt s' ∧
        elements s' 1 = Some [1; 2; 0; 0]%Z ∧
        size_of s' 1 = Some 4 ∧
        capacity_of s' 1 = Some 4.
Proof.
  assert (objs int_full !! 1 = Some (Vector.mk (RawMemory.mk 2 2) 2)) as H1
    by (vm_compute; reflexivity).
  destruct (Resize_spec 1 _ _ 4 int_full H1 int_full_owns
              (λ _, int_cannot_throw _)
              (λ _, conj (int_can_allocate 4 ltac:(lia)) (int_cannot_throw _)))
    as (s' & Hr & Hel & Hsz & Hcap & _).
  exists s'. split_and!; [exact Hr|exact Hel|exact Hsz|exact Hcap].
Defined.

Lemma ctor_size_spec_witness :
  ∃ s', Vector.ctor_size 1 3 (start tt : Store Z unit Vector.t) = Ret tt s' ∧
        elements s' 1 = Some [0; 0; 0]%Z ∧
        size_of s' 1 = Some 3 ∧
        capacity_of s' 1 = Some 3.
Proof.
  assert (objs (start tt : Store Z unit Vector.t) !! 1 = None) as H1 by reflexivity.
  assert (0 < brk (mem (start tt : Store Z unit Vector.t))) as Hb by (simpl; lia).
  destruct (ctor_size_spec 1 3 _ H1 Hb (int_can_allocate 3 ltac:(lia)) (int_cannot_throw _))
    as (s' & Hr & Hel & Hsz & Hcap & _).
  exists s'. split_and!; [exact Hr|exact Hel|exact Hsz|exact Hcap].
Defined.

Lemma subscript_spec_witness :
  (Vector.at_ 1 1 int_full = Ret (Ptr 2 1) int_full ∧
   lift (load (Ptr 2 1)) int_full = Ret 2%Z int_full) ∧
  Vector.at_ 1 2 int_full = Abort.
Proof.
  assert (objs int_full !! 1 = Some (Vector.mk (RawMemory.mk 2 2) 2)) as H1
    by (vm_compute; reflexivity).
  split.
  - exact (subscript_spec 1 _ [1; 2]%Z 1 int_full H1 int_full_owns).
  - exact (subscript_spec 1 _ [1; 2]%Z 2 int_full H1 int_full_owns).
Defined.

Lemma subscript_assign_witness :
  ∃ s', assign_at 1 0 CopyAssign 7%Z int_full = Ret tt s' ∧
        elements s' 1 = Some [7; 2]%Z ∧
        (p ← Vector.at_ 1 0; lift (load p)) s' = Ret 7%Z s'.
Proof.
  assert (objs int_full !! 1 = Some (Vector.mk (RawMemory.mk 2 2) 2)) as H1
    by (vm_compute; reflexivity).
  assert (0 < length [1; 2]%Z) as Hlt by (simpl; lia).
  destruct (subscript_assign 1 _ _ 0 CopyAssign 7%Z int_full H1 int_full_owns Hlt
              (int_cannot_throw _)) as (s' & Hr & Hel & _ & _ & Hread).
  exists s'. split_and!; [exact Hr|exact Hel|exact Hread].
Defined.

Lemma Swap_exchanges_witness :
  ∃ s', Vector.Swap 1 2 int_pair = Ret tt s' ∧
        elements s' 2 = elements int_pair 1 ∧
        elements s' 1 = elements int_pair 2 ∧
        Vector.Swap 1 2 s' = Ret tt int_pair.
Proof.
  assert (objs int_pair !! 1 = Some (Vector.mk (RawMemory.mk 2 2) 2)) as H1
    by (vm_compute; reflexivity).
  assert (objs int_pair !! 2 = Some Vector.empty) as H2 by (vm_compute; reflexivity).
  destruct (Swap_exchanges 1 2 _ _ int_pair H1 H2)
    as (s' & Hr & _ & Ha & Hb & _ & _ & _ & _ & _ & Hback & _).
  exists s'. split_and!; [exact Hr|exact Hb|exact Ha|exact Hback].
Defined.

Lemma dtor_frees_witness :
  ∃ s', Vector.dtor 1 int_full = Ret tt s' ∧
        objs s' = delete 1 (objs int_full) ∧
        heap (mem s') !! 2 = None.
Proof.
  assert (objs int_full !! 1 = Some (Vector.mk (RawMemory.mk 2 2) 2)) as H1
    by (vm_compute; reflexivity).
  assert (capacity (Vector.mk (RawMemory.mk 2 2) 2) ≠ 0) as Hc by (vm_compute; lia).
  destruct (dtor_frees 1 _ _ int_full H1 int_full_owns) as (s' & Hr & Ho & Hfree & _).
  exists s'. split_and!; [exact Hr|exact Ho|exact (Hfree Hc)].
Defined.

Lemma copy_then_destroy_witness :
  ∃ s', (Vector.ctor_copy 2 1;; Vector.dtor 2) int_full = Ret tt s' ∧
        objs s' = objs int_full ∧ heap (mem s') = heap (mem int_full).
Proof.
  assert (objs int_full !! 1 = Some (Vector.mk (RawMemory.mk 2 2) 2)) as H1
    by (vm_compute; reflexivity).
  assert (objs int_full !! 2 = None) as H2 by (vm_compute; reflexivity).
  assert (heap (mem int_full) !! brk (mem int_full) = None) as Hf by (vm_compute; reflexivity).
  assert (fits (E:=int_element) (Vector.size_ (Vector.mk (RawMemory.mk 2 2) 2))) as Hfits
    by (apply int_fits; simpl; lia).
  assert (served (E:=int_element) (Vector.size_ (Vector.mk (RawMemory.mk 2 2) 2))) as Hserved
    by (apply int_served; simpl; lia).
  destruct (copy_then_destroy 2 1 _ _ int_full H1 int_full_owns H2 Hf Hfits) as [Ht Hr].
  destruct (total_ret _ _ _ Ht (Hr Hserved (int_cannot_throw _))) as ([] & s' & Hc & Ho & Hh).
  exists s'. split_and!; [exact Hc|exact Ho|exact Hh].
Defined.

Lemma move_then_destroy_source_witness :
  ∃ s', (Vector.ctor_move 2 1;; Vector.dtor 1) int_full = Ret tt s' ∧
        mem s' = mem int_full ∧
        objs s' !! 1 = None ∧
        elements s' 2 = Some [1; 2]%Z.
Proof.
  assert (objs int_full !! 1 = Some (Vector.mk (RawMemory.mk 2 2) 2)) as H1
    by (vm_compute; reflexivity).
  assert (objs int_full !! 2 = None) as H2 by (vm_compute; reflexivity).
  destruct (move_then_destroy_source 1 2 _ _ int_full H1 int_full_owns H2)
    as (s' & Hr & Hm & Ha & _ & Hel).
  exists s'. split_and!; [exact Hr|exact Hm|exact Ha|exact Hel].
Defined.

Lemma copy_assign_spec_witness :
  ∃ s', Vector.copy_assign 2 1 int_pair = Ret tt s' ∧
        elements s' 2 = Some [1; 2]%Z ∧
        size_of s' 2 = Some 2 ∧
        unchanged 1 int_pair s'.
Proof.
  assert (objs int_pair !! 1 = Some (Vector.mk (RawMemory.mk 2 2) 2)) as H1
    by (vm_compute; reflexivity).
  assert (objs int_pair !! 2 = Some Vector.empty) as H2 by (vm_compute; reflexivity).
  assert (2 ≠ 1) as Hne by lia.
  assert (capacity Vector.empty ≠ 0 → capacity (Vector.mk (RawMemory.mk 2 2) 2) ≠ 0 →
          buffer Vector.empty ≠ buffer (Vector.mk (RawMemory.mk 2 2) 2)) as Hap
    by (intros H; by vm_compute in H).
  assert (can_allocate (E:=int_element) (length [1; 2]%Z)) as Hal
    by (apply int_can_allocate; simpl; lia).
  destruct (copy_assign_spec 2 1 _ _ _ _ int_pair Hne H2 H1 int_pair_owns_empty
              int_pair_owns Hap (λ _, Hal)
              (int_cannot_throw _) (int_cannot_throw _))
    as (s' & Hr & Hel & Hsz & _ & Hun & _).
  exists s'. split_and!; [exact Hr|exact Hel|exact Hsz|exact Hun].
Defined.

Lemma Emplace_at_capacity_witness :
  ∃ p s', Vector.Emplace 1 (Ptr 2 1) (values CopyCtor 9%Z) int_full = Ret p s' ∧
          elements s' 1 = Some [1; 9; 2]%Z ∧
          size_of s' 1 = Some 3 ∧
          capacity_of s' 1 = Some 4 ∧
          Vector.at_ 1 1 s' = Ret p s' ∧
          lift (load p) s' = Ret 9%Z s'.
Proof.
  assert (objs int_full !! 1 = Some (Vector.mk (RawMemory.mk 2 2) 2)) as H1
    by (vm_compute; reflexivity).
  assert (Vector.size_ (Vector.mk (RawMemory.mk 2 2) 2) =
          capacity (Vector.mk (RawMemory.mk 2 2) 2)) as Hfull by reflexivity.
  assert (1 ≤ length [1; 2]%Z) as Hi by (simpl; lia).
  assert (can_allocate (E:=int_element) (1 `max` (2 * length [1; 2]%Z))) as Hal
    by (apply int_can_allocate; simpl; lia).
  exact (Emplace_at_capacity 1 _ _ 1 CopyCtor 9%Z int_full H1 int_full_owns Hfull Hi
           Hal (int_cannot_throw _) (int_cannot_throw _)).
Defined.

Lemma Emplace_with_room_witness :
  ∃ s', Vector.Emplace 1 (Ptr 1 1) (values CopyCtor 9%Z) int_roomy = Ret (Ptr 1 1) s' ∧
        elements s' 1 = Some [1; 9; 2]%Z ∧
        size_of s' 1 = Some 3 ∧
        capacity_of s' 1 = capacity_of int_roomy 1.
Proof.
  assert (objs int_roomy !! 1 = Some (Vector.mk (RawMemory.mk 1 4) 2)) as H1
    by (vm_compute; reflexivity).
  assert (Vector.size_ (Vector.mk (RawMemory.mk 1 4) 2) <
          capacity (Vector.mk (RawMemory.mk 1 4) 2)) as Hfree by (vm_compute; lia).
  assert (1 ≤ length [1; 2]%Z) as Hi by (simpl; lia).
  assert (last_moved_from [1; 2]%Z = [1; 2]%Z) as Hlast by reflexivity.
  destruct (Emplace_with_room 1 _ _ 1 CopyCtor 9%Z int_roomy H1 int_roomy_owns Hfree Hi Hlast
              (int_cannot_throw _) (int_cannot_throw _) (int_cannot_throw _))
    as (s' & Hr & Hel & Hsz & Hcap & _).
  exists s'. split_and!; [exact Hr|exact Hel|exact Hsz|exact Hcap].
Defined.

Lemma Insert_own_element_with_room_witness :
  elements int_roomy 1 = Some [1; 2]%Z ∧
  ∃ s', Vector.Insert_copy 1 (Ptr 1 0) (element (Ptr 1 1)) int_roomy = Ret (Ptr 1 0) s' ∧
        elements s' 1 = Some [1; 1; 2]%Z ∧
        size_of s' 1 = Some 3.
Proof.
  split; [vm_compute; reflexivity|].
  assert (objs int_roomy !! 1 = Some (Vector.mk (RawMemory.mk 1 4) 2)) as H1
    by (vm_compute; reflexivity).
  assert (Vector.size_ (Vector.mk (RawMemory.mk 1 4) 2) <
          capacity (Vector.mk (RawMemory.mk 1 4) 2)) as Hfree by (vm_compute; lia).
  assert (0 ≤ length [1; 2]%Z) as Hi by (simpl; lia).
  assert (1 < length [1; 2]%Z) as Hj by (simpl; lia).
  assert (1 ≠ 0) as Hne by lia.
  assert (last_moved_from [1; 2]%Z = [1; 2]%Z) as Hlast by reflexivity.
  assert ([1; 2]%Z !! (if decide (1 < 0) then 1 else 1 - 1) = Some 1%Z) as Hy by reflexivity.
  destruct (Insert_own_element_with_room 1 _ _ 0 1 1%Z int_roomy H1 int_roomy_owns Hfree
              Hi Hj Hne Hlast Hy (int_cannot_throw _) (int_cannot_throw _) (int_cannot_throw _))
    as (s' & Hr & Hel & Hsz & _).
  exists s'. split_and!; [exact Hr|exact Hel|exact Hsz].
Defined.

(** [v.Insert(v.begin(), v[1])] on a full [Vector<int>] holding [1; 2]. *)
Lemma Insert_own_element_at_capacity_witness :
  elements int_full 1 = Some [1; 2]%Z ∧
  ∃ p s', Vector.Insert_copy 1 (Ptr 2 0) (element (Ptr 2 1)) int_full = Ret p s' ∧
          elements s' 1 = Some [2; 1; 2]%Z ∧
          size_of s' 1 = Some 3 ∧
          capacity_of s' 1 = Some 4.
Proof.
  split; [vm_compute; reflexivity|].
  assert (objs int_full !! 1 = Some (Vector.mk (RawMemory.mk 2 2) 2)) as H1
    by (vm_compute; reflexivity).
  assert (Vector.size_ (Vector.mk (RawMemory.mk 2 2) 2) =
          capacity (Vector.mk (RawMemory.mk 2 2) 2)) as Hfull by reflexivity.
  assert (0 ≤ length [1; 2]%Z) as Hi by (simpl; lia).
  assert ([1; 2]%Z !! 1 = Some 2%Z) as Hy by reflexivity.
  assert (can_allocate (E:=int_element) (1 `max` (2 * length [1; 2]%Z))) as Hal
    by (apply int_can_allocate; simpl; lia).
  destruct (Insert_own_element_at_capacity 1 _ _ 0 1 2%Z int_full H1 int_full_owns Hfull Hi Hy
              Hal (int_cannot_throw _) (int_cannot_throw _))
    as (p & s' & Hr & Hel & Hsz & Hcap & _).
  exists p, s'. split_and!; [exact Hr|exact Hel|exact Hsz|exact Hcap].
Defined.

(** [v.Insert(v.begin(), v[0])] on a [Vector<int>] holding [1; 2] with room:
    the constructor of the new element reads [v[0]] when it has been
    destroyed. *)
Example Insert_element_at_its_own_position :
  Vector.Insert_copy 1 (Ptr 1 0) (element (Ptr 1 0)) int_roomy = Abort.
Proof. vm_compute. reflexivity. Qed.

Lemma int_full_inserts_well : inserts_well (Vector.mk (RawMemory.mk 2 2) 2) [1; 2]%Z.
Proof.
  left. split_and!; [reflexivity|apply int_can_allocate; simpl; lia|apply int_cannot_throw].
Qed.

Lemma int_roomy_inserts_well : inserts_well (Vector.mk (RawMemory.mk 1 4) 2) [1; 2]%Z.
Proof.
  right. split_and!; [vm_compute; lia|reflexivity|apply int_cannot_throw..].
Qed.

Lemma PushBack_appends_witness :
  ∃ p s', Vector.EmplaceBack 1 (values CopyCtor 3%Z) int_full = Ret p s' ∧
          Vector.PushBack 1 (values CopyCtor 3%Z) int_full = Ret tt s' ∧
          elements s' 1 = Some [1; 2; 3]%Z ∧
          size_of s' 1 = Some 3 ∧
          lift (load p) s' = Ret 3%Z s'.
Proof.
  assert (objs int_full !! 1 = Some (Vector.mk (RawMemory.mk 2 2) 2)) as H1
    by (vm_compute; reflexivity).
  exact (PushBack_appends 1 _ _ CopyCtor 3%Z int_full H1 int_full_owns
           (int_cannot_throw _) int_full_inserts_well).
Defined.

Lemma PushBack_PopBack_witness :
  ∃ s', (Vector.PushBack 1 (values CopyCtor 3%Z);; Vector.PopBack 1) int_roomy = Ret tt s' ∧
        elements s' 1 = elements int_roomy 1 ∧
        size_of s' 1 = size_of int_roomy 1.
Proof.
  assert (objs int_roomy !! 1 = Some (Vector.mk (RawMemory.mk 1 4) 2)) as H1
    by (vm_compute; reflexivity).
  exact (PushBack_PopBack 1 _ _ CopyCtor 3%Z int_roomy H1 int_roomy_owns
           (int_cannot_throw _) int_roomy_inserts_well).
Defined.

Lemma Emplace_Erase_witness :
  ∃ p s', (p ← Vector.Emplace 1 (Ptr 2 0) (values CopyCtor 9%Z); Vector.Erase 1 p) int_full = Ret p s' ∧
          elements s' 1 = elements int_full 1 ∧
          size_of s' 1 = size_of int_full 1.
Proof.
  assert (objs int_full !! 1 = Some (Vector.mk (RawMemory.mk 2 2) 2)) as H1
    by (vm_compute; reflexivity).
  assert (0 ≤ length [1; 2]%Z) as Hi by (simpl; lia).
  exact (Emplace_Erase 1 _ _ 0 CopyCtor 9%Z int_full H1 int_full_owns Hi
           (int_cannot_throw _) (int_cannot_throw _) int_full_inserts_well).
Defined.

(** [RawMemory<int>] of capacity 2; of capacity [2^62], where the product
    wraps to 0 bytes; and of capacity [SIZE_MAX], a request that [operator
    new] does not serve. *)
Lemma RawMemory_ctor_spec_witness :
  (∃ s' r, RawMemory.ctor 1 2 (start tt : Store Z unit RawMemory.t) = Ret tt s' ∧
           objs s' = <[1 := r]> (objs (start tt : Store Z unit RawMemory.t)) ∧
           RawMemory.capacity_ r = 2 ∧
           raw_ok r ∧
           heap (mem s') !! 1 = Some [None; None]) ∧
  (∃ s' r, RawMemory.ctor 1 (N.to_nat (2 ^ 62)) (start tt : Store Z unit RawMemory.t)
             = Ret tt s' ∧
           objs s' = <[1 := r]> (objs (start tt : Store Z unit RawMemory.t)) ∧
           RawMemory.capacity_ r = N.to_nat (2 ^ 62) ∧
           raw_ok r ∧
           heap (mem s') !! 1 = Some []) ∧
  RawMemory.ctor 1 (N.to_nat SIZE_MAX) (start tt : Store Z unit RawMemory.t) = Throw (start tt).
Proof.
  assert (objs (start tt : Store Z unit RawMemory.t) !! 1 = None) as H1 by reflexivity.
  assert (0 < brk (mem (start tt : Store Z unit RawMemory.t))) as Hb by (simpl; lia).
  assert (room (E:=int_element) (N.to_nat (2 ^ 62)) = 0) as Hroom
    by (unfold room; rewrite N2Nat.id; vm_compute; reflexivity).
  split_and!.
  - destruct (RawMemory_ctor_spec 1 2 _ H1 Hb) as [Ht Hr].
    destruct (total_ret _ _ _ Ht Hr) as ([] & s' & He & r & Ho & Hc & Hok & _ & Hnew).
    destruct Hnew as (_ & Hh & _); [lia|].
    exists s', r. split_and!; [exact He|exact Ho|exact Hc|exact Hok|].
    rewrite Hh. apply lookup_insert_eq.
  - destruct (RawMemory_ctor_spec 1 (N.to_nat (2 ^ 62)) _ H1 Hb) as [Ht Hr].
    assert (N.to_nat (2 ^ 62) ≠ 0) as Hn by lia.
    destruct (decide (N.to_nat (2 ^ 62) = 0)) as [|_]; [contradiction|].
    rewrite N2Nat.id in Hr.
    destruct (total_ret _ _ _ Ht Hr) as ([] & s' & He & r & Ho & Hc & Hok & _ & Hnew).
    destruct (Hnew Hn) as (_ & Hh & _).
    exists s', r. split_and!; [exact He|exact Ho|exact Hc|exact Hok|].
    rewrite Hh, Hroom. apply lookup_insert_eq.
  - destruct (RawMemory_ctor_spec 1 (N.to_nat SIZE_MAX) _ H1 Hb) as [Ht Hr].
    assert (N.to_nat SIZE_MAX ≠ 0) as Hn by (unfold SIZE_MAX; lia).
    destruct (decide (N.to_nat SIZE_MAX = 0)) as [|_]; [contradiction|].
    rewrite N2Nat.id in Hr.
    destruct (total_thrown _ _ _ Ht Hr) as (st & He & ->). exact He.
Defined.

Lemma RawMemory_ctor_dtor_witness :
  ∃ s', (RawMemory.ctor 1 2;; RawMemory.dtor 1) (start tt : Store Z unit RawMemory.t)
          = Ret tt s' ∧
        objs s' = objs (start tt : Store Z unit RawMemory.t) ∧
        heap (mem s') = heap (mem (start tt : Store Z unit RawMemory.t)).
Proof.
  assert (objs (start tt : Store Z unit RawMemory.t) !! 1 = None) as H1 by reflexivity.
  assert (0 < brk (mem (start tt : Store Z unit RawMemory.t))) as Hb by (simpl; lia).
  assert (heap (mem (start tt : Store Z unit RawMemory.t))
            !! brk (mem (start tt : Store Z unit RawMemory.t)) = None) as Hf by reflexivity.
  destruct (RawMemory_ctor_dtor 1 2 _ H1 Hb Hf) as [Ht Hr].
  destruct (total_ret _ _ _ Ht Hr) as ([] & s' & He & Ho & Hh).
  exists s'. split_and!; [exact He|exact Ho|exact Hh].
Defined.

Lemma RawMemory_move_then_destroy_source_witness :
  ∃ s1 s', RawMemory.move_ctor 3 1 raw_pair = Ret tt s1 ∧
           objs s1 !! 3 = Some (RawMemory.mk 1 2) ∧
           objs s1 !! 1 = Some RawMemory.empty ∧
           RawMemory.dtor 1 s1 = Ret tt s' ∧
           mem s' = mem raw_pair ∧
           objs s' !! 3 = Some (RawMemory.mk 1 2).
Proof.
  assert (objs raw_pair !! 1 = Some (RawMemory.mk 1 2)) as H1 by (vm_compute; reflexivity).
  assert (objs raw_pair !! 3 = None) as H3 by (vm_compute; reflexivity).
  destruct (RawMemory_move_then_destroy_source 3 1 _ raw_pair H1 H3)
    as (s1 & s' & Hm & _ & Ht & Ho & Hd & Hmem & Ht' & _).
  exists s1, s'. split_and!; [exact Hm|exact Ht|exact Ho|exact Hd|exact Hmem|exact Ht'].
Defined.

Lemma RawMemory_Swap_exchanges_witness :
  ∃ s', RawMemory.Swap 1 2 raw_pair = Ret tt s' ∧
        objs s' !! 1 = Some (RawMemory.mk 2 3) ∧
        objs s' !! 2 = Some (RawMemory.mk 1 2) ∧
        RawMemory.Swap 1 2 s' = Ret tt raw_pair.
Proof.
  assert (objs raw_pair !! 1 = Some (RawMemory.mk 1 2)) as H1 by (vm_compute; reflexivity).
  assert (objs raw_pair !! 2 = Some (RawMemory.mk 2 3)) as H2 by (vm_compute; reflexivity).
  destruct (RawMemory_Swap_exchanges 1 2 _ _ raw_pair H1 H2)
    as (s' & Hr & _ & Ha & Hb & _ & Hback).
  exists s'. split_and!; [exact Hr|exact Ha|exact Hb|exact Hback].
Defined.

Lemma throwing_pair_fresh : fresh (mem throwing_pair).
Proof. apply fresh_map_Forall. refine (bool_decide_unpack _ _). vm_compute. reflexivity. Qed.

Lemma throwing_two_fresh : fresh (mem throwing_two).
Proof. apply fresh_map_Forall. refine (bool_decide_unpack _ _). vm_compute. reflexivity. Qed.

Lemma growth_throw_restores_heap_witness :
  ∃ s', perform (E:=throwing_copy_element) (reserve 1 4) throwing_pair = Throw s' ∧
        objs s' = objs throwing_pair ∧
        heap (mem s') = heap (mem throwing_pair).
Proof.
  eexists. split; [vm_compute; reflexivity|].
  eapply (growth_throw_restores_heap (E:=throwing_copy_element) (reserve 1 4) 1
            (Vector.mk (RawMemory.mk 2 2) 2) throwing_pair).
  - right. reflexivity.
  - vm_compute; reflexivity.
  - vm_compute; lia.
  - apply throwing_pair_fresh.
  - left. by exists 4.
  - vm_compute; reflexivity.
Defined.

Lemma ctor_copy_throw_witness :
  ∃ s', Vector.ctor_copy (E:=throwing_copy_element) 2 1 throwing_pair = Throw s' ∧
        objs s' = objs throwing_pair ∧
        heap (mem s') = heap (mem throwing_pair).
Proof.
  eexists. split; [vm_compute; reflexivity|].
  eapply (ctor_copy_throw (E:=throwing_copy_element) 2 1
            (Vector.mk (RawMemory.mk 2 2) 2) throwing_pair).
  - vm_compute; reflexivity.
  - vm_compute; lia.
  - apply throwing_pair_fresh.
  - vm_compute; reflexivity.
Defined.

Lemma start_fresh {O} w : fresh (mem (start w : Store nat nat O)).
Proof. intros a _. reflexivity. Qed.

Lemma ctor_size_throw_witness :
  ∃ s', Vector.ctor_size (E:=throwing_value_element) 1 3 (start 2) = Throw s' ∧
        objs s' = objs (start 2 : Store nat nat Vector.t) ∧
        heap (mem s') = heap (mem (start 2 : Store nat nat Vector.t)).
Proof.
  eexists. split; [vm_compute; reflexivity|].
  eapply (ctor_size_throw (E:=throwing_value_element) 1 3 (start 2)).
  - simpl. lia.
  - apply start_fresh.
  - vm_compute; reflexivity.
Defined.

Lemma copy_assign_throw_witness :
  ∃ s', Vector.copy_assign (E:=throwing_copy_element) 2 1 throwing_two = Throw s' ∧
        objs s' = objs throwing_two ∧
        heap (mem s') = heap (mem throwing_two).
Proof.
  eexists. split; [vm_compute; reflexivity|].
  eapply (copy_assign_throw (E:=throwing_copy_element) 2 1 Vector.empty
            (Vector.mk (RawMemory.mk 2 2) 2) throwing_two).
  - vm_compute; reflexivity.
  - vm_compute; reflexivity.
  - vm_compute; lia.
  - vm_compute; lia.
  - apply throwing_two_fresh.
  - vm_compute; reflexivity.
Defined.

Lemma push_back_all_witness :
  ∃ s' c, run ((λ x, push_back 2 (values CopyCtor x)) <$> [5; 6; 7]%Z) int_pair = Some s' ∧
          elements s' 2 = Some [5; 6; 7]%Z ∧
          capacity_of s' 2 = Some c ∧
          3 ≤ c ≤ 6.
Proof.
  assert (objs int_pair !! 2 = Some Vector.empty) as H2 by (vm_compute; reflexivity).
  assert (∀ x : Z, moved_from x = x) as Hid by reflexivity.
  assert (∀ n, n ≤ 2 * (length ([] : list Z) + length [5; 6; 7]%Z) →
               can_allocate (E:=int_element) n) as Hal
    by (intros n Hn; apply int_can_allocate; simpl in Hn; lia).
  destruct (push_back_all 2 CopyCtor [5; 6; 7]%Z _ _ int_pair Hid
              Hal
              (int_cannot_throw _) (int_cannot_throw _) (int_cannot_throw _)
              (int_cannot_throw _) H2 int_pair_owns_empty)
    as (s' & c & Hr & Hel & _ & Hcap & Hc).
  exists s', c. split_and!; [exact Hr|exact Hel|exact Hcap|exact (proj1 Hc)|exact (proj2 Hc)].
Defined.

Lemma position_asserted_witness :
  Vector.Emplace 1 (Ptr 2 3) (values CopyCtor 9%Z) int_full = Abort ∧
  Vector.Erase 1 (Ptr 2 2) int_full = Abort.
Proof.
  assert (objs int_full !! 1 = Some (Vector.mk (RawMemory.mk 2 2) 2)) as H1
    by (vm_compute; reflexivity).
  destruct (position_asserted 1 _ 3 CopyCtor 9%Z int_full H1) as [He _].
  destruct (position_asserted 1 _ 2 CopyCtor 9%Z int_full H1) as [_ Hr].
  split; [apply He; vm_compute; lia|apply Hr; vm_compute; lia].
Defined.

(** [Reserve(SIZE_MAX)] on a [Vector<int>]. *)
Lemma Reserve_out_of_memory_witness :
  Vector.Reserve 1 (N.to_nat SIZE_MAX) int_full = Throw int_full.
Proof.
  assert (objs int_full !! 1 = Some (Vector.mk (RawMemory.mk 2 2) 2)) as H1
    by (vm_compute; reflexivity).
  assert (capacity (Vector.mk (RawMemory.mk 2 2) 2) < N.to_nat SIZE_MAX) as Hn
    by (unfold capacity, SIZE_MAX; cbn [RawMemory.capacity_ Vector.data_]; lia).
  assert (allocates (Element:=int_element)
            (size_t_mul (N.of_nat (N.to_nat SIZE_MAX)) (N.pos sizeof))
            (world (mem int_full)) = false) as Ha
    by (rewrite N2Nat.id; vm_compute; reflexivity).
  exact (Reserve_out_of_memory 1 _ _ int_full H1 Hn Ha).
Defined.

Lemma int_empty_owns : owns (mem int_empty) Vector.empty ([] : list Z).
Proof. unfold owns. split_and!; vm_compute; lia. Qed.

(** [Vector<int> v; v.Reserve(2^62); v.PushBack(7);] *)
Lemma Reserve_wraps_witness :
  ∃ s', Vector.Reserve 1 (N.to_nat (2 ^ 62)) int_empty = Ret tt s' ∧
        capacity_of s' 1 = Some (N.to_nat (2 ^ 62)) ∧
        heap (mem s') !! 1 = Some [] ∧
        Vector.PushBack 1 (values CopyCtor 7%Z) s' = Abort.
Proof.
  assert (objs int_empty !! 1 = Some Vector.empty) as H1 by (vm_compute; reflexivity).
  assert (capacity Vector.empty < N.to_nat (2 ^ 62)) as Hn
    by (unfold capacity; cbn [RawMemory.capacity_ Vector.data_ Vector.empty RawMemory.empty]; lia).
  assert (¬ fits (E:=int_element) (N.to_nat (2 ^ 62))) as Hfits
    by (unfold fits; rewrite N2Nat.id; vm_compute; intros H; by apply H).
  assert (allocates (Element:=int_element)
            (size_t_mul (N.of_nat (N.to_nat (2 ^ 62))) (N.pos sizeof))
            (world (mem int_empty)) = true) as Ha
    by (rewrite N2Nat.id; vm_compute; reflexivity).
  assert (room (E:=int_element) (N.to_nat (2 ^ 62)) = 0) as Hroom
    by (unfold room; rewrite N2Nat.id; vm_compute; reflexivity).
  destruct (Reserve_wraps 1 _ _ int_empty H1 int_empty_owns Hn Hfits Ha)
    as (_ & s' & Hr & _ & Hcap & Hblk & Hpush).
  rewrite Hroom in Hblk.
  exists s'. split_and!; [exact Hr|exact Hcap|exact Hblk|exact (Hpush Hroom _ _)].
Defined.
